(** * price-provider: resilience and normalization pipeline

    A shallow embedding of the Go sources of the price provider:
    the quote aggregator ([aggregate]), the TTL cache decorator ([cache]),
    the batch splitter of [steamdt_dump] ([steamdt_dump]), the
    refresh-coalescing payload cache ([skinstablexyz]) and the token bucket
    ([ratelimit]).  Maps are [gmap]s, Go [int]s are [Z], strings are byte
    strings, [time.Time] is an instant counted in nanoseconds, and
    [float64] is the binary64 float of the kernel. *)

From Stdlib Require Import ZArith String Ascii Lia OrderedTypeEx Floats Uint63.
From stdpp Require Import gmap strings list sorting.

Local Open Scope string_scope.
Local Open Scope Z_scope.

(** ** Go's [time] package: instants and durations *)

Module time.

(** A [time.Time] is modelled by its instant: the number of nanoseconds
    elapsed since the zero time, January 1 of year 1, 00:00:00 UTC.  The
    location and the monotonic reading, which no comparison of the sources
    looks at, are left out. *)
Definition Time := Z.
Definition Duration := Z.

Definition Nanosecond : Duration := 1.
Definition Millisecond : Duration := 1000000.
Definition Second : Duration := 1000000000.
Definition Minute : Duration := 60 * Second.
Definition Hour : Duration := 3600 * Second.

Definition zero : Time := 0.
Definition IsZero (t : Time) : bool := t =? 0.
Definition After (t u : Time) : bool := u <? t.
Definition Before (t u : Time) : bool := t <? u.
Definition Equal (t u : Time) : bool := t =? u.
Definition Add (t : Time) (d : Duration) : Time := t + d.
Definition Sub (t u : Time) : Duration := t - u.

(** [time.Date(2025, 1, 2, 3, 4, 5, 0, time.UTC)], the instant of the
    repository's tests: 63871383845 seconds after the zero time. *)
Definition test_instant : Time := 63871383845 * Second.

(** [time.Unix(sec, 0)] and [time.UnixMilli(msec)]: the Unix epoch,
    January 1, 1970, is 62135596800 seconds after the zero time.  (The
    sources call them with positive arguments, [sec] at most [10^12].) *)
Definition unixEpoch : Time := 62135596800 * Second.
Definition Unix (sec : Z) : Time := unixEpoch + sec * Second.
Definition UnixMilli (msec : Z) : Time := unixEpoch + msec * Millisecond.

End time.

(** ** Go's [strings] package, as far as the sources call it *)

Module GoStrings.

(** [strings.Split(s, sep)] for a one-byte separator: the pieces of [s]
    between the occurrences of [sep]; always at least one piece. *)
Fixpoint Split (s : string) (sep : ascii) : list string :=
  match s with
  | EmptyString => [EmptyString]
  | String c s' =>
      if Ascii.eqb c sep then EmptyString :: Split s' sep
      else match Split s' sep with
           | [] => [String c EmptyString]
           | p :: ps => String c p :: ps
           end
  end.

(** [strings.Index(s, sep)] for a one-byte separator: the position of the
    first occurrence, or -1. *)
Fixpoint Index (s : string) (sep : ascii) : Z :=
  match s with
  | EmptyString => -1
  | String c s' =>
      if Ascii.eqb c sep then 0
      else let i := Index s' sep in if i <? 0 then -1 else i + 1
  end.

(** The slice [s[:n]]. *)
Definition prefix (s : string) (n : Z) : string :=
  String.substring 0 (Z.to_nat n) s.

(** [strings.Join(elems, sep)]. *)
Fixpoint Join (elems : list string) (sep : string) : string :=
  match elems with
  | [] => ""
  | e :: es =>
      match es with
      | [] => e
      | _ => e ++ sep ++ Join es sep
      end
  end.

(** [strings.TrimSpace] and [strings.ToLower] are Unicode aware; the
    sources only need them as functions on strings, so they are taken as
    an interface, with the instance below for ASCII text. *)
Class Unicode := {
  TrimSpace : string → string;
  ToLower : string → string
}.

(** The ASCII white space of Go: tab, line feed, vertical tab, form feed,
    carriage return and space. *)
Definition asciiSpace (c : ascii) : bool :=
  let n := N_of_ascii c in
  ((9 <=? n) && (n <=? 13) || (n =? 32))%N.

Fixpoint trimLeft (s : string) : string :=
  match s with
  | EmptyString => EmptyString
  | String c s' => if asciiSpace c then trimLeft s' else s
  end.

Fixpoint trimRight (s : string) : string :=
  match s with
  | EmptyString => EmptyString
  | String c s' =>
      match trimRight s' with
      | EmptyString => if asciiSpace c then EmptyString else String c EmptyString
      | r => String c r
      end
  end.

Definition lowerByte (c : ascii) : ascii :=
  let n := N_of_ascii c in
  if ((65 <=? n) && (n <=? 90))%N then ascii_of_N (n + 32) else c.

Fixpoint lowerAscii (s : string) : string :=
  match s with
  | EmptyString => EmptyString
  | String c s' => String (lowerByte c) (lowerAscii s')
  end.

(** What Go's two functions compute on strings of ASCII bytes. *)
Definition ascii_text : Unicode :=
  {| TrimSpace := fun s => trimRight (trimLeft s); ToLower := lowerAscii |}.

End GoStrings.

Export GoStrings (Unicode, TrimSpace, ToLower).

(** ** [internal/provider]: the quote *)

Module provider.

Record Quote := {
  Symbol : string;
  Price : string;
  Currency : string;
  Source : string;
  ReceivedAt : time.Time
}.

End provider.

(** ** [internal/aggregate]: normalization and latest-per-market *)

Module aggregate.

Record MarketKey := {
  key_Symbol : string;
  key_Market : string;
  key_Side : string;
  key_Currency : string
}.

Record Latest := {
  Symbol : string;
  Market : string;
  Side : string;
  Currency : string;
  Price : string;
  Provider : string;
  ReceivedAt : time.Time
}.

#[export] Instance MarketKey_eq_dec : EqDecision MarketKey.
Proof. solve_decision. Defined.

#[export] Instance MarketKey_countable : Countable MarketKey.
Proof.
  refine (inj_countable'
    (fun k => (key_Symbol k, key_Market k, key_Side k, key_Currency k))
    (fun t => match t with
              | (s, m, d, c) =>
                  {| key_Symbol := s; key_Market := m; key_Side := d; key_Currency := c |}
              end) _).
  by intros [].
Defined.

#[export] Instance Latest_eq_dec : EqDecision Latest.
Proof. solve_decision. Defined.

(** The alias table of market spellings. *)
Definition aliasMap : gmap string string :=
  list_to_map
    [ ("buff", "BUFF"); ("buff.163", "BUFF"); ("buff163", "BUFF");
      ("steam", "Steam"); ("c5", "C5GAME"); ("c5game", "C5GAME");
      ("csmoney", "CS.MONEY"); ("cs.money", "CS.MONEY");
      ("skinport", "Skinport") ].

Section WithUnicode.
Context {U : Unicode}.

(** [parts[i]] when [len(parts) > i], the empty string otherwise (the
    zero value of [mraw] and [sraw]). *)
Definition part (parts : list string) (i : nat) : string :=
  default "" (parts !! i).

Definition NormalizeSource (src : string) : string * string :=
  let s := TrimSpace src in
  if String.eqb s "" then ("", "") else
  let parts := GoStrings.Split s ":" in
  if (length parts =? 0)%nat then ("", "") else
  let pref := TrimSpace (part parts 0) in
  let lpref := ToLower pref in
  let '(mraw, sraw) :=
    if String.eqb lpref "steamdt" then (part parts 1, part parts 2)
    else if String.eqb lpref "pricempire" || String.eqb lpref "skinstablexyz"
    then (part parts 1, "")
    else (part parts 1, part parts 2) in
  let m := TrimSpace mraw in
  let market :=
    match aliasMap !! ToLower m with
    | Some norm => norm
    | None => m
    end in
  let side := ToLower (TrimSpace sraw) in
  (market, side).

(** The provider name: the prefix of [Source] before the first colon,
    the whole [Source] when the colon is missing or leads. *)
Definition providerName (source : string) : string :=
  let idx := GoStrings.Index source ":" in
  if 0 <? idx then GoStrings.prefix source idx else source.

(** The timestamp a quote is compared and stored with. *)
Definition effectiveTime (now : time.Time) (q : provider.Quote) : time.Time :=
  if time.IsZero (provider.ReceivedAt q) then now else provider.ReceivedAt q.

Definition sideOf (includeSides : bool) (q : provider.Quote) : string :=
  if includeSides then (NormalizeSource (provider.Source q)).2 else "".

Definition keyOf (includeSides : bool) (q : provider.Quote) : MarketKey :=
  {| key_Symbol := provider.Symbol q;
     key_Market := (NormalizeSource (provider.Source q)).1;
     key_Side := sideOf includeSides q;
     key_Currency := provider.Currency q |}.

Definition rowOf (now : time.Time) (includeSides : bool) (q : provider.Quote) : Latest :=
  {| Symbol := provider.Symbol q;
     Market := (NormalizeSource (provider.Source q)).1;
     Side := sideOf includeSides q;
     Currency := provider.Currency q;
     Price := provider.Price q;
     Provider := providerName (provider.Source q);
     ReceivedAt := effectiveTime now q |}.

(** One iteration of the loop over the quotes. *)
Definition step (now : time.Time) (includeSides : bool)
    (latest : gmap MarketKey Latest) (q : provider.Quote) : gmap MarketKey Latest :=
  let ts := effectiveTime now q in
  let key := keyOf includeSides q in
  match latest !! key with
  | Some cur =>
      if time.After ts (ReceivedAt cur) || time.Equal ts (ReceivedAt cur)
      then <[key := rowOf now includeSides q]> latest
      else latest
  | None => <[key := rowOf now includeSides q]> latest
  end.

(** The table [latest] when the loop is over. *)
Definition collapse (now : time.Time) (includeSides : bool)
    (quotes : list provider.Quote) : gmap MarketKey Latest :=
  foldl (step now includeSides) ∅ quotes.

(** The quote at position [i] wins its group: no quote of the group
    is later, and those the loop meets after it are strictly earlier. *)
Definition winner (now : time.Time) (includeSides : bool)
    (quotes : list provider.Quote) (i : nat) (q : provider.Quote) : Prop :=
  quotes !! i = Some q ∧
  (∀ j q', quotes !! j = Some q' → keyOf includeSides q' = keyOf includeSides q →
           effectiveTime now q' ≤ effectiveTime now q) ∧
  (∀ j q', quotes !! j = Some q' → keyOf includeSides q' = keyOf includeSides q →
           (i < j)%nat → effectiveTime now q' < effectiveTime now q).

(** What the loop keeps true of [latest]. *)
Definition tabulated (now : time.Time) (includeSides : bool)
    (quotes : list provider.Quote) (latest : gmap MarketKey Latest) : Prop :=
  ∀ k, match latest !! k with
       | Some r => ∃ i q, winner now includeSides quotes i q ∧
                          keyOf includeSides q = k ∧ r = rowOf now includeSides q
       | None => ∀ q, q ∈ quotes → keyOf includeSides q ≠ k
       end.

(** All timestamps are set. *)
Definition allSet (quotes : list provider.Quote) : Prop :=
  Forall (fun q => time.IsZero (provider.ReceivedAt q) = false) quotes.

(** Two quotes of one group with the same [ReceivedAt] are one quote. *)
Definition noTies (includeSides : bool) (quotes : list provider.Quote) : Prop :=
  ∀ q q', q ∈ quotes → q' ∈ quotes →
    keyOf includeSides q = keyOf includeSides q' →
    provider.ReceivedAt q = provider.ReceivedAt q' → q = q'.

(** Groups that agree on symbol, market and side agree on the currency:
    [less] tells any two rows apart. *)
Definition oneCurrency (includeSides : bool) (quotes : list provider.Quote) : Prop :=
  ∀ q q', q ∈ quotes → q' ∈ quotes →
    key_Symbol (keyOf includeSides q) = key_Symbol (keyOf includeSides q') →
    key_Market (keyOf includeSides q) = key_Market (keyOf includeSides q') →
    key_Side (keyOf includeSides q) = key_Side (keyOf includeSides q') →
    provider.Currency q = provider.Currency q'.

End WithUnicode.

(** The key a row of the table sits under. *)
Definition rowKey (r : Latest) : MarketKey :=
  {| key_Symbol := Symbol r; key_Market := Market r; key_Side := Side r;
     key_Currency := Currency r |}.

(** The comparison closure handed to [sort.Slice]. *)
Definition less (a b : Latest) : bool :=
  if negb (String.eqb (Symbol a) (Symbol b)) then String.ltb (Symbol a) (Symbol b)
  else if negb (String.eqb (Market a) (Market b)) then String.ltb (Market a) (Market b)
  else if negb (String.eqb (Side a) (Side b)) then String.ltb (Side a) (Side b)
  else false.

(** The three-way comparison [less] decides: by symbol, then market, then
    side, each as Go compares strings, byte by byte. *)
Definition lex (a b : Latest) : comparison :=
  match String.compare (Symbol a) (Symbol b) with
  | Eq => match String.compare (Market a) (Market b) with
          | Eq => String.compare (Side a) (Side b)
          | c => c
          end
  | c => c
  end.

(** [a] may stand before [b] in a slice sorted by [less]. *)
Definition notAfter (a b : Latest) : Prop := less b a = false.

#[export] Instance notAfter_dec a b : Decision (notAfter a b).
Proof. unfold notAfter. apply _. Defined.

(** [sort.Slice(out, less)]. *)
Definition sortSlice (out : list Latest) : list Latest :=
  merge_sort notAfter out.

(** Go ranges over a map in an order of the runtime's choosing, and
    [sort.Slice] is not stable: [range] stands for the order in which the
    rows of the table come out, any rearrangement of them, and what is
    proved of Go's result is proved for every such [range]. *)
Definition rangeOrder (range : list Latest → list Latest) : Prop :=
  ∀ l, range l ≡ₚ l.

Definition values (latest : gmap MarketKey Latest) : list Latest :=
  (map_to_list latest).*2.

Definition LatestByMarket {U : Unicode} (range : list Latest → list Latest)
    (now : time.Time) (quotes : list provider.Quote) (includeSides : bool)
    : list Latest :=
  sortSlice (range (values (collapse now includeSides quotes))).

End aggregate.

(** ** [internal/provider/cache]: the TTL cache decorator *)

Module cache.

Definition error := string.

(** What a [Fetch] returns: the quotes and the error, [None] for [nil]. *)
Definition result : Type := list provider.Quote * option error.

Record entry := {
  expiresAt : time.Time;
  quotes : list provider.Quote
}.

(** The decorator without its wrapped provider, which [call] answers for
    (with [P] nil Go panics on the first call; [P] is taken to be there).
    A [nil] map reads like an empty one, so [items] starts empty. *)
Record Provider := {
  TTL : time.Duration;
  MaxItems : Z;
  items : gmap string entry
}.

(** What one call of [Fetch] reads from outside: the clock on entry, the
    answer of the wrapped provider, the clock at each turn of the eviction
    loop, and the orders in which the runtime ranges over [items]. *)
Record call := {
  now : time.Time;
  P_Fetch : list string → result;
  evictNow : nat → time.Time;
  rangeExpired : gmap string entry → list string;
  rangeAny : gmap string entry → list string
}.

(** The literal [&cache.Provider{P: p, TTL: ttl, MaxItems: n}]. *)
Definition literal (ttl : time.Duration) (maxItems : Z) : Provider :=
  {| TTL := ttl; MaxItems := maxItems; items := ∅ |}.

(** [e, ok := c.items[s]; ok && now.Before(e.expiresAt)] *)
Definition fresh (now : time.Time) (m : gmap string entry) (s : string) : bool :=
  match m !! s with
  | Some e => time.Before now (expiresAt e)
  | None => false
  end.

Definition cachedQuotes (now : time.Time) (m : gmap string entry)
    (symbols : list string) : list provider.Quote :=
  flat_map (fun s => match m !! s with
                     | Some e => if time.Before now (expiresAt e) then quotes e else []
                     | None => []
                     end) symbols.

(** The symbols put into [missingSet], in request order. *)
Definition missingSet (now : time.Time) (m : gmap string entry)
    (symbols : list string) : list string :=
  filter (fun s => fresh now m s = false) symbols.

(** First occurrences only, in order: the loop with the [seen] set. *)
Fixpoint unique (seen : gset string) (l : list string) : list string :=
  match l with
  | [] => []
  | s :: l' =>
      if decide (s ∈ seen) then unique seen l'
      else s :: unique ({[s]} ∪ seen) l'
  end.

Definition missing (now : time.Time) (m : gmap string entry)
    (symbols : list string) : list string :=
  unique ∅ (missingSet now m symbols).

Definition index (freshQuotes : list provider.Quote) : gmap string (list provider.Quote) :=
  foldl (fun by_ q =>
           <[provider.Symbol q := (default [] (by_ !! provider.Symbol q) ++ [q])%list]> by_)
        ∅ freshQuotes.

(** First eviction loop: drop expired entries until the cap is met. *)
Fixpoint evictExpired (clock : nat → time.Time) (i : nat) (cap : Z)
    (ks : list string) (m : gmap string entry) : gmap string entry :=
  match ks with
  | [] => m
  | k :: ks' =>
      let m1 := match m !! k with
                | Some v => if time.After (clock i) (expiresAt v) then delete k m else m
                | None => m
                end in
      if Z.of_nat (size m1) <=? cap then m1
      else evictExpired clock (S i) cap ks' m1
  end.

(** Second eviction loop: drop whatever comes until the cap is met. *)
Fixpoint evictAny (cap : Z) (ks : list string) (m : gmap string entry)
    : gmap string entry :=
  match ks with
  | [] => m
  | k :: ks' =>
      if Z.of_nat (size m) <=? cap then m else evictAny cap ks' (delete k m)
  end.

Definition store (c : Provider) (env : call)
    (bySymbol : gmap string (list provider.Quote)) : gmap string entry :=
  let expiry := time.Add (now env) (TTL c) in
  let m := ((fun qs => {| expiresAt := expiry; quotes := qs |}) <$> bySymbol)
             ∪ items c in
  if (0 <? MaxItems c) && (MaxItems c <? Z.of_nat (size m)) then
    let m1 := evictExpired (evictNow env) 0 (MaxItems c) (rangeExpired env m) m in
    evictAny (MaxItems c) (rangeAny env m1) m1
  else m.

Definition merge (now : time.Time) (bySymbol : gmap string (list provider.Quote))
    (m : gmap string entry) (symbols : list string) : list provider.Quote :=
  flat_map (fun s => match bySymbol !! s with
                     | Some qs => qs
                     | None => match m !! s with
                               | Some e => if time.Before now (expiresAt e)
                                           then quotes e else []
                               | None => []
                               end
                     end) symbols.

(** The list [Fetch] hands to the wrapped provider, when it calls it. *)
Definition upstreamCall (c : Provider) (now : time.Time) (symbols : list string)
    : option (list string) :=
  if TTL c <=? 0 then Some symbols
  else match missingSet now (items c) symbols with
       | [] => None
       | _ => Some (missing now (items c) symbols)
       end.

Definition Fetch (c : Provider) (env : call) (symbols : list string)
    : result * Provider :=
  if TTL c <=? 0 then (P_Fetch env symbols, c) else
  let cached := cachedQuotes (now env) (items c) symbols in
  match missingSet (now env) (items c) symbols with
  | [] => ((cached, None), c)
  | _ =>
      match P_Fetch env (missing (now env) (items c) symbols) with
      | (_, Some err) =>
          if (0 <? length cached)%nat then ((cached, None), c)
          else (([], Some err), c)
      | (freshQuotes, None) =>
          let bySymbol := index freshQuotes in
          let m := store c env bySymbol in
          ((merge (now env) bySymbol m symbols, None),
           {| TTL := TTL c; MaxItems := MaxItems c; items := m |})
      end
  end.

(** What [Fetch] keeps true of the decorator: a decorator that does not
    cache holds nothing, and no entry is without quotes. *)
Definition stocked (c : Provider) : Prop :=
  (TTL c ≤ 0 → items c = ∅) ∧
  ∀ s e, items c !! s = Some e → quotes e ≠ [].

(** The states a decorator built by [literal] goes through. *)
Inductive reachable : Provider → Prop :=
| reachable_literal ttl maxItems : reachable (literal ttl maxItems)
| reachable_Fetch c env symbols :
    reachable c → reachable (Fetch c env symbols).2.

(** Every entry sits under the symbol of its quotes. *)
Definition keyed (m : gmap string entry) : Prop :=
  ∀ s e q, m !! s = Some e → q ∈ quotes e → provider.Symbol q = s.

(** The runtime ranges over all the keys of the map it is given. *)
Definition rangesOverKeys (range : gmap string entry → list string) : Prop :=
  ∀ m k, is_Some (m !! k) → k ∈ range m.

End cache.

(** ** [cmd/steamdt_dump]: the recursive batch splitter *)

Module steamdt_dump.

Definition RawMessage := string.

Inductive error :=
| httpStatusErr (code : Z) (body : string)
| otherErr (msg : string).

(** What [doReq] returns: the entries, or the error. *)
Inductive response :=
| Data (data : list RawMessage)
| Fail (err : error).

(** What [fetchSplit] does: it returns a pair, or panics. *)
Inductive outcome :=
| Return (data : list RawMessage) (err : option error)
| Panic.

(** Go's [int] and [time.Duration] are 64 bits wide and wrap around. *)
Definition int64 (z : Z) : Z := (z + 2 ^ 63) mod 2 ^ 64 - 2 ^ 63.

(** [time.Duration(250*(1<<attempt)) * time.Millisecond] *)
Definition backoff (attempt : Z) : time.Duration :=
  int64 (int64 (250 * int64 (if attempt <? 64 then 2 ^ attempt else 0))
         * time.Millisecond).

Section Engine.
(** The world the tool runs in: the upstream behind [doReq], and the
    clock [time.Sleep] advances.  The context goes to [doReq] and to
    nothing else. *)
Context {W Ctx : Type}.
Variable doReq : Ctx → list string → W → response * W.
Variable Sleep : time.Duration → W → W.
Variable maxRetries : Z.

(** The retry loop of one batch; [retries] counts the turns left,
    [maxRetries - attempt], and [split] is the bisection. *)
Fixpoint attempts (split : W → outcome * W) (ctx : Ctx) (names : list string)
    (retries : nat) (attempt : Z) (w : W) : outcome * W :=
  let '(resp, w1) := doReq ctx names w in
  match resp with
  | Data data => (Return data None, w1)
  | Fail (httpStatusErr code body) =>
      if (code =? 400) || (code =? 413) then
        if (length names <=? 1)%nat then
          match names with
          | [] => (Panic, w1)
          | _ => (Return [] None, w1)
          end
        else split w1
      else if ((code =? 429) || ((500 <=? code) && (code <? 600)))
      then match retries with
           | S r => attempts split ctx names r (attempt + 1) (Sleep (backoff attempt) w1)
           | O => (Return [] (Some (httpStatusErr code body)), w1)
           end
      else (Return [] (Some (httpStatusErr code body)), w1)
  | Fail err => (Return [] (Some err), w1)
  end.

(** Both halves are fetched, then the errors are looked at. *)
Definition both (fetchLeft fetchRight : W → outcome * W) (w : W) : outcome * W :=
  match fetchLeft w with
  | (Panic, w1) => (Panic, w1)
  | (Return lData lErr, w1) =>
      match fetchRight w1 with
      | (Panic, w2) => (Panic, w2)
      | (Return rData rErr, w2) =>
          match lErr, rErr with
          | Some e, _ => (Return [] (Some e), w2)
          | None, Some e => (Return [] (Some e), w2)
          | None, None => (Return (lData ++ rData)%list None, w2)
          end
      end
  end.

(** [fetchSplit] with the depth of the bisection bounded by [n], which is
    no bound for batches of [n] names or fewer ([fetchSplit_unfold] below
    gives the equation of the source). *)
Fixpoint fetchSplitWithin (n : nat) (ctx : Ctx) (names : list string) (w : W)
    : outcome * W :=
  attempts
    (match n with
     | O => fun w' => (Return [] None, w')
     | S n' =>
         let mid := (length names / 2)%nat in
         both (fetchSplitWithin n' ctx (take mid names))
              (fetchSplitWithin n' ctx (drop mid names))
     end)
    ctx names (Z.to_nat maxRetries) 0 w.

Definition fetchSplit (ctx : Ctx) (names : list string) (w : W) : outcome * W :=
  fetchSplitWithin (length names) ctx names w.

End Engine.

(** The sub-batches the bisection ends with when the upstream takes at
    most [K] names a request: a batch that fits stays, a batch of one name
    that does not fit is skipped, any other is cut at its midpoint. *)
Inductive bisection (K : nat) : list string → list (list string) → Prop :=
| bisection_fits names :
    (length names ≤ K)%nat → bisection K names [names]
| bisection_skip names :
    (K < length names)%nat → (length names ≤ 1)%nat → bisection K names []
| bisection_halves names l r :
    (K < length names)%nat → (1 < length names)%nat →
    bisection K (take (length names / 2) names) l →
    bisection K (drop (length names / 2) names) r →
    bisection K names (l ++ r)%list.

(** A world to run the engine in: a clock, and the trace of what the
    engine did.  The upstream answers by the batch alone; a request made
    once the deadline of the context has passed fails in the HTTP client,
    as [http.NewRequestWithContext] has it; a sleep moves the clock. *)
Inductive event :=
| Requested (names : list string)
| Slept (d : time.Duration).

Record timeline := {
  clock : time.Time;
  trace : list event
}.

Definition serve (upstream : list string → response) (deadline : option time.Time)
    (names : list string) (w : timeline) : response * timeline :=
  (match deadline with
   | Some t => if t <=? clock w then Fail (otherErr "context deadline exceeded")
               else upstream names
   | None => upstream names
   end,
   {| clock := clock w; trace := (trace w ++ [Requested names])%list |}).

Definition pass (d : time.Duration) (w : timeline) : timeline :=
  {| clock := clock w + Z.max d 0; trace := (trace w ++ [Slept d])%list |}.

Definition start : timeline := {| clock := 0; trace := [] |}.

(** What the loop of [main] that fills the channel of jobs comes to: it
    ends and the channel is closed, or [make([]string, end-i)] panics on
    a negative length, or it is still turning. *)
Inductive enqueued :=
| Closed (jobs : list (list string))
| MakePanics (jobs : list (list string))
| Turning (jobs : list (list string)).

(** The loop [for i := 0; i < len(names); i += batchSize] from [i] on,
    [jobs] being the batches sent so far and [n] the number of turns
    looked at. *)
Fixpoint enqueueFrom (n : nat) (names : list string) (batchSize i : Z)
    (jobs : list (list string)) : enqueued :=
  if i <? Z.of_nat (length names) then
    match n with
    | O => Turning jobs
    | S n' =>
        let end_ := i + batchSize in
        let end_ := if Z.of_nat (length names) <? end_ then Z.of_nat (length names)
                    else end_ in
        if end_ - i <? 0 then MakePanics jobs
        else enqueueFrom n' names batchSize (i + batchSize)
               (jobs ++ [take (Z.to_nat (end_ - i)) (drop (Z.to_nat i) names)])%list
    end
  else Closed jobs.

Definition enqueue (n : nat) (names : list string) (batchSize : Z) : enqueued :=
  enqueueFrom n names batchSize 0 [].

End steamdt_dump.

(** ** [internal/provider/skinstablexyz]: the coalescing payload cache *)

Module skinstablexyz.

Definition error := string.

Section Payload.
(** The decoded payload of a site, [map[string]item]. *)
Context {Items : Type}.

Record siteCache := {
  items : Items;
  until : time.Time
}.

(** The guarded write after a refresh that succeeded: [c] is the cache
    as the write lock finds it, [commitNow] the fresh [time.Now()]. *)
Definition commit (c : gmap string siteCache) (site : string)
    (res : siteCache) (commitNow : time.Time) : gmap string siteCache :=
  match c !! site with
  | Some sc2 =>
      if time.After commitNow (until sc2) then <[site := res]> c else c
  | None => <[site := res]> c
  end.

Record refreshState := {
  cache : gmap string siteCache;
  anyValid : bool;
  lastErr : option error
}.

(** What the loop over the sites reads from outside: the result of the
    coalesced [fetchSite], what other callers wrote to the cache while
    it ran, and the clock at the write. *)
Record world := {
  sfDo : string → siteCache + error;
  meanwhile : string → gmap string siteCache → gmap string siteCache;
  commitClock : string → time.Time
}.

(** One turn of the loop over [p.cfg.Sites]. *)
Definition ensureSite (now : time.Time) (env : world)
    (st : refreshState) (site : string) : refreshState :=
  let expired := match cache st !! site with
                 | Some sc => time.After now (until sc)
                 | None => true
                 end in
  if expired then
    match sfDo env site with
    | inr err =>
        {| cache := meanwhile env site (cache st);
           anyValid := anyValid st;
           lastErr := Some err |}
    | inl res =>
        {| cache := commit (meanwhile env site (cache st)) site res
                           (commitClock env site);
           anyValid := true;
           lastErr := lastErr st |}
    end
  else
    {| cache := cache st; anyValid := true; lastErr := lastErr st |}.

Definition ensureSites (now : time.Time) (env : world)
    (c : gmap string siteCache) (sites : list string) : refreshState :=
  foldl (ensureSite now env)
        {| cache := c; anyValid := false; lastErr := None |} sites.

End Payload.

Arguments siteCache : clear implicits.
Arguments refreshState : clear implicits.
Arguments world : clear implicits.

(** An item of the payload: the price, when there is one, and the epoch. *)
Record item := {
  P : option float;
  T : Z
}.

(** The fields of the configuration that [Fetch] reads itself; the
    others go to [fetchSite]. *)
Record Config := {
  Name : string;
  URL : string;
  Currency : string;
  Sites : list string
}.

Definition parseEpochMaybeMillis (v : Z) (fallback : time.Time) : time.Time :=
  if v <=? 0 then fallback
  else if 1000000000000 <? v then time.UnixMilli v
  else time.Unix v.

(** [p.cfg.Sites] once [Fetch] has put the default in. *)
Definition sitesOf (cfg : Config) : list string :=
  match Sites cfg with
  | [] => ["CS.MONEY"]
  | sites => sites
  end.

Section Fetch.
(** [strconv.FormatFloat(v, 'f', -1, 64)] *)
Variable formatFloat : float → string.

(** The snapshot: the sites that have an entry, expired or not. *)
Definition snapshot (c : gmap string (siteCache (gmap string item)))
    (sites : list string) : list (string * siteCache (gmap string item)) :=
  omap (fun site => (fun sc => (site, sc)) <$> c !! site) sites.

Definition quoteOf (cfg : Config) (now : time.Time) (site s : string) (it : item)
    : option provider.Quote :=
  (fun p => {| provider.Symbol := s;
               provider.Price := formatFloat p;
               provider.Currency := Currency cfg;
               provider.Source := Name cfg ++ ":" ++ site;
               provider.ReceivedAt := parseEpochMaybeMillis (T it) now |}) <$> P it.

Definition quotesOf (cfg : Config) (now : time.Time) (symbols : list string)
    (snap : string * siteCache (gmap string item)) : list provider.Quote :=
  omap (fun s => it ← items snap.2 !! s; quoteOf cfg now snap.1 s it) symbols.

(** [Fetch] of the coalescing provider: [c] is the cache on entry,
    [others] what other callers have written to it when the snapshot is
    taken.  Returned with the result is the cache. *)
Definition Fetch (cfg : Config) (now : time.Time)
    (env : world (gmap string item))
    (others : gmap string (siteCache (gmap string item))
              → gmap string (siteCache (gmap string item)))
    (c : gmap string (siteCache (gmap string item))) (symbols : list string)
    : (list provider.Quote * option error) * gmap string (siteCache (gmap string item)) :=
  if String.eqb (URL cfg) "" then (([], Some "skinstable: missing URL"), c)
  else
    let st := ensureSites now env c (sitesOf cfg) in
    if negb (anyValid st) then
      (([], Some (default "skinstable: no data from any site" (lastErr st))), cache st)
    else
      let c' := others (cache st) in
      ((flat_map (quotesOf cfg now symbols) (snapshot c' (sitesOf cfg)), None), c').

End Fetch.

End skinstablexyz.

(** ** [internal/provider/ratelimit]: the token bucket *)

Module ratelimit.

Local Open Scope float_scope.

(** The bucket without its mutex; the numbers are the binary64 floats of
    Go's [float64]. *)
Record TokenBucket := {
  rate : float;
  capacity : float;
  tokens : float;
  last : time.Time
}.

(** The conversion [float64(n)] of an [int] or [int64], rounding to the
    nearest float ([n] above the least [int64]). *)
Definition float64 (n : Z) : float :=
  if (n <? 0)%Z then - of_uint63 (Uint63.of_Z (- n)) else of_uint63 (Uint63.of_Z n).

(** [Duration.Seconds]: the whole seconds plus the nanoseconds left. *)
Definition Seconds (d : time.Duration) : float :=
  float64 (Z.quot d time.Second) + float64 (Z.rem d time.Second) / 1e9.

(** [now] is the [time.Now()] of the constructor; the default rate is the
    float64 next to 0.0000001. *)
Definition NewTokenBucket (tokensPerSecond : float) (burst : Z) (now : time.Time)
    : TokenBucket :=
  let tokensPerSecond :=
    if tokensPerSecond <=? 0 then 0x1.ad7f29abcaf48p-24 else tokensPerSecond in
  let burst := if (burst <=? 0)%Z then 1%Z else burst in
  {| rate := tokensPerSecond;
     capacity := float64 burst;
     tokens := float64 burst;
     last := now |}.

(** The refill at the head of a turn of the loop of [wait]. *)
Definition refill (tb : TokenBucket) (now : time.Time) : TokenBucket :=
  let elapsed := Seconds (time.Sub now (last tb)) in
  if 0 <? elapsed then
    let t := tokens tb + elapsed * rate tb in
    {| rate := rate tb;
       capacity := capacity tb;
       tokens := if capacity tb <? t then capacity tb else t;
       last := now |}
  else tb.

(** What a turn of the loop does under the mutex, [now] being its
    [time.Now()]: the bucket it leaves, and the deficit to wait for when
    no token was there to take. *)
Definition turn (tb : TokenBucket) (now : time.Time) : TokenBucket * option float :=
  let tb := refill tb now in
  if 1 <=? tokens tb then
    ({| rate := rate tb; capacity := capacity tb; tokens := tokens tb - 1;
        last := last tb |}, None)
  else (tb, Some (1 - tokens tb)).

(** The buckets the turns of [wait] lead to from [tb0]. *)
Inductive reached (tb0 : TokenBucket) : TokenBucket → Prop :=
| reached_new : reached tb0 tb0
| reached_turn tb now : reached tb0 tb → reached tb0 (turn tb now).1.

Definition within (tb : TokenBucket) : Prop :=
  (0 <=? tokens tb) = true ∧ (tokens tb <=? capacity tb) = true.

(** What the turns keep: a positive rate and a capacity to compare with. *)
Definition sound (tb : TokenBucket) : Prop :=
  (0 <? rate tb) = true ∧ (0 <=? capacity tb) = true.

(** The bucket after turns of the loop at the instants [nows]. *)
Definition after (tb : TokenBucket) (nows : list time.Time) : TokenBucket :=
  foldl (fun tb now => (turn tb now).1) tb nows.

End ratelimit.

(** ** [internal/provider/ratelimit]: the minimum interval *)

Module MinInterval.

Definition error := string.

(** [MinInterval] without its wrapped provider and its mutex. *)
Record t := {
  Interval : time.Duration;
  last : time.Time
}.

(** How the [select] ends: the context is done, or the timer has fired,
    at an instant. *)
Inductive selected :=
| CtxDone (err : error)
| TimerFired (at_ : time.Time).

(** What one call of [Fetch] meets: the clock when [time.Until] reads it,
    how the [select] on a timer of some duration ends, the answer of the
    wrapped provider called at an instant, and the clock once it has
    returned. *)
Record call := {
  now : time.Time;
  select : time.Duration → selected;
  P_Fetch : time.Time → list string → list provider.Quote * option error;
  returned : time.Time → time.Time
}.

(** What a call comes to: the result, and the instant at which the
    wrapped provider was called, if it was. *)
Definition outcome : Type := (list provider.Quote * option error) * option time.Time.

(** From [qs, err := m.P.Fetch(ctx, symbols)] on, the wrapped provider
    being called at [at_]. *)
Definition proceed (m : t) (env : call) (at_ : time.Time) (symbols : list string)
    : outcome * t :=
  ((P_Fetch env at_ symbols, Some at_),
   if 0 <? Interval m then {| Interval := Interval m; last := returned env at_ |}
   else m).

Definition Fetch (m : t) (env : call) (symbols : list string) : outcome * t :=
  if 0 <? Interval m then
    let wait := time.Sub (time.Add (last m) (Interval m)) (now env) in
    if 0 <? wait then
      match select env wait with
      | CtxDone err => ((([], Some err), None), m)
      | TimerFired at_ => proceed m env at_ symbols
      end
    else proceed m env (now env) symbols
  else proceed m env (now env) symbols.

(** A timer does not fire before its time. *)
Definition timely (env : call) : Prop :=
  ∀ d at_, select env d = TimerFired at_ → now env + d ≤ at_.

End MinInterval.

(** ** [internal/provider/pricempire] *)

Module pricempire.

Definition error := string.

Record Price := {
  Price_ : option float;
  Count : option float;
  Avg30 : option float;
  Inflated : option bool;
  CreatedAt : option time.Time
}.

Record Item := {
  Name : string;
  Liquidity : option float;
  Prices : gmap string Price
}.

(** A value of type [any] as [encoding/json] decodes one. *)
#[warnings="-register-all"] Inductive any :=
| Nil
| Bool (b : bool)
| Float64 (f : float)
| String_ (s : string)
| Slice (l : list any)
| Map (m : gmap string any).

(** What [%T] prints. *)
Definition typeName (v : any) : string :=
  match v with
  | Nil => "<nil>"
  | Bool _ => "bool"
  | Float64 _ => "float64"
  | String_ _ => "string"
  | Slice _ => "[]interface {}"
  | Map _ => "map[string]interface {}"
  end.

(** The type assertions [v.(float64)], [v.(bool)] and [v.(string)]. *)
Definition float64_ (v : any) : option float :=
  match v with Float64 f => Some f | _ => None end.
Definition bool_ (v : any) : option bool :=
  match v with Bool b => Some b | _ => None end.
Definition string_ (v : any) : option string :=
  match v with String_ s => Some s | _ => None end.

(** [parseNullableValue[T]], [assert] being the assertion [v.(T)]. *)
Definition parseNullableValue {T} (assert : any → option T)
    (data : gmap string any) (key : string) : option T + error :=
  match data !! key with
  | None | Some Nil => inl None
  | Some v =>
      match assert v with
      | Some x => inl (Some x)
      | None => inr ("unexpected type: " ++ typeName v)
      end
  end.

Section Items.
(** [time.Parse(time.RFC3339, s)] *)
Variable Parse : string → time.Time + error.
(** The order in which the [range] loop walks the body. *)
Variable rangeBody : gmap string any → list (string * any).

(** The price of one source, from [price, err := ...] to the literal. *)
Definition priceOf (data : gmap string any) : Price + error :=
  match parseNullableValue float64_ data "price" with
  | inr err => inr ("decoding price: " ++ err)
  | inl price =>
  match parseNullableValue float64_ data "count" with
  | inr err => inr ("decoding count: " ++ err)
  | inl count =>
  match parseNullableValue float64_ data "avg30" with
  | inr err => inr ("decoding avg30: " ++ err)
  | inl avg30 =>
  match parseNullableValue bool_ data "isInflated" with
  | inr err => inr ("decoding inflated: " ++ err)
  | inl inflated =>
  match parseNullableValue string_ data "createdAt" with
  | inr err => inr ("decoding createdAt: " ++ err)
  | inl None =>
      inl {| Price_ := price; Count := count; Avg30 := avg30;
             Inflated := inflated; CreatedAt := None |}
  | inl (Some createdAtStr) =>
      match Parse createdAtStr with
      | inr err => inr ("decoding createdAt: " ++ err)
      | inl t =>
          inl {| Price_ := price; Count := count; Avg30 := avg30;
                 Inflated := inflated; CreatedAt := Some t |}
      end
  end end end end end.

(** The loop over the sources, [prices] being the map so far. *)
Fixpoint pricesFrom (item : gmap string any) (sources : list string)
    (prices : gmap string Price) : gmap string Price + error :=
  match sources with
  | [] => inl prices
  | source :: sources' =>
      match item !! source with
      | None | Some Nil => pricesFrom item sources' prices
      | Some (Map data) =>
          match priceOf data with
          | inr err => inr err
          | inl p => pricesFrom item sources' (<[source := p]> prices)
          end
      | Some _ => inr ("decoding " ++ source ++ ": %!w(<nil>)")
      end
  end.

(** One turn of the loop over the body: the item appended, or the error
    returned. *)
Definition itemOf (sources : list string) (name : string) (raw : any)
    : Item + error :=
  match raw with
  | Map item =>
      match parseNullableValue float64_ item "liquidity" with
      | inr err => inr ("decoding liquidity: " ++ err)
      | inl liquidity =>
          match pricesFrom item sources ∅ with
          | inr err => inr err
          | inl prices =>
              inl {| Name := name; Liquidity := liquidity; Prices := prices |}
          end
      end
  | _ => inr "decoding item: %!w(<nil>)"
  end.

Fixpoint itemsFrom (sources : list string) (body : list (string * any))
    (items : list Item) : list Item + error :=
  match body with
  | [] => inl items
  | (name, raw) :: body' =>
      match itemOf sources name raw with
      | inr err => inr err
      | inl it => itemsFrom sources body' (items ++ [it])
      end
  end.

(** [GetAllItemsV3] from [var items = []Item{}] on, [body] being the
    decoded response. *)
Definition items (body : gmap string any) (sources : list string)
    : list Item + error :=
  itemsFrom sources (rangeBody body) [].

End Items.

End pricempire.

(** ** [internal/provider/pricempireadapter] *)

Module pricempireadapter.

Definition error := string.

Record Config := {
  Name : string;
  AppID : Z;
  Currency : string;
  Sources : list string;
  ItemsCacheTTLSeconds : Z
}.

Record Adapter := {
  cfg : Config;
  itemsByName : gmap string pricempire.Item;
  itemsExpires : time.Time
}.

(** What one call of [Fetch] meets: the clock at the look into the cache,
    the answer of the client, the clock when the cache is filled and the
    clock when the quotes are stamped. *)
Record world := {
  clock1 : time.Time;
  GetAllItemsV3 : Z → string → list string → list pricempire.Item * option error;
  clock2 : time.Time;
  clock3 : time.Time
}.

Section WithUnicode.
Context {U : Unicode}.
(** [strconv.FormatFloat(v, 'f', -1, 64)] *)
Variable FormatFloat : float → string.
(** The orders in which the three [range] loops walk their maps. *)
Variable rangeWant : gset string → list string.
Variable rangeItems : gmap string pricempire.Item → list (string * pricempire.Item).
Variable rangePrices : gmap string pricempire.Price → list (string * pricempire.Price).

Definition formatFloat (v : float) : string :=
  let s := FormatFloat v in
  let l := ToLower s in
  if String.eqb l "inf" || String.eqb l "+inf" || String.eqb l "-inf"
     || String.eqb l "nan"
  then "" else s.

(** One turn of the loop of [emit]: the quote appended, if any. *)
Definition quoteOf (c : Config) (now : time.Time) (name : string)
    (sp : string * pricempire.Price) : option provider.Quote :=
  match pricempire.Price_ sp.2 with
  | None => None
  | Some v =>
      let price := formatFloat v in
      if String.eqb price "" then None
      else Some {| provider.Symbol := name;
                   provider.Price := price;
                   provider.Currency := Currency c;
                   provider.Source := Name c ++ ":" ++ sp.1;
                   provider.ReceivedAt := default now (pricempire.CreatedAt sp.2) |}
  end.

(** [q] is the quote of the price [p] that the item [name] has at the
    source [src]. *)
Definition priced (c : Config) (now : time.Time) (name src : string)
    (p : pricempire.Price) (q : provider.Quote) : Prop :=
  ∃ v, pricempire.Price_ p = Some v ∧ formatFloat v ≠ "" ∧
       q = {| provider.Symbol := name;
              provider.Price := formatFloat v;
              provider.Currency := Currency c;
              provider.Source := Name c ++ ":" ++ src;
              provider.ReceivedAt := default now (pricempire.CreatedAt p) |}.

Definition emit (c : Config) (now : time.Time) (name : string) (it : pricempire.Item)
    : list provider.Quote :=
  omap (quoteOf c now name) (rangePrices (pricempire.Prices it)).

(** From [want := ...] to the end, over the items [m]. *)
Definition quotes (c : Config) (m : gmap string pricempire.Item) (now : time.Time)
    (symbols : list string) : list provider.Quote :=
  let want : gset string := list_to_set symbols in
  if (0 <? size want)%nat then
    flat_map (fun name => match m !! name with
                          | Some it => emit c now name it
                          | None => []
                          end) (rangeWant want)
  else flat_map (fun ni => emit c now ni.1 ni.2) (rangeItems m).

Definition ttl (c : Config) : time.Duration :=
  steamdt_dump.int64 (ItemsCacheTTLSeconds c * time.Second).

(** The items of the cache, when it is enabled, filled and not expired. *)
Definition cached (a : Adapter) (now : time.Time) : option (gmap string pricempire.Item) :=
  if (0 <? ttl (cfg a)) && negb (time.IsZero (itemsExpires a))
     && time.Before now (itemsExpires a) && (0 <? size (itemsByName a))%nat
  then Some (itemsByName a) else None.

(** [for _, it := range items { m[it.Name] = it }] *)
Definition byName (items : list pricempire.Item) : gmap string pricempire.Item :=
  foldl (fun m it => <[pricempire.Name it := it]> m) ∅ items.

Definition Fetch (a : Adapter) (env : world) (symbols : list string)
    : (list provider.Quote * option error) * Adapter :=
  match cached a (clock1 env) with
  | Some m => ((quotes (cfg a) m (clock3 env) symbols, None), a)
  | None =>
      match GetAllItemsV3 env (AppID (cfg a)) (Currency (cfg a)) (Sources (cfg a)) with
      | (_, Some err) => (([], Some err), a)
      | (items, None) =>
          let m := byName items in
          ((quotes (cfg a) m (clock3 env) symbols, None),
           if 0 <? ttl (cfg a)
           then {| cfg := cfg a; itemsByName := m;
                   itemsExpires := time.Add (clock2 env) (ttl (cfg a)) |}
           else a)
      end
  end.

(** A [range] loop over a map meets every key once, in some order. *)
Definition ranges : Prop :=
  (∀ s, rangeWant s ≡ₚ elements s) ∧
  (∀ m, rangeItems m ≡ₚ map_to_list m) ∧
  (∀ m, rangePrices m ≡ₚ map_to_list m).

End WithUnicode.

End pricempireadapter.

(** ** [internal/provider/steamdt]: keys, batches, candidates and quotes *)

Module steamdt.

Definition error := string.

(** The fields of the configuration that [Fetch] reads outside its HTTP
    requests. *)
Record Config := {
  Name : string;
  Currency : string;
  SymbolMap : gmap string string;
  IncludeBids : bool;
  MaxItemsPerRequest : Z
}.

(** A listing as decoded; [json.Number] is a string.  The fields that
    nothing reads ([PlatformItemID] and the two counts) are left out. *)
Record listing := {
  Platform : string;
  SellPrice : string;
  BiddingPrice : string;
  UpdateTime : Z
}.

Record entry := {
  MarketHashName : string;
  DataList : list listing
}.

Record candidate := {
  platform : string;
  sell : string;
  bid : string;
  ts : time.Time
}.

#[export] Instance candidate_eq_dec : EqDecision candidate.
Proof. solve_decision. Defined.

Definition parseEpochMaybeMillis (v : Z) (fallback : time.Time) : time.Time :=
  if v <=? 0 then fallback
  else if 1000000000000 <? v then time.UnixMilli v
  else time.Unix v.

(** The slice [in[i:j]], for [0 <= i <= j <= len(in)]. *)
Definition slice (in_ : list string) (i j : Z) : list string :=
  take (Z.to_nat (j - i)) (drop (Z.to_nat i) in_).

(** The consecutive pieces of [in_] from position [i] on, [size] elements
    each and what is left in the last; [n] bounds their number.  It is
    what the loops that cut a list in batches append while no sum
    overflows. *)
Fixpoint pieces (n : nat) (in_ : list string) (size i : Z) : list (list string) :=
  match n with
  | O => []
  | S n' =>
      if i <? Z.of_nat (length in_) then
        let j := i + size in
        let j := if Z.of_nat (length in_) <? j then Z.of_nat (length in_) else j in
        slice in_ i j :: pieces n' in_ size (i + size)
      else []
  end.

(** How [chunkStrings] ends: it returns the chunks, or it panics (in
    [make] on a negative capacity, or on a slice out of range), or its
    loop is still turning. *)
Inductive chunked :=
| Chunks (out : list (list string))
| Panics
| Turning.

(** The loop [for i := 0; i < len(in); i += size] of [chunkStrings]
    from [i] on, [out] being the chunks appended so far and [n] bounding
    the number of its turns.  The sums are those of [int]: they wrap. *)
Fixpoint chunksFrom (n : nat) (in_ : list string) (size i : Z)
    (out : list (list string)) : chunked :=
  match n with
  | O => Turning
  | S n' =>
      if i <? Z.of_nat (length in_) then
        let j := steamdt_dump.int64 (i + size) in
        let j := if Z.of_nat (length in_) <? j then Z.of_nat (length in_) else j in
        if (i <? 0) || (j <? i) then Panics
        else chunksFrom n' in_ size (steamdt_dump.int64 (i + size))
               (out ++ [slice in_ i j])
      else Chunks out
  end.

(** The capacity handed to [make]: [(len(in)+size-1)/size] in [int], the
    sum wrapping and the quotient truncated. *)
Definition capacity (in_ : list string) (size : Z) : Z :=
  Z.quot (steamdt_dump.int64 (Z.of_nat (length in_) + size - 1)) size.

(** [size] is an [int].  Two turns more than [len(in)] are all the loop
    can take: with [size > 0] a turn moves [i] forward, or wraps it below
    zero, and the next turn panics. *)
Definition chunkStrings (in_ : list string) (size : Z) : chunked :=
  if (size <=? 0) || (length in_ =? 0)%nat then Chunks [in_]
  else if capacity in_ size <? 0 then Panics
  else chunksFrom (S (S (length in_))) in_ size 0 [].

(** The provider key of a requested symbol, [keyByAgg[s]]. *)
Definition provKey (symbolMap : gmap string string) (s : string) : string :=
  let v := default "" (symbolMap !! s) in
  if negb (String.eqb v "") then v else s.

(** The loop over the symbols that fills [uniqKeys]: the keys in the
    order of their first occurrence. *)
Definition uniqKeys (symbolMap : gmap string string) (symbols : list string)
    : list string :=
  cache.unique ∅ (provKey symbolMap <$> symbols).

(** How the [select] of the goroutine of a batch ends: with a slot of the
    semaphore, or, under a context that is done, with [ctx.Done()]. *)
Inductive selected := Slot | Done.

(** The batches whose goroutine goes on to [doBatch], [i] being the index
    of the first of [bs]. *)
Fixpoint requested (select : nat → selected) (i : nat) (bs : list (list string))
    : list (list string) :=
  match bs with
  | [] => []
  | b :: bs' =>
      match select i with
      | Slot => b :: requested select (S i) bs'
      | Done => requested select (S i) bs'
      end
  end.

(** The calls of [doBatch] that [Fetch] makes, in the order of the
    batches: the one of the single request path, which no [select]
    guards, or those of the goroutines that got a slot.  [Fetch] panics
    where [chunkStrings] does. *)
Definition batches (cfg : Config) (select : nat → selected) (symbols : list string)
    : chunked :=
  let uniq := uniqKeys (SymbolMap cfg) symbols in
  let batchSize := MaxItemsPerRequest cfg in
  if (batchSize <=? 0) || (Z.of_nat (length uniq) <=? batchSize) then Chunks [uniq]
  else match chunkStrings uniq batchSize with
       | Chunks bs => Chunks (requested select 0 bs)
       | Panics => Panics
       | Turning => Turning
       end.

(** [sel == "" || sel == "0" || sel == "0.0"] *)
Definition noPrice (s : string) : bool :=
  String.eqb s "" || String.eqb s "0" || String.eqb s "0.0".

(** The comparison closure handed to [sort.Slice]. *)
Definition less (a b : candidate) : bool :=
  if String.eqb (platform a) (platform b) then time.Before (ts a) (ts b)
  else String.ltb (platform a) (platform b).

Definition notAfter (a b : candidate) : Prop := less b a = false.

#[export] Instance notAfter_dec a b : Decision (notAfter a b).
Proof. unfold notAfter. apply _. Defined.

Section WithUnicode.
Context {U : Unicode}.

Definition numToString (n : string) : string := TrimSpace n.

(** One turn of the loop over the listings: the candidate appended, if
    any. *)
Definition candidateOf (now : time.Time) (d : listing) : option candidate :=
  let sel := numToString (SellPrice d) in
  let bid := numToString (BiddingPrice d) in
  if noPrice sel && noPrice bid then None
  else Some {| platform := Platform d; sell := sel; bid := bid;
               ts := parseEpochMaybeMillis (UpdateTime d) now |}.

(** [range] stands for what the unstable [sort.Slice] does to the order
    of the candidates it cannot tell apart. *)
Definition collectCandidates (range : list candidate → list candidate)
    (list_ : list listing) (now : time.Time) : list candidate :=
  merge_sort notAfter (range (omap (candidateOf now) list_)).

(** The quotes of one candidate: the sell quote, and the bid quote when
    bids are included and there is a bid price. *)
Definition quotesOf (cfg : Config) (aggSym : string) (c : candidate)
    : list provider.Quote :=
  {| provider.Symbol := aggSym; provider.Price := sell c;
     provider.Currency := Currency cfg;
     provider.Source := Name cfg ++ ":" ++ platform c ++ ":sell";
     provider.ReceivedAt := ts c |}
  :: (if IncludeBids cfg && negb (noPrice (bid c)) then
        [ {| provider.Symbol := aggSym; provider.Price := bid c;
             provider.Currency := Currency cfg;
             provider.Source := Name cfg ++ ":" ++ platform c ++ ":bid";
             provider.ReceivedAt := ts c |} ]
      else []).

(** [Fetch] once the requests are over: [byMarketAll] is the table they
    filled, [firstErr] the error they left, [now] the clock. *)
Definition answer (range : list candidate → list candidate) (cfg : Config)
    (byMarketAll : gmap string entry) (firstErr : option error)
    (now : time.Time) (symbols : list string)
    : list provider.Quote * option error :=
  let out :=
    flat_map (fun aggSym =>
      match byMarketAll !! provKey (SymbolMap cfg) aggSym with
      | Some e => flat_map (quotesOf cfg aggSym) (collectCandidates range (DataList e) now)
      | None => []
      end) symbols in
  match out, firstErr with
  | [], Some err => ([], Some err)
  | _, _ => (out, None)
  end.

End WithUnicode.

End steamdt.

(** ** [internal/config] and the two commands: the list of symbols *)

Module config.

Section WithUnicode.
Context {U : Unicode}.

(** [splitCSV], the same in [internal/config], [cmd/server] and
    [cmd/fetch]. *)
Definition splitCSV (s : string) : list string :=
  filter (fun p => p ≠ "") (TrimSpace <$> GoStrings.Split s ",").

End WithUnicode.

End config.

(** ** [cmd/server]: the handlers of [/api/quotes] *)

Module server.

Definition error := string.

(** What a handler does with a request: it refuses it with status 400,
    or hands the symbols to [writeQuotes]. *)
Inductive handled :=
| BadRequest (msg : string)
| Quotes (symbols : list string).

(** What [writeQuotes] writes: status 502 with the errors, or status 200
    with the quotes. *)
Inductive written :=
| BadGateway (msg : string)
| OK (quotes : list provider.Quote).

Section WithUnicode.
Context {U : Unicode}.

(** [q] is the query parameter [symbols]. *)
Definition handleGetQuotes (q : string) : handled :=
  if String.eqb (TrimSpace q) "" then BadRequest "missing symbols query param"
  else
    let symbols := config.splitCSV q in
    if (1000 <? length symbols)%nat then BadRequest "too many symbols (max 1000)"
    else Quotes symbols.

End WithUnicode.

(** [decoded] is the body as the JSON decoder returns it: the field
    [symbols], or nothing when it returns an error. *)
Definition handlePostQuotes (decoded : option (list string)) : handled :=
  match decoded with
  | None => BadRequest "invalid JSON body"
  | Some symbols =>
      if (length symbols =? 0)%nat then BadRequest "symbols cannot be empty"
      else if (1000 <? length symbols)%nat then BadRequest "too many symbols (max 1000)"
      else Quotes symbols
  end.

(** One turn of the loop that receives from the channel. *)
Definition receive (acc : list provider.Quote * list string)
    (r : list provider.Quote * option error) : list provider.Quote * list string :=
  match r.2 with
  | Some err => (acc.1, (acc.2 ++ [err])%list)
  | None => ((acc.1 ++ r.1)%list, acc.2)
  end.

(** [results] are the answers of the providers in the order in which
    the channel delivers them. *)
Definition writeQuotes (results : list (list provider.Quote * option error)) : written :=
  let '(all, errs) := foldl receive ([], []) results in
  if (length all =? 0)%nat && (0 <? length errs)%nat
  then BadGateway (GoStrings.Join errs "; ")
  else OK all.

End server.

(** ** Binary64: what the proofs about [float64] speak of *)

Module binary64.

(** Zero of either sign, a positive number or plus infinity. *)
Definition SFnonneg (x : spec_float) : Prop :=
  match x with
  | S754_zero _ => True
  | S754_infinity s | S754_finite s _ _ => s = false
  | S754_nan => False
  end.

Definition SFpositive (x : spec_float) : Prop :=
  match x with
  | S754_infinity s | S754_finite s _ _ => s = false
  | _ => False
  end.

(** The second half of [binary_round_aux]: the rounded mantissa is
    shifted once more when the rounding carried into a new digit. *)
Definition finish (sx : bool) (m e : Z) : spec_float :=
  let '(mrs, e') := shr_fexp prec emax m e loc_Exact in
  match shr_m mrs with
  | Z0 => S754_zero sx
  | Zpos q => if e' <=? emax - prec then S754_finite sx q e' else S754_infinity sx
  | _ => S754_nan
  end.

(** The number one. *)
Definition SFone : spec_float := S754_finite false 4503599627370496 (-52).

(** A normal number that is [k] or more, or plus infinity: with 53
    digits and an exponent from -52 on, [m * 2 ^ e] is a multiple of
    [2 ^ -52], and so is [k]. *)
Definition atLeast (k : Z) (x : spec_float) : Prop :=
  match x with
  | S754_infinity false => True
  | S754_finite false m e =>
      Z.pos (digits2_pos m) = 53 ∧ -52 ≤ e ≤ 971 ∧
      k * 2 ^ 52 ≤ Z.pos m * 2 ^ (e + 52)
  | _ => False
  end.

End binary64.

(** ** The inputs of the scenarios *)

Module scenario.

(** The two quotes of the aggregator's test, at [T] and an hour later. *)
Definition scenarioP1 (T : time.Time) : provider.Quote :=
  {| provider.Symbol := "X"; provider.Price := "10"; provider.Currency := "USD";
     provider.Source := "P1:BUFF:sell"; provider.ReceivedAt := T |}.

Definition scenarioP2 (T : time.Time) : provider.Quote :=
  {| provider.Symbol := "X"; provider.Price := "11"; provider.Currency := "USD";
     provider.Source := "P2:buff"; provider.ReceivedAt := time.Add T time.Hour |}.

Definition scenarioRow (T : time.Time) : aggregate.Latest :=
  {| aggregate.Symbol := "X"; aggregate.Market := "BUFF"; aggregate.Side := "";
     aggregate.Currency := "USD"; aggregate.Price := "11";
     aggregate.Provider := "P2"; aggregate.ReceivedAt := time.Add T time.Hour |}.

(** Two quotes of one group at the same instant, and one in yuan. *)
Definition tieP1 : provider.Quote :=
  {| provider.Symbol := "X"; provider.Price := "10"; provider.Currency := "USD";
     provider.Source := "P1:BUFF"; provider.ReceivedAt := time.test_instant |}.

Definition tieP2 : provider.Quote :=
  {| provider.Symbol := "X"; provider.Price := "11"; provider.Currency := "USD";
     provider.Source := "P2:BUFF"; provider.ReceivedAt := time.test_instant |}.

Definition yuanP2 : provider.Quote :=
  {| provider.Symbol := "X"; provider.Price := "70"; provider.Currency := "CNY";
     provider.Source := "P2:BUFF";
     provider.ReceivedAt := time.Add time.test_instant time.Minute |}.

Definition quoteX : provider.Quote :=
  {| provider.Symbol := "X"; provider.Price := "10"; provider.Currency := "USD";
     provider.Source := "P1:BUFF:sell"; provider.ReceivedAt := time.test_instant |}.

(** A first call at the instant of the tests, the wrapped provider well. *)
Definition callWell : cache.call :=
  {| cache.now := time.test_instant;
     cache.P_Fetch := fun _ => ([quoteX], None);
     cache.evictNow := fun _ => time.test_instant;
     cache.rangeExpired := fun m => (map_to_list m).*1;
     cache.rangeAny := fun m => (map_to_list m).*1 |}.

(** A second call one second later, the wrapped provider down. *)
Definition callDown : cache.call :=
  {| cache.now := time.Add time.test_instant time.Second;
     cache.P_Fetch := fun _ => ([], Some "upstream down");
     cache.evictNow := fun _ => time.Add time.test_instant time.Second;
     cache.rangeExpired := fun m => (map_to_list m).*1;
     cache.rangeAny := fun m => (map_to_list m).*1 |}.

Definition warmed : cache.Provider :=
  (cache.Fetch (cache.literal time.Minute 0) callWell ["X"]).2.

(** An upstream that takes two names at most and echoes them. *)
Definition atMostTwo (names : list string) : steamdt_dump.response :=
  if (2 <? length names)%nat
  then steamdt_dump.Fail (steamdt_dump.httpStatusErr 413 "too large")
  else steamdt_dump.Data names.

(** An upstream that rejects the pair, serves "a" and is down for "b". *)
Definition downForB (names : list string) : steamdt_dump.response :=
  if decide (names = ["a"; "b"])
  then steamdt_dump.Fail (steamdt_dump.httpStatusErr 400 "bad request")
  else if decide (names = ["a"]) then steamdt_dump.Data ["entry of a"]
  else steamdt_dump.Fail (steamdt_dump.httpStatusErr 503 "unavailable").

(** An upstream that throttles every request. *)
Definition throttled (names : list string) : steamdt_dump.response :=
  steamdt_dump.Fail (steamdt_dump.httpStatusErr 429 "slow down").

(** A refresh of "BUFF.163" that took long: before its write took the
    lock, at the ninth second, another caller stored a payload good until
    the eighteenth. *)
Definition latePayload : skinstablexyz.siteCache string :=
  {| skinstablexyz.items := "late payload";
     skinstablexyz.until := 15 * time.Second |}.

Definition otherPayload : skinstablexyz.siteCache string :=
  {| skinstablexyz.items := "payload of the other caller";
     skinstablexyz.until := 18 * time.Second |}.

Definition slowRefresh : skinstablexyz.world string :=
  {| skinstablexyz.sfDo := fun _ => inl latePayload;
     skinstablexyz.meanwhile := fun site c => <[site := otherPayload]> c;
     skinstablexyz.commitClock := fun _ => 9 * time.Second |}.

Definition emptyState : skinstablexyz.refreshState string :=
  {| skinstablexyz.cache := ∅;
     skinstablexyz.anyValid := false;
     skinstablexyz.lastErr := None |}.

(** SteamDT with bids, and the answer for "X": a listing with a sell
    price, in milliseconds, and one with a bid price only, in seconds,
    both of the instant of the tests. *)
Definition steamCfg : steamdt.Config :=
  {| steamdt.Name := "SteamDT"; steamdt.Currency := "CNY"; steamdt.SymbolMap := ∅;
     steamdt.IncludeBids := true; steamdt.MaxItemsPerRequest := 2 |}.

Definition sellListing : steamdt.listing :=
  {| steamdt.Platform := "C5"; steamdt.SellPrice := " 101 "; steamdt.BiddingPrice := "";
     steamdt.UpdateTime := 1735787045000 |}.

Definition bidListing : steamdt.listing :=
  {| steamdt.Platform := "BUFF"; steamdt.SellPrice := "0"; steamdt.BiddingPrice := "95.5";
     steamdt.UpdateTime := 1735787045 |}.

Definition steamTable : gmap string steamdt.entry :=
  {[ "X" := {| steamdt.MarketHashName := "X";
               steamdt.DataList := [sellListing; bidListing] |} ]}.

(** SkinstableXYZ with two sites: the entry of "BUFF.163" expired at the
    third second and its refresh fails, "CS.MONEY" is refreshed. *)
Definition stableCfg : skinstablexyz.Config :=
  {| skinstablexyz.Name := "SkinstableXYZ"; skinstablexyz.URL := "https://skinstable.example";
     skinstablexyz.Currency := "USD"; skinstablexyz.Sites := ["BUFF.163"; "CS.MONEY"] |}.

Definition oldItems : gmap string skinstablexyz.item :=
  {[ "X" := {| skinstablexyz.P := Some 1.5%float; skinstablexyz.T := 0 |} ]}.

Definition newItems : gmap string skinstablexyz.item :=
  {[ "X" := {| skinstablexyz.P := Some 2%float; skinstablexyz.T := 1735787045 |} ]}.

Definition staleCache : gmap string (skinstablexyz.siteCache (gmap string skinstablexyz.item)) :=
  {[ "BUFF.163" := {| skinstablexyz.items := oldItems;
                       skinstablexyz.until := 3 * time.Second |} ]}.

Definition oneSiteDown : skinstablexyz.world (gmap string skinstablexyz.item) :=
  {| skinstablexyz.sfDo := fun site =>
       if String.eqb site "CS.MONEY"
       then inl {| skinstablexyz.items := newItems;
                   skinstablexyz.until := 25 * time.Second |}
       else inr "GET https://skinstable.example -> 502";
     skinstablexyz.meanwhile := fun _ c => c;
     skinstablexyz.commitClock := fun _ => 10 * time.Second |}.

(** Two tokens a second, a burst of three, made at the instant of the
    tests. *)
Definition bucket : ratelimit.TokenBucket :=
  ratelimit.NewTokenBucket 2%float 3 time.test_instant.

End scenario.

(** * Properties *)

(** ** The order of [sort.Slice] *)

Section Order.
Import aggregate.

Lemma ltb_compare (s t : string) : String.ltb s t = true ↔ String.compare s t = Lt.
Proof. unfold String.ltb. destruct (String.compare s t); split; congruence. Qed.

Lemma compare_Eq (s t : string) : String.compare s t = Eq ↔ s = t.
Proof. apply String_as_OT.cmp_eq. Qed.

Lemma compare_refl (s : string) : String.compare s s = Eq.
Proof. by apply compare_Eq. Qed.

Lemma compare_trans (s t u : string) :
  String.compare s t = Lt → String.compare t u = Lt → String.compare s u = Lt.
Proof.
  intros H1 H2. apply String_as_OT.cmp_lt.
  eapply String_as_OT.lt_trans; by apply String_as_OT.cmp_lt.
Qed.

Lemma compare_flip (s t : string) : String.compare s t = Gt ↔ String.compare t s = Lt.
Proof.
  rewrite (String.compare_antisym t s).
  destruct (String.compare s t); simpl; split; congruence.
Qed.

Lemma less_lex (a b : Latest) : less a b = true ↔ lex a b = Lt.
Proof.
  unfold less, lex, String.ltb.
  destruct (String.eqb_spec (Symbol a) (Symbol b)) as [->|Hs]; simpl.
  - rewrite compare_refl.
    destruct (String.eqb_spec (Market a) (Market b)) as [->|Hm]; simpl.
    + rewrite compare_refl.
      destruct (String.eqb_spec (Side a) (Side b)) as [->|Hd]; simpl.
      * rewrite compare_refl. split; congruence.
      * destruct (String.compare (Side a) (Side b)); split; congruence.
    + destruct (String.compare (Market a) (Market b)) eqn:E; try (split; congruence).
      by apply compare_Eq in E.
  - destruct (String.compare (Symbol a) (Symbol b)) eqn:E; try (split; congruence).
    by apply compare_Eq in E.
Qed.

Lemma notAfter_lex (a b : Latest) : notAfter a b ↔ lex a b ≠ Gt.
Proof.
  unfold notAfter. rewrite <- not_true_iff_false, less_lex. unfold lex.
  rewrite (String.compare_antisym (Symbol a) (Symbol b)),
          (String.compare_antisym (Market a) (Market b)),
          (String.compare_antisym (Side a) (Side b)).
  destruct (String.compare (Symbol b) (Symbol a)),
           (String.compare (Market b) (Market a)),
           (String.compare (Side b) (Side a)); simpl; split; congruence.
Qed.

Lemma lex_Eq (a b : Latest) :
  lex a b = Eq ↔ Symbol a = Symbol b ∧ Market a = Market b ∧ Side a = Side b.
Proof.
  unfold lex. split.
  - destruct (String.compare (Symbol a) (Symbol b)) eqn:E1; try discriminate.
    destruct (String.compare (Market a) (Market b)) eqn:E2; try discriminate.
    intros E3. by rewrite compare_Eq in E1, E2, E3.
  - intros (-> & -> & ->). by rewrite !compare_refl.
Qed.

(** Ltac for the case analyses on three-way comparisons of strings. *)
Ltac order_strings :=
  repeat match goal with
         | H : String.compare _ _ = Eq |- _ => apply compare_Eq in H; subst
         | H : String.compare _ _ = Gt |- _ => apply compare_flip in H
         end;
  repeat match goal with
         | H1 : String.compare ?s ?t = Lt, H2 : String.compare ?t ?u = Lt |- _ =>
             lazymatch goal with
             | _ : String.compare s u = Lt |- _ => fail
             | _ => pose proof (compare_trans _ _ _ H1 H2)
             end
         end;
  repeat match goal with
         | H : String.compare ?s ?s = Lt |- _ => rewrite compare_refl in H; discriminate
         end.

Lemma lex_trans (a b c : Latest) : lex a b ≠ Gt → lex b c ≠ Gt → lex a c ≠ Gt.
Proof.
  unfold lex. destruct a as [a1 a2 a3 ? ? ? ?], b as [b1 b2 b3 ? ? ? ?], c as [c1 c2 c3 ? ? ? ?]; simpl.
  destruct (String.compare a1 b1) eqn:E1; try congruence;
  destruct (String.compare b1 c1) eqn:E2; try congruence;
  destruct (String.compare a1 c1) eqn:E3; try congruence;
  order_strings; try (rewrite ?compare_refl in *; congruence);
  destruct (String.compare a2 b2) eqn:E4; try congruence;
  destruct (String.compare b2 c2) eqn:E5; try congruence;
  destruct (String.compare a2 c2) eqn:E6; try congruence;
  order_strings; try (rewrite ?compare_refl in *; congruence);
  destruct (String.compare a3 b3) eqn:E7; try congruence;
  destruct (String.compare b3 c3) eqn:E8; try congruence;
  destruct (String.compare a3 c3) eqn:E9; try congruence;
  order_strings; rewrite ?compare_refl in *; congruence.
Qed.

#[global] Instance notAfter_trans : Transitive notAfter.
Proof. intros a b c. rewrite !notAfter_lex. apply lex_trans. Qed.

#[global] Instance notAfter_total : Total notAfter.
Proof.
  intros a b. rewrite !notAfter_lex.
  destruct (lex a b) eqn:E; [left | left | right]; try congruence.
  apply notAfter_lex. unfold notAfter.
  apply not_true_iff_false. rewrite less_lex. congruence.
Qed.

Lemma notAfter_antisym (a b : Latest) :
  notAfter a b → notAfter b a →
  Symbol a = Symbol b ∧ Market a = Market b ∧ Side a = Side b.
Proof.
  intros Hab Hba. apply lex_Eq.
  apply notAfter_lex in Hab. unfold notAfter in Hba.
  apply not_true_iff_false in Hba. rewrite less_lex in Hba.
  destruct (lex a b); congruence.
Qed.

Lemma sortSlice_perm (l : list Latest) : sortSlice l ≡ₚ l.
Proof. apply merge_sort_Permutation. Qed.

Lemma sortSlice_sorted (l : list Latest) : Sorted notAfter (sortSlice l).
Proof. apply (Sorted_merge_sort notAfter). Qed.

End Order.

(** ** The table of the aggregator *)

Section Collapse.
Import aggregate.
Context {U : Unicode}.
Variables (now : time.Time) (includeSides : bool).

Local Abbreviation key := (keyOf includeSides).
Local Abbreviation row := (rowOf now includeSides).
Local Abbreviation ts := (effectiveTime now).

Local Abbreviation winner := (winner now includeSides).
Local Abbreviation tabulated := (tabulated now includeSides).

Lemma ReceivedAt_rowOf (q : provider.Quote) : ReceivedAt (row q) = ts q.
Proof. reflexivity. Qed.

Lemma winner_unique quotes i i' q q' :
  winner quotes i q → winner quotes i' q' → key q = key q' → i = i'.
Proof.
  intros (Hi & Hmax & Hlater) (Hi' & Hmax' & Hlater') Hk.
  destruct (Nat.lt_trichotomy i i') as [Hlt|[->|Hlt]]; [|done|].
  - pose proof (Hlater _ _ Hi' (eq_sym Hk) Hlt).
    pose proof (Hmax' _ _ Hi Hk). lia.
  - pose proof (Hlater' _ _ Hi Hk Hlt).
    pose proof (Hmax _ _ Hi' (eq_sym Hk)). lia.
Qed.

Lemma winner_snoc_old quotes q0 i q :
  winner quotes i q → (key q0 = key q → ts q0 < ts q) → winner (quotes ++ [q0]) i q.
Proof.
  intros (Hi & Hmax & Hlater) Hq0.
  assert (i < length quotes)%nat by by eapply lookup_lt_Some.
  split; [by rewrite lookup_app_l|]. split.
  - intros j q' Hj Hk. apply lookup_app_Some in Hj as [Hj|[? Hj]]; [by eauto|].
    apply list_lookup_singleton_Some in Hj as [_ <-]. specialize (Hq0 Hk). lia.
  - intros j q' Hj Hk Hij. apply lookup_app_Some in Hj as [Hj|[? Hj]]; [by eauto|].
    apply list_lookup_singleton_Some in Hj as [_ <-]. by apply Hq0.
Qed.

Lemma winner_snoc_new quotes q0 :
  (∀ j q', quotes !! j = Some q' → key q' = key q0 → ts q' ≤ ts q0) →
  winner (quotes ++ [q0]) (length quotes) q0.
Proof.
  intros Hmax. split; [by rewrite lookup_app_r, Nat.sub_diag|]. split.
  - intros j q' Hj Hk. apply lookup_app_Some in Hj as [Hj|[? Hj]]; [by eauto|].
    apply list_lookup_singleton_Some in Hj as [_ <-]. lia.
  - intros j q' Hj Hk Hij. apply lookup_lt_Some in Hj.
    rewrite length_app in Hj. simpl in Hj. lia.
Qed.

Lemma tabulated_step quotes latest q0 :
  tabulated quotes latest → tabulated (quotes ++ [q0]) (step now includeSides latest q0).
Proof.
  intros Htab k. unfold step.
  pose proof (Htab (key q0)) as H0.
  destruct (latest !! key q0) as [cur|] eqn:Ecur.
  - destruct H0 as (i & q & Hw & Hk & ->). rewrite ReceivedAt_rowOf.
    unfold time.After, time.Equal.
    destruct (ts q <? ts q0) eqn:E1; [|destruct (ts q0 =? ts q) eqn:E2]; simpl.
    + (* strictly later: the new quote takes the row *)
      destruct (decide (key q0 = k)) as [<-|Hne].
      * rewrite lookup_insert_eq. exists (length quotes), q0. split; [|done].
        apply winner_snoc_new. intros j q' Hj Hk'.
        destruct Hw as (_ & Hmax & _). rewrite <- Hk in Hk'.
        pose proof (Hmax _ _ Hj Hk'). lia.
      * rewrite lookup_insert_ne by done. specialize (Htab k).
        destruct (latest !! k) as [r|].
        -- destruct Htab as (i' & q' & Hw' & Hk' & ->). exists i', q'.
           split; [|done]. apply winner_snoc_old; [done|]. congruence.
        -- intros q' [Hq'|Hq']%elem_of_app; [by eauto|].
           apply list_elem_of_singleton in Hq'. by subst.
    + (* a tie: the later input takes the row *)
      destruct (decide (key q0 = k)) as [<-|Hne].
      * rewrite lookup_insert_eq. exists (length quotes), q0. split; [|done].
        apply winner_snoc_new. intros j q' Hj Hk'.
        destruct Hw as (_ & Hmax & _). rewrite <- Hk in Hk'.
        pose proof (Hmax _ _ Hj Hk'). lia.
      * rewrite lookup_insert_ne by done. specialize (Htab k).
        destruct (latest !! k) as [r|].
        -- destruct Htab as (i' & q' & Hw' & Hk' & ->). exists i', q'.
           split; [|done]. apply winner_snoc_old; [done|]. congruence.
        -- intros q' [Hq'|Hq']%elem_of_app; [by eauto|].
           apply list_elem_of_singleton in Hq'. by subst.
    + (* strictly earlier: the row stays *)
      specialize (Htab k). destruct (latest !! k) as [r|] eqn:Ek.
      * destruct Htab as (i' & q' & Hw' & Hk' & ->). exists i', q'.
        split; [|done]. apply winner_snoc_old; [done|]. intros Hk0.
        assert (i' = i) as ->.
        { eapply winner_unique; [done..|]. congruence. }
        destruct Hw as (Hi & _), Hw' as (Hi' & _). simplify_eq. lia.
      * intros q' [Hq'|Hq']%elem_of_app; [by eauto|].
        apply list_elem_of_singleton in Hq'. subst. congruence.
  - destruct (decide (key q0 = k)) as [<-|Hne].
    + rewrite lookup_insert_eq. exists (length quotes), q0. split; [|done].
      apply winner_snoc_new. intros j q' Hj Hk'.
      exfalso. eapply H0; [|done]. by eapply list_elem_of_lookup_2.
    + rewrite lookup_insert_ne by done. specialize (Htab k).
      destruct (latest !! k) as [r|].
      * destruct Htab as (i' & q' & Hw' & Hk' & ->). exists i', q'.
        split; [|done]. apply winner_snoc_old; [done|]. congruence.
      * intros q' [Hq'|Hq']%elem_of_app; [by eauto|].
        apply list_elem_of_singleton in Hq'. by subst.
Qed.

Lemma tabulated_collapse quotes : tabulated quotes (collapse now includeSides quotes).
Proof.
  unfold collapse. induction quotes as [|q0 quotes IH] using rev_ind.
  - intros k. simpl. rewrite lookup_empty. by intros q ?%elem_of_nil.
  - rewrite foldl_app. simpl. by apply tabulated_step.
Qed.

Lemma collapse_Some quotes k r :
  collapse now includeSides quotes !! k = Some r ↔
  ∃ i q, winner quotes i q ∧ key q = k ∧ r = row q.
Proof.
  pose proof (tabulated_collapse quotes) as Htab. split.
  - intros Hk. specialize (Htab k). by rewrite Hk in Htab.
  - intros (i & q & Hw & <- & ->). specialize (Htab (key q)).
    destruct (collapse now includeSides quotes !! key q) as [r|].
    + destruct Htab as (i' & q' & Hw' & Hk' & ->).
      assert (i' = i) as -> by by eapply winner_unique.
      destruct Hw as (Hi & _), Hw' as (Hi' & _). by simplify_eq.
    + exfalso. destruct Hw as (Hi & _). eapply Htab; [|done].
      by eapply list_elem_of_lookup_2.
Qed.

Lemma elem_of_values (latest : gmap MarketKey Latest) r :
  r ∈ values latest ↔ ∃ k, latest !! k = Some r.
Proof.
  unfold values. rewrite list_elem_of_fmap. split.
  - intros ([k r'] & -> & Hin). exists k. by apply elem_of_map_to_list.
  - intros (k & Hk). exists (k, r). split; [done|]. by apply elem_of_map_to_list.
Qed.

Lemma elem_of_LatestByMarket range quotes r :
  rangeOrder range →
  r ∈ LatestByMarket range now quotes includeSides ↔
  ∃ k, collapse now includeSides quotes !! k = Some r.
Proof.
  intros Hrange. unfold LatestByMarket.
  by rewrite sortSlice_perm, (Hrange _), elem_of_values.
Qed.

End Collapse.

(** ** The aggregator: scenario, conflict resolution, input order *)

Section Aggregator.
Import aggregate.

Lemma rowKey_rowOf {U : Unicode} now includeSides q :
  rowKey (rowOf now includeSides q) = keyOf includeSides q.
Proof. reflexivity. Qed.

Lemma collapse_rowKey {U : Unicode} now includeSides quotes k r :
  collapse now includeSides quotes !! k = Some r → rowKey r = k.
Proof. intros (i & q & _ & <- & ->)%collapse_Some. apply rowKey_rowOf. Qed.




(** *** Conflict resolution within a group *)



End Aggregator.

(** ** The aggregator on the scenario of the tests *)

Section Scenario.
Import aggregate scenario.
#[local] Existing Instance GoStrings.ascii_text.

Lemma sortSlice_singleton (r : Latest) : sortSlice [r] = [r].
Proof. reflexivity. Qed.

Lemma rangeOrder_singleton range (r : Latest) : rangeOrder range → range [r] = [r].
Proof. intros Hrange. apply Permutation_singleton_r. by rewrite (Hrange _). Qed.

(** C1. The two quotes of the scenario, P1 on "BUFF" with side "sell" at
    [T] and P2 on "buff" at [T] plus one hour, both times set (not the
    zero time), with the sides ignored, give exactly one row: symbol "X",
    market "BUFF", side "", currency "USD", price "11", received at [T]
    plus one hour; and this in whatever order the runtime ranges over the
    table. *)
Theorem scenario_sides_ignored range (now T : time.Time) :
  rangeOrder range →
  time.IsZero T = false →
  time.IsZero (time.Add T time.Hour) = false →
  LatestByMarket (U := GoStrings.ascii_text) range now
    [scenarioP1 T; scenarioP2 T] false = [scenarioRow T].
Proof.
  intros Hrange HT HT1. unfold LatestByMarket.
  assert (collapse (U := GoStrings.ascii_text) now false [scenarioP1 T; scenarioP2 T]
          = {[ rowKey (scenarioRow T) := scenarioRow T ]}) as ->.
  { unfold collapse. simpl. unfold step at 2.
    rewrite lookup_empty.
    change (keyOf false (scenarioP1 T)) with (rowKey (scenarioRow T)).
    unfold step.
    change (keyOf false (scenarioP2 T)) with (rowKey (scenarioRow T)).
    rewrite lookup_insert_eq.
    replace (rowOf now false (scenarioP2 T)) with (scenarioRow T)
      by (unfold rowOf, effectiveTime, scenarioP2; simpl; by rewrite HT1).
    replace (effectiveTime now (scenarioP2 T)) with (time.Add T time.Hour)
      by (unfold effectiveTime, scenarioP2; simpl; by rewrite HT1).
    replace (ReceivedAt (rowOf now false (scenarioP1 T))) with T
      by (unfold rowOf, effectiveTime, scenarioP1; simpl; by rewrite HT).
    replace (time.After (time.Add T time.Hour) T) with true
      by (symmetry; apply Z.ltb_lt; unfold time.Add, time.Hour, time.Second; lia).
    simpl. by rewrite insert_insert_eq, insert_empty. }
  unfold values. rewrite map_to_list_singleton. simpl.
  by rewrite rangeOrder_singleton, sortSlice_singleton.
Qed.

Lemma scenario_sides_ignored_at_test_instant :
  LatestByMarket (U := GoStrings.ascii_text) id 0
    [scenarioP1 time.test_instant; scenarioP2 time.test_instant] false
  = [scenarioRow time.test_instant].
Proof. apply scenario_sides_ignored; [by intros l|reflexivity|reflexivity]. Defined.


(** The same two quotes computed: the row is the one of P2, the later of
    the tie. *)
Example zero_time_ties_with_now :
  LatestByMarket (U := GoStrings.ascii_text) id (time.Add time.test_instant time.Hour)
    [scenarioP1 time.zero; scenarioP2 time.test_instant] false
  = [scenarioRow time.test_instant].
Proof. by vm_compute. Qed.

(** A quote with the zero time that comes after a set one wins with the
    processing time, and the row bears that time. *)
Example zero_time_wins_as_now :
  LatestByMarket (U := GoStrings.ascii_text) id (time.Add time.test_instant time.Hour)
    [scenarioP2 (time.Sub time.test_instant time.Hour); scenarioP1 time.zero] false
  = [{| Symbol := "X"; Market := "BUFF"; Side := ""; Currency := "USD";
        Price := "10"; Provider := "P1";
        ReceivedAt := time.Add time.test_instant time.Hour |}].
Proof. by vm_compute. Qed.

End Scenario.

(** ** The aggregator and the order of its input *)

Section InputOrder.
Import aggregate.
Context {U : Unicode}.
Variables (now : time.Time) (includeSides : bool).

Local Abbreviation noTies := (noTies includeSides).
Local Abbreviation oneCurrency := (oneCurrency includeSides).

Lemma effectiveTime_set quotes q :
  allSet quotes → q ∈ quotes → effectiveTime now q = provider.ReceivedAt q.
Proof.
  intros Hset Hq. unfold effectiveTime.
  by rewrite (proj1 (Forall_forall _ _) Hset q Hq).
Qed.

Lemma winner_latest quotes i q :
  winner now includeSides quotes i q →
  q ∈ quotes ∧
  ∀ q', q' ∈ quotes → keyOf includeSides q' = keyOf includeSides q →
        effectiveTime now q' ≤ effectiveTime now q.
Proof.
  intros (Hi & Hmax & _). split; [by eapply list_elem_of_lookup_2|].
  intros q' (j & Hj)%list_elem_of_lookup_1. by eapply Hmax.
Qed.

Lemma collapse_Permutation quotes quotes' :
  allSet quotes → noTies quotes → quotes ≡ₚ quotes' →
  collapse now includeSides quotes = collapse now includeSides quotes'.
Proof.
  intros Hset Hties Hperm. apply map_eq. intros k.
  pose proof (tabulated_collapse now includeSides quotes k) as H1.
  pose proof (tabulated_collapse now includeSides quotes' k) as H2.
  destruct (collapse now includeSides quotes !! k) as [r|],
           (collapse now includeSides quotes' !! k) as [r'|]; [| | |done].
  - destruct H1 as (i & q & [Hq Hmax]%winner_latest & Hk & ->).
    destruct H2 as (i' & q' & [Hq' Hmax']%winner_latest & Hk' & ->).
    rewrite <- Hperm in Hq'.
    assert (effectiveTime now q' ≤ effectiveTime now q) by (apply Hmax; congruence).
    assert (effectiveTime now q ≤ effectiveTime now q').
    { apply Hmax'; [by rewrite <- Hperm|congruence]. }
    f_equal. f_equal. apply Hties; [done..|congruence|].
    rewrite <- !(effectiveTime_set quotes) by done. lia.
  - destruct H1 as (i & q & [Hq _]%winner_latest & Hk & _).
    exfalso. eapply H2; [|done]. by rewrite <- Hperm.
  - destruct H2 as (i & q & [Hq _]%winner_latest & Hk & _).
    exfalso. eapply H1; [|done]. by rewrite Hperm.
Qed.

Lemma rows_told_apart quotes r r' :
  oneCurrency quotes →
  r ∈ values (collapse now includeSides quotes) →
  r' ∈ values (collapse now includeSides quotes) →
  notAfter r r' → notAfter r' r → r = r'.
Proof.
  intros Hcur (k & Hk)%elem_of_values (k' & Hk')%elem_of_values Hrr' Hr'r.
  destruct (notAfter_antisym _ _ Hrr' Hr'r) as (Hs & Hm & Hd).
  pose proof Hk as (i & q & [Hq _]%winner_latest & <- & ->)%collapse_Some.
  pose proof Hk' as (i' & q' & [Hq' _]%winner_latest & <- & ->)%collapse_Some.
  assert (keyOf includeSides q = keyOf includeSides q') as Hkk.
  { pose proof (Hcur q q' Hq Hq' Hs Hm Hd) as Hc.
    unfold keyOf in *. simpl in *. by f_equal. }
  rewrite Hkk in Hk. congruence.
Qed.

End InputOrder.

Section InputOrderClaim.
Import aggregate.

(** C2, amended.  For quotes whose timestamps are all set, among which no
    two different quotes of one group carry the same timestamp and groups
    alike in symbol, market and side are alike in currency, the aggregator
    returns the same slice (same rows, same order) for the list and for
    any permutation of it, whatever the orders in which the runtime ranges
    over the table in the two runs. *)
Theorem LatestByMarket_Permutation {U : Unicode} range range' now quotes quotes'
    includeSides :
  rangeOrder range → rangeOrder range' →
  allSet quotes → noTies includeSides quotes → oneCurrency includeSides quotes →
  quotes ≡ₚ quotes' →
  LatestByMarket range now quotes includeSides
  = LatestByMarket range' now quotes' includeSides.
Proof.
  intros Hrange Hrange' Hset Hties Hcur Hperm. unfold LatestByMarket.
  rewrite <- (collapse_Permutation now includeSides quotes quotes') by done.
  apply (Sorted_unique_strong notAfter); [|apply sortSlice_sorted..|].
  - intros r r'. rewrite !sortSlice_perm, (Hrange _), (Hrange' _).
    by apply rows_told_apart.
  - by rewrite !sortSlice_perm, (Hrange _), (Hrange' _).
Qed.

End InputOrderClaim.

Section InputOrderScenario.
Import aggregate scenario.
#[local] Existing Instance GoStrings.ascii_text.

Example tie_then_P2 :
  Price <$> LatestByMarket id 0 [tieP1; tieP2] false = ["11"].
Proof. reflexivity. Qed.

Example tie_then_P1 :
  Price <$> LatestByMarket id 0 [tieP2; tieP1] false = ["10"].
Proof. reflexivity. Qed.

(** C2 as stated fails: two quotes of one group with the same set
    timestamp, given in the two possible orders, yield different rows,
    since on a tie the later input wins. *)
Lemma ties_follow_input_order :
  ∃ (range : list Latest → list Latest) (now : time.Time)
    (quotes quotes' : list provider.Quote) (includeSides : bool),
    rangeOrder range ∧ allSet quotes ∧ quotes ≡ₚ quotes' ∧
    LatestByMarket range now quotes includeSides
    ≠ LatestByMarket range now quotes' includeSides.
Proof.
  exists id, 0, [tieP1; tieP2], [tieP2; tieP1], false. split_and!.
  - by intros l.
  - by repeat constructor.
  - apply Permutation_swap.
  - intros H. apply (f_equal (fmap Price)) in H.
    rewrite tie_then_P2, tie_then_P1 in H. discriminate H.
Qed.

(** Rows that differ in the currency only are equal for [less]: their
    order is the order in which the runtime ranges over the table. *)
Example currencies_in_range_order :
  Currency <$> LatestByMarket id 0 [tieP1; yuanP2] false
  ≠ Currency <$> LatestByMarket reverse 0 [tieP1; yuanP2] false.
Proof. vm_compute. discriminate. Qed.

Lemma LatestByMarket_Permutation_witness :
  LatestByMarket id 0 [scenarioP1 time.test_instant; scenarioP2 time.test_instant] true
  = LatestByMarket reverse 0
      [scenarioP2 time.test_instant; scenarioP1 time.test_instant] true.
Proof.
  apply LatestByMarket_Permutation.
  - by intros l.
  - intros l. apply reverse_Permutation.
  - by repeat constructor.
  - intros q q' Hq Hq' _ Ht.
    apply elem_of_cons in Hq as [->|Hq]; [|apply list_elem_of_singleton in Hq as ->];
    (apply elem_of_cons in Hq' as [->|Hq']; [|apply list_elem_of_singleton in Hq' as ->]);
    try reflexivity; vm_compute in Ht; discriminate Ht.
  - intros q q' Hq Hq' _ _ _.
    apply elem_of_cons in Hq as [->|Hq]; [|apply list_elem_of_singleton in Hq as ->];
    (apply elem_of_cons in Hq' as [->|Hq']; [|apply list_elem_of_singleton in Hq' as ->]);
    reflexivity.
  - apply Permutation_swap.
Defined.

End InputOrderScenario.

(** ** Sides are passed through *)

Section Sides.
Import aggregate.

Lemma Split_nonempty s sep : GoStrings.Split s sep ≠ [].
Proof.
  destruct s as [|c s]; simpl; [done|].
  destruct (Ascii.eqb c sep); [done|]. by destruct (GoStrings.Split s sep).
Qed.

(** C10, amended.  When the tag, trimmed, has at least three parts between
    colons and its first part, trimmed and lower-cased, is none of
    "steamdt", "pricempire" and "skinstablexyz", the side is the third
    part, trimmed and lower-cased, whatever it says; with the sides kept
    it goes into the key of the quote as it is. *)
Theorem side_passes_through {U : Unicode} (src : string) :
  let parts := GoStrings.Split (TrimSpace src) ":" in
  (3 ≤ length parts)%nat →
  ToLower (TrimSpace (part parts 0)) ≠ "steamdt" →
  ToLower (TrimSpace (part parts 0)) ≠ "pricempire" →
  ToLower (TrimSpace (part parts 0)) ≠ "skinstablexyz" →
  (NormalizeSource src).2 = ToLower (TrimSpace (part parts 2)) ∧
  ∀ q, provider.Source q = src →
       key_Side (keyOf true q) = ToLower (TrimSpace (part parts 2)).
Proof.
  intros parts Hlen H1 H2 H3.
  assert ((NormalizeSource src).2 = ToLower (TrimSpace (part parts 2))) as Hside.
  { unfold NormalizeSource. fold parts.
    destruct (String.eqb_spec (TrimSpace src) "") as [E|_].
    { exfalso. unfold parts in Hlen. rewrite E in Hlen. simpl in Hlen. lia. }
    destruct (Nat.eqb_spec (length parts) 0) as [E|_]; [lia|].
    apply String.eqb_neq in H1, H2, H3. rewrite H1, H2, H3. simpl.
    reflexivity. }
  split; [done|]. intros q <-. unfold keyOf, sideOf. simpl. done.
Qed.

End Sides.

Section SidesScenario.
Import aggregate scenario.
#[local] Existing Instance GoStrings.ascii_text.

Lemma side_passes_through_witness :
  (NormalizeSource "P1:BUFF: Maybe ").2 = "maybe" ∧
  ∀ q, provider.Source q = "P1:BUFF: Maybe " → key_Side (keyOf true q) = "maybe".
Proof.
  refine (side_passes_through "P1:BUFF: Maybe " _ _ _ _);
    [simpl; lia|discriminate..].
Defined.

Example first_part_with_space :
  GoStrings.Split "pricempire :BUFF:sell" ":" = ["pricempire "; "BUFF"; "sell"] ∧
  NormalizeSource "pricempire :BUFF:sell" = ("BUFF", "").
Proof. split; reflexivity. Qed.

(** C10 as stated fails: the first part "pricempire " with its space is
    not "pricempire" in any case, yet the code trims it before it looks,
    takes the tag for one of Pricempire and drops the third part. *)
Lemma side_dropped_for_spaced_prefix :
  ∃ src : string,
    let parts := GoStrings.Split src ":" in
    (3 ≤ length parts)%nat ∧
    ToLower (part parts 0) ≠ "steamdt" ∧
    ToLower (part parts 0) ≠ "pricempire" ∧
    ToLower (part parts 0) ≠ "skinstablexyz" ∧
    (NormalizeSource src).2 ≠ ToLower (TrimSpace (part parts 2)).
Proof.
  exists "pricempire :BUFF:sell". simpl. split_and!; [lia|discriminate..].
Qed.

End SidesScenario.

(** ** The TTL cache decorator *)

Section Cache.
Import cache.

Lemma index_nonempty freshQuotes s qs : index freshQuotes !! s = Some qs → qs ≠ [].
Proof.
  unfold index. revert s qs.
  induction freshQuotes as [|q l IH] using rev_ind; intros s qs; simpl.
  - by rewrite lookup_empty.
  - rewrite foldl_app. simpl.
    destruct (decide (provider.Symbol q = s)) as [<-|Hne].
    + rewrite lookup_insert_eq. intros [= <-]. by intros [_ ?]%app_eq_nil.
    + rewrite lookup_insert_ne by done. apply IH.
Qed.

Lemma evictExpired_lookup clock i cap ks m s e :
  evictExpired clock i cap ks m !! s = Some e → m !! s = Some e.
Proof.
  revert i m. induction ks as [|k ks IH]; intros i m; simpl; [done|].
  set (m1 := match m !! k with
             | Some v => if time.After (clock i) (expiresAt v) then delete k m else m
             | None => m
             end).
  assert (m1 !! s = Some e → m !! s = Some e) as Hm1.
  { unfold m1. destruct (m !! k) as [v|]; [|done].
    destruct (time.After (clock i) (expiresAt v)); [|done].
    by intros [_ ?]%lookup_delete_Some. }
  destruct (Z.of_nat (size m1) <=? cap); [done|].
  intros H. by apply Hm1, (IH (S i)).
Qed.

Lemma evictAny_lookup cap ks m s e :
  evictAny cap ks m !! s = Some e → m !! s = Some e.
Proof.
  revert m. induction ks as [|k ks IH]; intros m; simpl; [done|].
  destruct (Z.of_nat (size m) <=? cap); [done|].
  by intros [_ ?]%IH%lookup_delete_Some.
Qed.

Lemma store_lookup c env bySymbol s e :
  store c env bySymbol !! s = Some e →
  (∃ qs, bySymbol !! s = Some qs ∧ quotes e = qs) ∨ items c !! s = Some e.
Proof.
  unfold store.
  set (m := _ ∪ items c).
  assert (m !! s = Some e →
          (∃ qs, bySymbol !! s = Some qs ∧ quotes e = qs) ∨ items c !! s = Some e) as Hm.
  { unfold m. intros [H|[_ H]]%lookup_union_Some_raw; [left|by right].
    rewrite lookup_fmap in H. destruct (bySymbol !! s) as [qs|]; [|done].
    injection H as <-. by exists qs. }
  destruct (_ && _); [|exact Hm].
  intros H%evictAny_lookup%evictExpired_lookup. by apply Hm.
Qed.

Lemma stocked_Fetch c env symbols : stocked c → stocked (Fetch c env symbols).2.
Proof.
  intros [Hoff Hfull]. unfold Fetch.
  destruct (Z.leb_spec (TTL c) 0) as [Hle|Hgt]; [done|].
  destruct (missingSet _ _ _) as [|s0 l0]; [done|].
  destruct (P_Fetch _ _) as [freshQuotes [err|]].
  { by destruct (_ <? _)%nat. }
  split; simpl; [lia|].
  intros s e [(qs & Hqs & ->)|He]%store_lookup; [|by eauto].
  by eapply index_nonempty.
Qed.

Lemma reachable_stocked c : reachable c → stocked c.
Proof.
  induction 1 as [ttl maxItems|c env symbols _ IH].
  - split; [done|]. intros s e. simpl. by rewrite lookup_empty.
  - by apply stocked_Fetch.
Qed.

Lemma cachedQuotes_nil now m symbols :
  (∀ s, s ∈ symbols → fresh now m s = false) → cachedQuotes now m symbols = [].
Proof.
  unfold cachedQuotes, fresh. induction symbols as [|s l IH]; intros Hall; [done|].
  simpl. rewrite IH by (intros s' ?; apply Hall; by right).
  specialize (Hall s (list_elem_of_here _ _)).
  destruct (m !! s) as [e|]; [|done]. by rewrite Hall.
Qed.

Lemma cachedQuotes_fresh now m symbols s :
  (∀ s e, m !! s = Some e → quotes e ≠ []) →
  s ∈ symbols → fresh now m s = true → cachedQuotes now m symbols ≠ [].
Proof.
  intros Hfull Hs Hfresh. unfold cachedQuotes, fresh in *.
  induction symbols as [|s' l IH]; [by apply elem_of_nil in Hs|].
  simpl. intros [H1 H2]%app_eq_nil.
  apply elem_of_cons in Hs as [<-|Hs]; [|by apply IH].
  destruct (m !! s) as [e|] eqn:E; [|done].
  rewrite Hfresh in H1. by eapply Hfull.
Qed.

(** C4. In every state the decorator reaches, when [Fetch] calls the
    wrapped provider and gets an error back: if a requested symbol has an
    entry that has not expired, [Fetch] returns the cached quotes of the
    request, which are some, and no error; if none has, it returns the
    error of the wrapped provider.  The cache is as before either way. *)
Theorem Fetch_degrades c env symbols req err :
  reachable c →
  upstreamCall c (now env) symbols = Some req →
  (P_Fetch env req).2 = Some err →
  ((∃ s, s ∈ symbols ∧ fresh (now env) (items c) s = true) →
     Fetch c env symbols = ((cachedQuotes (now env) (items c) symbols, None), c) ∧
     cachedQuotes (now env) (items c) symbols ≠ []) ∧
  ((∀ s, s ∈ symbols → fresh (now env) (items c) s = false) →
     (Fetch c env symbols).1.2 = Some err ∧ (Fetch c env symbols).2 = c).
Proof.
  intros [Hoff Hfull]%reachable_stocked Hcall Herr.
  unfold upstreamCall, Fetch in *.
  destruct (Z.leb_spec (TTL c) 0) as [Hle|Hgt].
  - injection Hcall as <-. split; [|done].
    intros (s & _ & Hs). unfold fresh in Hs.
    by rewrite (Hoff Hle), lookup_empty in Hs.
  - destruct (missingSet _ _ _) as [|s0 l0]; [done|]. injection Hcall as <-.
    destruct (P_Fetch _ _) as [freshQuotes [e|]]; simpl in Herr; [|done].
    injection Herr as ->. split.
    + intros (s & Hs & Hfresh).
      pose proof (cachedQuotes_fresh _ _ _ _ Hfull Hs Hfresh) as Hsome.
      split; [|done].
      destruct (cachedQuotes _ _ _); [done|reflexivity].
    + intros Hnone. by rewrite cachedQuotes_nil.
Qed.

End Cache.

Section CacheScenario.
Import cache scenario.

Lemma Fetch_degrades_witness :
  Fetch warmed callDown ["X"; "Y"] = (([quoteX], None), warmed) ∧
  (Fetch warmed callDown ["Y"]).1.2 = Some "upstream down".
Proof.
  assert (reachable warmed) as Hreach by (apply reachable_Fetch; constructor).
  split.
  - refine (proj1 (proj1 (Fetch_degrades warmed callDown ["X"; "Y"] ["Y"]
                            "upstream down" Hreach _ _) _)).
    + vm_compute. reflexivity.
    + reflexivity.
    + exists "X". split; [by left|]. vm_compute. reflexivity.
  - refine (proj1 (proj2 (Fetch_degrades warmed callDown ["Y"] ["Y"]
                            "upstream down" Hreach _ _) _)).
    + vm_compute. reflexivity.
    + reflexivity.
    + intros s ->%list_elem_of_singleton. vm_compute. reflexivity.
Defined.

End CacheScenario.

(** ** The batch splitter *)

Section Splitter.
Import steamdt_dump.
Context {W Ctx : Type}.
Variable doReq : Ctx → list string → W → response * W.
Variable Sleep : time.Duration → W → W.
Variable maxRetries : Z.

Local Abbreviation attempts := (attempts doReq Sleep).
Local Abbreviation fetchSplitWithin := (fetchSplitWithin doReq Sleep maxRetries).
Local Abbreviation fetchSplit := (fetchSplit doReq Sleep maxRetries).

(** The bisection is looked at for batches of two names and more only. *)
Lemma attempts_ext split split' ctx names retries attempt w :
  ((1 < length names)%nat → ∀ w', split w' = split' w') →
  attempts split ctx names retries attempt w
  = attempts split' ctx names retries attempt w.
Proof.
  intros Hsplit. revert attempt w.
  induction retries as [|r IH]; intros attempt w; simpl;
    destruct (doReq ctx names w) as [[data|[code body|msg]] w1]; try done;
    destruct (_ || _); try done;
    try (destruct (Nat.leb_spec (length names) 1); [done|by apply Hsplit]).
  destruct (_ || _); [apply IH|done].
Qed.

Lemma both_ext (f f' g g' : W → outcome * W) w :
  (∀ w', f w' = f' w') → (∀ w', g w' = g' w') → both f g w = both f' g' w.
Proof.
  intros Hf Hg. unfold both. rewrite Hf.
  destruct (f' w) as [[lData lErr|] w1]; [|done]. by rewrite Hg.
Qed.

Lemma halves_shorter (names : list string) :
  (1 < length names)%nat →
  (length (take (length names / 2) names) < length names)%nat ∧
  (length (drop (length names / 2) names) < length names)%nat.
Proof.
  intros Hlen. rewrite length_take, length_drop.
  assert (1 ≤ length names / 2)%nat by (apply Nat.div_le_lower_bound; lia).
  assert (length names / 2 < length names)%nat by (apply Nat.div_lt; lia).
  lia.
Qed.

(** Any bound on the length of the batch gives the same run. *)
Lemma fetchSplitWithin_enough n ctx names w :
  (length names ≤ n)%nat →
  fetchSplitWithin n ctx names w = fetchSplitWithin (length names) ctx names w.
Proof.
  revert names w.
  induction n as [n IH] using lt_wf_ind. intros names w Hn.
  destruct n as [|n], (length names) as [|m] eqn:Em; try done; try lia;
    cbn [steamdt_dump.fetchSplitWithin];
    apply attempts_ext; intros Hlen; try lia.
  intros w'. rewrite Em.
  destruct (halves_shorter names) as [Hl Hr]; [lia|]. rewrite Em in Hl, Hr.
  apply both_ext; intros w''.
  - rewrite (IH n) by lia. symmetry. apply (IH m); lia.
  - rewrite (IH n) by lia. symmetry. apply (IH m); lia.
Qed.

(** The recursive equation of the source. *)
Lemma fetchSplit_unfold ctx names w :
  fetchSplit ctx names w
  = attempts (both (fetchSplit ctx (take (length names / 2) names))
                   (fetchSplit ctx (drop (length names / 2) names)))
             ctx names (Z.to_nat maxRetries) 0 w.
Proof.
  unfold steamdt_dump.fetchSplit at 1.
  destruct (length names) as [|m] eqn:Em;
    cbn [steamdt_dump.fetchSplitWithin];
    apply attempts_ext; intros Hlen; try lia.
  intros w'. rewrite Em.
  destruct (halves_shorter names) as [Hl Hr]; [lia|]. rewrite Em in Hl, Hr.
  apply both_ext; intros w''; apply fetchSplitWithin_enough; lia.
Qed.

Lemma attempts_Data split ctx names retries attempt w data :
  (doReq ctx names w).1 = Data data →
  attempts split ctx names retries attempt w = (Return data None, (doReq ctx names w).2).
Proof.
  intros Hreq. destruct retries; simpl;
    destruct (doReq ctx names w) as [resp w1]; simpl in *; by subst.
Qed.

Lemma attempts_rejected split ctx names retries attempt w code body :
  (doReq ctx names w).1 = Fail (httpStatusErr code body) →
  code = 400 ∨ code = 413 →
  attempts split ctx names retries attempt w
  = if (length names <=? 1)%nat
    then (match names with [] => Panic | _ => Return [] None end, (doReq ctx names w).2)
    else split (doReq ctx names w).2.
Proof.
  intros Hreq Hcode.
  assert ((code =? 400) || (code =? 413) = true) as Hc.
  { destruct Hcode as [-> | ->]; reflexivity. }
  destruct retries; simpl;
    destruct (doReq ctx names w) as [resp w1]; simpl in *; subst; rewrite Hc;
    by destruct (_ <=? _)%nat, names.
Qed.

(** A batch that keeps being answered 429 or 5xx is asked once and then
    once more per retry, and ends with the last error. *)
Lemma attempts_transient split ctx names retries attempt w code body :
  (∀ w', (doReq ctx names w').1 = Fail (httpStatusErr code body)) →
  code = 429 ∨ 500 ≤ code < 600 →
  ∃ w', attempts split ctx names retries attempt w
        = (Return [] (Some (httpStatusErr code body)), w').
Proof.
  intros Hreq Hcode.
  assert ((code =? 400) || (code =? 413) = false) as Hc1.
  { apply orb_false_iff. split; apply Z.eqb_neq; lia. }
  assert ((code =? 429) || ((500 <=? code) && (code <? 600)) = true) as Hc2.
  { destruct Hcode as [-> | ?]; [reflexivity|].
    apply orb_true_iff. right. apply andb_true_iff. split; [apply Z.leb_le|apply Z.ltb_lt]; lia. }
  revert attempt w. induction retries as [|r IH]; intros attempt w; simpl;
    pose proof (Hreq w) as Hw;
    destruct (doReq ctx names w) as [resp w1]; simpl in Hw; subst resp;
    rewrite Hc1, Hc2; [by eexists|apply IH].
Qed.

End Splitter.

Section SplitterClaims.
Import steamdt_dump.
Context {W Ctx : Type}.
Variable doReq : Ctx → list string → W → response * W.
Variable Sleep : time.Duration → W → W.
Variable maxRetries : Z.

Local Abbreviation fetchSplit := (fetchSplit doReq Sleep maxRetries).

Lemma bisection_within K names batches :
  bisection K names batches → Forall (fun b => (length b ≤ K)%nat) batches.
Proof.
  induction 1; [by repeat constructor|constructor|by apply Forall_app].
Qed.

Lemma bisection_covers K names batches :
  (1 ≤ K)%nat → bisection K names batches → concat batches = names.
Proof.
  intros HK. induction 1 as [names|names|names l r _ _ _ IHl _ IHr]; simpl.
  - apply app_nil_r.
  - lia.
  - by rewrite concat_app, IHl, IHr, take_drop.
Qed.

(** C5. Facing an upstream that answers every batch of more than [K]
    names with 400 or 413 and every other batch with its entries,
    [fetchSplit] returns without an error the entries of the sub-batches
    its bisection ends with, each of which the upstream takes and which
    together are the batch when [K] is one or more; and a batch of a single
    name that is rejected is asked once, not again, and yields no entry
    and no error. *)
Theorem fetchSplit_bisects (K : nat) (entries : list string → list RawMessage)
    ctx names w :
  (∀ b w', (length b ≤ K)%nat → (doReq ctx b w').1 = Data (entries b)) →
  (∀ b w', (K < length b)%nat →
     ∃ code body, (code = 400 ∨ code = 413) ∧
                  (doReq ctx b w').1 = Fail (httpStatusErr code body)) →
  (∃ batches w',
     bisection K names batches ∧
     Forall (fun b => (length b ≤ K)%nat) batches ∧
     ((1 ≤ K)%nat → concat batches = names) ∧
     fetchSplit ctx names w = (Return (flat_map entries batches) None, w')) ∧
  (∀ name, (K < 1)%nat →
     fetchSplit ctx [name] w = (Return [] None, (doReq ctx [name] w).2)).
Proof.
  intros Hfits Hrejects. split.
  - enough (∃ batches w', bisection K names batches ∧
              fetchSplit ctx names w = (Return (flat_map entries batches) None, w'))
      as (batches & w' & Hb & Hrun).
    { exists batches, w'. split_and!; [done|by eapply bisection_within| |done].
      intros HK. by eapply bisection_covers. }
    revert w. induction names as [names IH] using (induction_ltof1 _ length).
    unfold ltof in IH. intros w. rewrite fetchSplit_unfold.
    destruct (Nat.le_gt_cases (length names) K) as [Hle|Hgt].
    + exists [names], (doReq ctx names w).2. split; [by constructor|].
      rewrite (attempts_Data _ _ _ _ _ _ _ _ (entries names)) by by apply Hfits.
      simpl. by rewrite app_nil_r.
    + destruct (Hrejects names w Hgt) as (code & body & Hcode & Hreq).
      rewrite (attempts_rejected _ _ _ _ _ _ _ _ code body) by done.
      destruct (Nat.leb_spec (length names) 1) as [Hone|Hmany].
      * exists [], (doReq ctx names w).2. split; [by constructor|].
        destruct names; [simpl in *; lia|done].
      * destruct (halves_shorter names Hmany) as [Hl Hr].
        destruct (IH _ Hl (doReq ctx names w).2) as (l & w1 & Hbl & Hrunl).
        destruct (IH _ Hr w1) as (r & w2 & Hbr & Hrunr).
        exists (l ++ r)%list, w2. split; [by constructor|].
        unfold both. rewrite Hrunl, Hrunr. by rewrite flat_map_app.
  - intros name HK. rewrite fetchSplit_unfold.
    destruct (Hrejects [name] w) as (code & body & Hcode & Hreq); [simpl; lia|].
    by rewrite (attempts_rejected _ _ _ _ _ _ _ _ code body).
Qed.

(** C6, amended.  When a batch of two names or more is rejected with 400
    or 413, both halves are fetched, the left first; and when a half
    returns an error, as it does when its retries run out, [fetchSplit]
    returns for the batch that error, the left one first, and no entry:
    what the other half fetched is not in the result. *)
Theorem error_of_a_half_fails_the_batch ctx names w code body
    lData lErr w1 rData rErr w2 :
  (1 < length names)%nat →
  (doReq ctx names w).1 = Fail (httpStatusErr code body) →
  code = 400 ∨ code = 413 →
  fetchSplit ctx (take (length names / 2) names) (doReq ctx names w).2
    = (Return lData lErr, w1) →
  fetchSplit ctx (drop (length names / 2) names) w1 = (Return rData rErr, w2) →
  (∀ e, lErr = Some e → fetchSplit ctx names w = (Return [] (Some e), w2)) ∧
  (∀ e, lErr = None → rErr = Some e →
        fetchSplit ctx names w = (Return [] (Some e), w2)).
Proof.
  intros Hlen Hreq Hcode Hl Hr.
  rewrite fetchSplit_unfold, (attempts_rejected _ _ _ _ _ _ _ _ code body) by done.
  destruct (Nat.leb_spec (length names) 1); [lia|].
  unfold both. rewrite Hl, Hr. split; [by intros e ->|by intros e -> ->].
Qed.

End SplitterClaims.

Section SplitterScenario.
Import steamdt_dump scenario.

Example five_names :
  fetchSplit (serve atMostTwo) pass 3 None ["a"; "b"; "c"; "d"; "e"] start
  = (Return ["a"; "b"; "c"; "d"; "e"] None,
     {| clock := 0;
        trace := [Requested ["a"; "b"; "c"; "d"; "e"]; Requested ["a"; "b"];
                  Requested ["c"; "d"; "e"]; Requested ["c"]; Requested ["d"; "e"]] |}).
Proof. reflexivity. Qed.

Lemma fetchSplit_bisects_witness :
  (∃ batches w',
     bisection 2 ["a"; "b"; "c"; "d"; "e"] batches ∧
     Forall (fun b => (length b ≤ 2)%nat) batches ∧
     ((1 ≤ 2)%nat → concat batches = ["a"; "b"; "c"; "d"; "e"]) ∧
     fetchSplit (serve atMostTwo) pass 3 None ["a"; "b"; "c"; "d"; "e"] start
     = (Return (flat_map id batches) None, w')) ∧
  (∀ name, (2 < 1)%nat →
     fetchSplit (serve atMostTwo) pass 3 None [name] start
     = (Return [] None, (serve atMostTwo None [name] start).2)).
Proof.
  apply (fetchSplit_bisects (serve atMostTwo) pass 3 2 id).
  - intros b w' Hb. unfold serve, atMostTwo. simpl.
    by destruct (Nat.ltb_spec 2 (length b)); [lia|].
  - intros b w' Hb. exists 413, "too large". split; [by right|].
    unfold serve, atMostTwo. simpl.
    by destruct (Nat.ltb_spec 2 (length b)); [|lia].
Defined.

Example left_half_served :
  (fetchSplit (serve downForB) pass 3 None ["a"] start).1
  = Return ["entry of a"] None.
Proof. reflexivity. Qed.

Example right_half_out_of_retries :
  fetchSplit (serve downForB) pass 3 None ["b"] start
  = (Return [] (Some (httpStatusErr 503 "unavailable")),
     {| clock := 1750 * time.Millisecond;
        trace := [Requested ["b"]; Slept (250 * time.Millisecond);
                  Requested ["b"]; Slept (500 * time.Millisecond);
                  Requested ["b"]; Slept (1000 * time.Millisecond);
                  Requested ["b"]] |}).
Proof. reflexivity. Qed.

Example pair_fails_whole :
  (fetchSplit (serve downForB) pass 3 None ["a"; "b"] start).1
  = Return [] (Some (httpStatusErr 503 "unavailable")).
Proof. reflexivity. Qed.

(** C6 as stated fails: the pair is cut in two, the left half is served
    and the right half runs out of retries; the entry of the left half is
    not in what [fetchSplit] returns for the pair, which is the error and
    no entry. *)
Lemma entries_of_the_sibling_are_dropped :
  ∃ (upstream : list string → response) (maxRetries : Z) (names : list string)
    (w w1 w2 : timeline) (code : Z) (body : string)
    (lData : list RawMessage) (entry : RawMessage) (e : error),
    (1 < length names)%nat ∧
    serve upstream None names w = (Fail (httpStatusErr code body), w1) ∧
    (code = 400 ∨ code = 413) ∧
    fetchSplit (serve upstream) pass maxRetries None
      (take (length names / 2) names) w1 = (Return lData None, w2) ∧
    entry ∈ lData ∧
    (fetchSplit (serve upstream) pass maxRetries None
      (drop (length names / 2) names) w2).1 = Return [] (Some e) ∧
    (fetchSplit (serve upstream) pass maxRetries None names w).1
    = Return [] (Some e).
Proof.
  exists downForB, 3, ["a"; "b"], start,
    {| clock := 0; trace := [Requested ["a"; "b"]] |},
    {| clock := 0; trace := [Requested ["a"; "b"]; Requested ["a"]] |},
    400, "bad request", ["entry of a"], "entry of a",
    (httpStatusErr 503 "unavailable").
  split_and!; try reflexivity; [simpl; lia|by left|by left].
Qed.

Lemma error_of_a_half_fails_the_batch_witness :
  fetchSplit (serve downForB) pass 3 None ["a"; "b"] start
  = (Return [] (Some (httpStatusErr 503 "unavailable")),
     {| clock := 1750 * time.Millisecond;
        trace := [Requested ["a"; "b"]; Requested ["a"];
                  Requested ["b"]; Slept (250 * time.Millisecond);
                  Requested ["b"]; Slept (500 * time.Millisecond);
                  Requested ["b"]; Slept (1000 * time.Millisecond);
                  Requested ["b"]] |}).
Proof.
  refine (proj2 (error_of_a_half_fails_the_batch (serve downForB) pass 3 None
                   ["a"; "b"] start 400 "bad request"
                   ["entry of a"] None _ [] (Some (httpStatusErr 503 "unavailable")) _
                   _ _ _ _ _) _ eq_refl eq_refl).
  - simpl; lia.
  - reflexivity.
  - by left.
  - reflexivity.
  - reflexivity.
Defined.

(** *** The back-off sleep and the context *)

(** C9 fails in the batch engine: with a context that ends 100 ms in and
    an upstream that answers 429, [fetchSplit] sleeps the 250 ms of the
    back-off to their end, asks once more, and returns 250 ms in with the
    error of that request.  So it does under the context that [main]
    makes for [-timeout 1 -retries 3], which ends one second in: the
    third sleep, of one second, starts 750 ms in and is slept to its end,
    and [fetchSplit] returns 1750 ms in. *)
Lemma backoff_outsleeps_the_deadline :
  fetchSplit (serve throttled) pass 3 (Some (100 * time.Millisecond)) ["a"] start
  = (Return [] (Some (otherErr "context deadline exceeded")),
     {| clock := 250 * time.Millisecond;
        trace := [Requested ["a"]; Slept (250 * time.Millisecond); Requested ["a"]] |})
  ∧
  fetchSplit (serve throttled) pass 3 (Some (1 * time.Second)) ["a"] start
  = (Return [] (Some (otherErr "context deadline exceeded")),
     {| clock := 1750 * time.Millisecond;
        trace := [Requested ["a"]; Slept (250 * time.Millisecond);
                  Requested ["a"]; Slept (500 * time.Millisecond);
                  Requested ["a"]; Slept (1000 * time.Millisecond);
                  Requested ["a"]] |}).
Proof. split; reflexivity. Qed.

End SplitterScenario.

(** ** The coalescing payload cache *)

Section PayloadCache.
Import skinstablexyz.
Context {Items : Type}.

Lemma commit_absent (c : gmap string (siteCache Items)) site res commitNow :
  c !! site = None → commit c site res commitNow = <[site := res]> c.
Proof. intros H. unfold commit. by rewrite H. Qed.

Lemma commit_expired (c : gmap string (siteCache Items)) site res commitNow sc :
  c !! site = Some sc → time.After commitNow (until sc) = true →
  commit c site res commitNow = <[site := res]> c.
Proof. intros H Hexp. unfold commit. by rewrite H, Hexp. Qed.

Lemma commit_unexpired (c : gmap string (siteCache Items)) site res commitNow sc :
  c !! site = Some sc → time.After commitNow (until sc) = false →
  commit c site res commitNow = c.
Proof. intros H Hexp. unfold commit. by rewrite H, Hexp. Qed.

(** C7. In a turn of the loop that found the entry of the site missing or
    expired and whose refresh succeeded, the cache the write finds, after
    what other callers did meanwhile, gets the new payload when it has no
    entry for the site or one that has expired by the clock of the write,
    and stays as found when its entry has not expired; the entries of
    other sites stay either way. *)
Theorem refresh_commits_over_expired_only now (env : world Items) st site res :
  match cache st !! site with
  | Some sc => time.After now (until sc) = true
  | None => True
  end →
  sfDo env site = inl res →
  let found := meanwhile env site (cache st) in
  let after := cache (ensureSite now env st site) in
  (found !! site = None → after = <[site := res]> found) ∧
  (∀ sc, found !! site = Some sc →
         time.After (commitClock env site) (until sc) = true →
         after = <[site := res]> found) ∧
  (∀ sc, found !! site = Some sc →
         time.After (commitClock env site) (until sc) = false →
         after = found) ∧
  (∀ other, other ≠ site → after !! other = found !! other).
Proof.
  intros Hexpired Hdo found after.
  assert (after = commit found site res (commitClock env site)) as ->.
  { unfold after, ensureSite. rewrite Hdo.
    destruct (cache st !! site) as [sc|]; [by rewrite Hexpired|done]. }
  split_and!.
  - apply commit_absent.
  - intros sc. apply commit_expired.
  - intros sc. apply commit_unexpired.
  - intros other Hne. unfold commit.
    destruct (found !! site) as [sc|]; [destruct (time.After _ _)|];
      by rewrite ?lookup_insert_ne.
Qed.

End PayloadCache.

Section PayloadCacheScenario.
Import skinstablexyz scenario.

Lemma refresh_commits_over_expired_only_witness :
  cache (ensureSite (5 * time.Second) slowRefresh emptyState "BUFF.163")
  = {[ "BUFF.163" := otherPayload ]}.
Proof.
  refine (proj1 (proj2 (proj2
    (refresh_commits_over_expired_only (5 * time.Second) slowRefresh emptyState
       "BUFF.163" latePayload _ _))) otherPayload _ _).
  - simpl. by rewrite lookup_empty.
  - reflexivity.
  - simpl. by rewrite lookup_insert_eq.
  - reflexivity.
Defined.

End PayloadCacheScenario.

(** ** The floats of the token bucket *)

Section Binary64.
Import binary64.

(** The number of binary digits of a mantissa. *)
Lemma digits2_size (p : positive) : digits2_pos p = Pos.size p.
Proof. induction p; simpl; by rewrite ?IHp. Qed.

Lemma digits2_bounds (p : positive) :
  2 ^ (Z.pos (digits2_pos p) - 1) ≤ Z.pos p < 2 ^ Z.pos (digits2_pos p).
Proof.
  rewrite digits2_size. split.
  - pose proof (Pos.size_le p) as H.
    apply Pos2Z.pos_le_pos in H. rewrite Pos2Z.inj_pow in H.
    replace (Z.pos (Pos.size p)) with (Z.succ (Z.pos (Pos.size p) - 1)) in H by lia.
    rewrite Z.pow_succ_r in H by lia. lia.
  - pose proof (Pos.size_gt p) as H.
    apply Pos2Z.pos_lt_pos in H. by rewrite Pos2Z.inj_pow in H.
Qed.

Lemma digits2_unique (p : positive) (k : Z) :
  2 ^ (k - 1) ≤ Z.pos p < 2 ^ k → Z.pos (digits2_pos p) = k.
Proof.
  intros [Hlo Hhi]. pose proof (digits2_bounds p) as [Hlo' Hhi'].
  assert (0 < k).
  { destruct (Z.lt_trichotomy k 0) as [?|[->|?]]; [|simpl in *; lia|done].
    rewrite Z.pow_neg_r in Hhi by lia. lia. }
  assert (k - 1 < Z.pos (digits2_pos p)).
  { apply (Z.pow_lt_mono_r_iff 2); lia. }
  assert (Z.pos (digits2_pos p) - 1 < k).
  { apply (Z.pow_lt_mono_r_iff 2); lia. }
  lia.
Qed.

Lemma iter_xO (m d : positive) : Z.pos (Pos.iter xO m d) = Z.pos m * 2 ^ Z.pos d.
Proof.
  induction d as [|d IH] using Pos.peano_ind.
  - simpl. lia.
  - rewrite Pos.iter_succ, Pos2Z.inj_succ, Z.pow_succ_r by lia.
    rewrite Pos2Z.inj_xO, IH. lia.
Qed.

Lemma shr_1_m (mrs : shr_record) :
  0 ≤ shr_m mrs → shr_m (shr_1 mrs) = shr_m mrs / 2.
Proof.
  destruct mrs as [[|[p|p|]|p] r s]; simpl; intros H; try done; try lia.
  - apply (Z.div_unique _ _ _ 1); lia.
  - apply (Z.div_unique _ _ _ 0); lia.
Qed.

Lemma iter_shr_1 (n : positive) (mrs : shr_record) :
  0 ≤ shr_m mrs → shr_m (SpecFloat.iter_pos shr_1 n mrs) = shr_m mrs / 2 ^ Z.pos n.
Proof.
  revert mrs. induction n as [n IH|n IH|]; intros mrs Hm; simpl SpecFloat.iter_pos.
  - assert (0 ≤ shr_m (shr_1 mrs)) by (rewrite shr_1_m by done; by apply Z.div_pos).
    assert (0 ≤ shr_m (SpecFloat.iter_pos shr_1 n (shr_1 mrs))).
    { rewrite IH by done. apply Z.div_pos; lia. }
    rewrite !IH, shr_1_m by done.
    rewrite !Z.div_div by lia. f_equal.
    change (Z.pos n~1) with (2 * Z.pos n + 1).
    replace (2 * Z.pos n + 1) with (1 + Z.pos n + Z.pos n) by lia.
    rewrite !Z.pow_add_r, Z.pow_1_r by lia. ring.
  - assert (0 ≤ shr_m (SpecFloat.iter_pos shr_1 n mrs)).
    { rewrite IH by done. apply Z.div_pos; lia. }
    rewrite !IH by done. rewrite Z.div_div by lia. f_equal.
    change (Z.pos n~0) with (2 * Z.pos n).
    replace (2 * Z.pos n) with (Z.pos n + Z.pos n) by lia.
    rewrite Z.pow_add_r by lia. done.
  - rewrite shr_1_m by done. by rewrite Z.pow_1_r.
Qed.

(** *** Signs *)

Lemma shr_record_of_loc_m m l : shr_m (shr_record_of_loc m l) = m.
Proof. by destruct l as [|[]]. Qed.

Lemma round_nearest_even_bounds mx lx :
  mx ≤ round_nearest_even mx lx ≤ mx + 1.
Proof. destruct lx as [|[]]; simpl; try lia. destruct (Z.even mx); lia. Qed.

Lemma shr_m_nonneg mrs e n : 0 ≤ shr_m mrs → 0 ≤ shr_m (shr mrs e n).1.
Proof.
  intros Hm. destruct n as [|n|n]; simpl; try done.
  rewrite iter_shr_1 by done. apply Z.div_pos; lia.
Qed.

Lemma round_aux_nonneg m e l :
  0 ≤ m → SFnonneg (binary_round_aux prec emax false m e l).
Proof.
  intros Hm. unfold binary_round_aux.
  destruct (shr_fexp prec emax m e l) as [mrs' e'] eqn:E1.
  destruct (shr_fexp prec emax _ e' loc_Exact) as [mrs'' e''] eqn:E2.
  assert (0 ≤ shr_m mrs') as Hm'.
  { change mrs' with (mrs', e').1. rewrite <- E1.
    apply shr_m_nonneg. by rewrite shr_record_of_loc_m. }
  assert (0 ≤ shr_m mrs'') as Hm''.
  { change mrs'' with (mrs'', e'').1. rewrite <- E2.
    apply shr_m_nonneg. rewrite shr_record_of_loc_m.
    pose proof (round_nearest_even_bounds (shr_m mrs') (loc_of_shr_record mrs')). lia. }
  destruct (shr_m mrs'') as [|q|q]; simpl; [done| |lia].
  by destruct (_ <=? _).
Qed.

Lemma round_nonneg m e : SFnonneg (binary_round prec emax false m e).
Proof.
  unfold binary_round. destruct (shl_align _ _ _) as [mz ez].
  by apply round_aux_nonneg.
Qed.

Lemma normalize_nonneg m e s : 0 ≤ m → SFnonneg (binary_normalize prec emax m e s).
Proof.
  intros Hm. destruct m as [|m|m]; simpl; [done|apply round_nonneg|lia].
Qed.

Lemma SFadd_nonneg x y : SFnonneg x → SFnonneg y → SFnonneg (SF64add x y).
Proof.
  destruct x as [sx|sx| |sx mx ex], y as [sy|sy| |sy my ey]; simpl; try done;
    intros Hx Hy; subst; try done.
  - by destruct sx, sy.
  - apply normalize_nonneg. simpl. lia.
Qed.

Lemma SFmul_positive x y : SFpositive x → SFpositive y → SFnonneg (SF64mul x y).
Proof.
  destruct x as [sx|sx| |sx mx ex], y as [sy|sy| |sy my ey]; simpl; try done;
    intros Hx Hy; subst; try done.
  by apply round_aux_nonneg.
Qed.

(** *** The order *)

Lemma SFleb_refl x : SFnonneg x → SFleb x x = true.
Proof.
  destruct x as [s|s| |s m e]; simpl; try done; intros ->; unfold SFleb; simpl; [done|].
  by rewrite Z.compare_refl, Pos.compare_cont_refl.
Qed.

Lemma SFleb_total x y :
  SFnonneg x → SFnonneg y → SFltb y x = false → SFleb x y = true.
Proof.
  destruct x as [sx|sx| |sx mx ex], y as [sy|sy| |sy my ey]; simpl; try done;
    intros Hx Hy; subst; unfold SFltb, SFleb; simpl; try done.
  rewrite (Z.compare_antisym ex ey).
  destruct (ex ?= ey); simpl; try done.
  change (Pos.compare_cont Eq my mx) with (my ?= mx)%positive.
  change (Pos.compare_cont Eq mx my) with (mx ?= my)%positive.
  rewrite (Pos.compare_antisym my mx). by destruct (my ?= mx)%positive.
Qed.

Lemma SFltb_total x :
  x ≠ S754_nan → SFleb x (S754_zero false) = false → SFpositive x.
Proof. by destruct x as [s|[]| |[] m e]. Qed.

Lemma SFltb_positive x : SFltb (S754_zero false) x = true ↔ SFpositive x.
Proof. destruct x as [s|[]| |[] m e]; simpl; unfold SFltb; simpl; split; done. Qed.

Lemma SFleb_nonneg x : SFleb (S754_zero false) x = true ↔ SFnonneg x.
Proof. destruct x as [s|[]| |[] m e]; simpl; unfold SFleb; simpl; split; done. Qed.

Lemma SFleb_trans x y z :
  SFnonneg x → SFnonneg y → SFnonneg z →
  SFleb x y = true → SFleb y z = true → SFleb x z = true.
Proof.
  destruct x as [sx|sx| |sx mx ex], y as [sy|sy| |sy my ey], z as [sz|sz| |sz mz ez];
    simpl; try done; intros Hx Hy Hz; subst; unfold SFleb; simpl; try done.
  change (Pos.compare_cont Eq mx my) with (mx ?= my)%positive.
  change (Pos.compare_cont Eq my mz) with (my ?= mz)%positive.
  change (Pos.compare_cont Eq mx mz) with (mx ?= mz)%positive.
  destruct (Z.compare_spec ex ey), (Z.compare_spec ey ez), (Z.compare_spec ex ez);
    try done; try lia; subst;
    destruct (Pos.compare_spec mx my), (Pos.compare_spec my mz),
             (Pos.compare_spec mx mz); try done; lia.
Qed.


(** *** Rounding below a number *)

Lemma round_aux_finish sx mx ex lx :
  binary_round_aux prec emax sx mx ex lx
  = finish sx (round_nearest_even (shr_m (shr_fexp prec emax mx ex lx).1)
                                  (loc_of_shr_record (shr_fexp prec emax mx ex lx).1))
           (shr_fexp prec emax mx ex lx).2.
Proof. unfold binary_round_aux, finish. by destruct (shr_fexp prec emax mx ex lx). Qed.

Lemma shr_fexp_stays q e l :
  fexp prec emax (Z.pos (digits2_pos q) + e) - e ≤ 0 →
  shr_fexp prec emax (Z.pos q) e l = (shr_record_of_loc (Z.pos q) l, e).
Proof.
  intros Hn. unfold shr_fexp. simpl Zdigits2.
  destruct (fexp prec emax (Z.pos (digits2_pos q) + e) - e) as [|n|n]; try done; lia.
Qed.

Lemma shr_fexp_shifts q e l n :
  fexp prec emax (Z.pos (digits2_pos q) + e) - e = Z.pos n →
  shr_fexp prec emax (Z.pos q) e l
  = (SpecFloat.iter_pos shr_1 n (shr_record_of_loc (Z.pos q) l), e + Z.pos n).
Proof. intros Hn. unfold shr_fexp. simpl Zdigits2. by rewrite Hn. Qed.

Lemma finish_fits q e :
  Z.pos (digits2_pos q) ≤ 53 → fexp prec emax (Z.pos (digits2_pos q) + e) ≤ e →
  e ≤ 971 → finish false (Z.pos q) e = S754_finite false q e.
Proof.
  intros Hd He Hmax. unfold finish. rewrite shr_fexp_stays by lia. simpl.
  by destruct (Z.leb_spec e (emax - prec)); [|unfold emax, prec in *; lia].
Qed.

Lemma finish_carry q e :
  Z.pos q = 2 ^ 53 → -1074 ≤ e → e + 1 ≤ 971 →
  finish false (Z.pos q) e = S754_finite false 4503599627370496 (e + 1).
Proof.
  intros Hq He Hmax. unfold finish.
  assert (q = 9007199254740992%positive) as -> by lia.
  rewrite (shr_fexp_shifts _ _ _ 1).
  2:{ simpl digits2_pos. unfold fexp, prec, emax, emin. lia. }
  simpl.
  by destruct (Z.leb_spec (e + 1) (emax - prec)); [|unfold emax, prec in *; lia].
Qed.


Lemma SFleb_finite q e' m e :
  e' < e ∨ (e' = e ∧ Z.pos q ≤ Z.pos m) →
  SFleb (S754_finite false q e') (S754_finite false m e) = true.
Proof.
  intros H. unfold SFleb. simpl.
  change (Pos.compare_cont Eq q m) with (q ?= m)%positive.
  destruct (Z.compare_spec e' e); [|done|lia].
  destruct (Pos.compare_spec q m); try done. lia.
Qed.

Lemma pow2_add a b : 0 ≤ a → 0 ≤ b → 2 ^ (a + b) = 2 ^ a * 2 ^ b.
Proof. intros. by apply Z.pow_add_r. Qed.

Lemma pow2_pos a : 0 ≤ a → 0 < 2 ^ a.
Proof. intros. by apply Z.pow_pos_nonneg. Qed.

(** An integer below [m * 2 ^ e], counted in units of [2 ^ -52], rounds
    to a number that is not above [m * 2 ^ e]. *)
Lemma normalize_below (D : Z) (m : positive) (e : Z) :
  Z.pos (digits2_pos m) = 53 → -52 ≤ e ≤ 971 →
  0 ≤ D < Z.pos m * 2 ^ (e + 52) →
  SFleb (binary_normalize prec emax D (-52) false) (S754_finite false m e) = true.
Proof.
  intros Hm He [HD0 HD].
  destruct D as [|p|p]; [done| |lia]. simpl binary_normalize.
  pose proof (digits2_bounds m) as Hmb. rewrite Hm in Hmb. simpl in Hmb.
  pose proof (digits2_bounds p) as Hpb.
  set (δ := Z.pos (digits2_pos p)) in *.
  assert (1 ≤ δ) as Hδ1 by (unfold δ; lia).
  assert (δ ≤ e + 105) as Hδe.
  { assert (δ - 1 < e + 105); [|lia].
    apply (Z.pow_lt_mono_r_iff 2); [lia..|].
    replace (e + 105) with (53 + (e + 52)) by lia.
    rewrite pow2_add by lia. pose proof (pow2_pos (e + 52)). nia. }
  assert (fexp prec emax (δ + -52) = δ - 105) as Hfexp.
  { unfold fexp, prec, emax, emin. lia. }
  unfold binary_round. fold δ. rewrite Hfexp. unfold shl_align.
  destruct (δ - 105 - -52) as [|n|k] eqn:En.
  - (* 53 digits: nothing to shift *)
    rewrite round_aux_finish, shr_fexp_stays by (fold δ; lia). simpl.
    rewrite finish_fits by (fold δ; lia).
    apply SFleb_finite.
    destruct (Z.eq_dec e (-52)) as [->|]; [right|left; lia].
    split; [done|]. simpl in HD. lia.
  - (* more than 53 digits: shifted right and rounded *)
    rewrite round_aux_finish, (shr_fexp_shifts _ _ _ n) by (fold δ; lia).
    cbn [fst snd].
    rewrite iter_shr_1, shr_record_of_loc_m by (by rewrite shr_record_of_loc_m).
    set (m' := Z.pos p / 2 ^ Z.pos n).
    set (l' := loc_of_shr_record _).
    pose proof (round_nearest_even_bounds m' l') as Hrne.
    set (m'' := round_nearest_even m' l') in *.
    assert (Z.pos n = δ - 53) as Hn by lia.
    assert (2 ^ 52 ≤ m' < 2 ^ 53) as Hm'.
    { unfold m'. pose proof (pow2_pos (Z.pos n)). split.
      - apply Z.div_le_lower_bound; [lia|].
        rewrite <- pow2_add by lia. replace (Z.pos n + 52) with (δ - 1) by lia. lia.
      - apply Z.div_lt_upper_bound; [lia|].
        rewrite <- pow2_add by lia. replace (Z.pos n + 53) with δ by lia. lia. }
    assert (-52 + Z.pos n = e → m'' ≤ Z.pos m) as Hsame.
    { intros Hee. assert (m' < Z.pos m); [|lia].
      unfold m'. apply Z.div_lt_upper_bound; [by apply pow2_pos|].
      replace (Z.pos n) with (e + 52) by lia. lia. }
    destruct (Z.eq_dec m'' (2 ^ 53)) as [Hcarry|Hnocarry].
    + destruct m'' as [|q|q]; try done.
      rewrite finish_carry by (try done; lia).
      apply SFleb_finite.
      destruct (Z.eq_dec (-52 + Z.pos n + 1) e); [right|left; lia].
      split; [done|]. lia.
    + destruct m'' as [|q|q]; try lia.
      assert (Z.pos (digits2_pos q) = 53) as Hq.
      { apply digits2_unique. simpl Z.sub. lia. }
      rewrite finish_fits; [|lia| |lia].
      2:{ rewrite Hq. unfold fexp, prec, emax, emin. lia. }
      apply SFleb_finite.
      destruct (Z.eq_dec (-52 + Z.pos n) e); [right|left; lia].
      split; [done|]. by apply Hsame.
  - (* fewer digits: shifted left, exactly *)
    assert (Z.pos k = 53 - δ) as Hk by lia.
    assert (Z.pos (digits2_pos (Pos.iter xO p k)) = 53) as Hq.
    { apply digits2_unique. rewrite iter_xO.
      pose proof (pow2_pos (Z.pos k)).
      assert (2 ^ (53 - 1) = 2 ^ (δ - 1) * 2 ^ Z.pos k) as ->.
      { rewrite <- pow2_add by lia. f_equal. lia. }
      assert (2 ^ 53 = 2 ^ δ * 2 ^ Z.pos k) as ->.
      { rewrite <- pow2_add by lia. f_equal. lia. }
      nia. }
    rewrite round_aux_finish, shr_fexp_stays.
    2:{ rewrite Hq. unfold fexp, prec, emax, emin. lia. }
    simpl. rewrite finish_fits; [|lia| |lia].
    2:{ rewrite Hq. unfold fexp, prec, emax, emin. lia. }
    apply SFleb_finite. left. lia.
Qed.


Lemma shl_align_fst mx ex ex' :
  ex' ≤ ex → Z.pos (shl_align mx ex ex').1 = Z.pos mx * 2 ^ (ex - ex').
Proof.
  intros Hle. unfold shl_align.
  destruct (ex' - ex) as [|d|d] eqn:Ed; simpl; try lia.
  - replace (ex - ex') with 0 by lia. lia.
  - rewrite iter_xO. f_equal. f_equal. lia.
Qed.

(** One less than a number that is one or more is neither negative nor
    above the number. *)
Lemma SFsub_one x :
  valid_binary x = true → SFleb SFone x = true →
  SFnonneg (SF64sub x SFone) ∧ SFleb (SF64sub x SFone) x = true.
Proof.
  destruct x as [s|[]| |[] m e]; try done. intros Hvalid Hone.
  simpl in Hvalid. unfold bounded, canonical_mantissa in Hvalid.
  apply andb_true_iff in Hvalid as [Hcanon Hmax].
  apply Z.eqb_eq in Hcanon. apply Z.leb_le in Hmax.
  assert (-52 ≤ e ∧ (e = -52 → 2 ^ 52 ≤ Z.pos m)) as [He Hm52].
  { unfold SFleb, SFone, SFcompare in Hone.
    change (Pos.compare_cont Eq 4503599627370496 m)
      with (4503599627370496 ?= m)%positive in Hone.
    destruct (Z.compare_spec (-52) e); [subst| |done].
    - split; [done|]. intros _.
      destruct (Pos.compare_spec 4503599627370496 m); try done; lia.
    - split; lia. }
  assert (Z.pos (digits2_pos m) = 53) as Hd.
  { unfold fexp, prec, emax, emin in Hcanon. lia. }
  pose proof (digits2_bounds m) as Hmb. rewrite Hd in Hmb. simpl Z.sub in Hmb.
  unfold SF64sub, SFsub, SFone. rewrite Z.min_r by lia. simpl cond_Zopp.
  rewrite (shl_align_fst m e (-52)) by lia.
  change (Z.pos (shl_align 4503599627370496 (-52) (-52)).1) with (2 ^ 52).
  replace (e - -52) with (e + 52) by lia.
  pose proof (pow2_pos (e + 52)).
  split.
  - apply normalize_nonneg. nia.
  - apply normalize_below; [done|unfold emax, prec in *; lia|]. split; [nia|].
    assert (0 < 2 ^ 52) by done. lia.
Qed.

(** *** The same for the floats of the kernel *)

Local Open Scope float_scope.

Lemma leb_zero x : (0 <=? x) = true ↔ SFnonneg (Prim2SF x).
Proof. rewrite FloatAxioms.leb_spec. apply SFleb_nonneg. Qed.

Lemma ltb_zero x : (0 <? x) = true ↔ SFpositive (Prim2SF x).
Proof. rewrite FloatAxioms.ltb_spec. apply SFltb_positive. Qed.

Lemma add_nonneg x y : (0 <=? x) = true → (0 <=? y) = true → (0 <=? x + y) = true.
Proof. rewrite !leb_zero, FloatAxioms.add_spec. apply SFadd_nonneg. Qed.

Lemma mul_positive x y : (0 <? x) = true → (0 <? y) = true → (0 <=? x * y) = true.
Proof. rewrite !ltb_zero, leb_zero, FloatAxioms.mul_spec. apply SFmul_positive. Qed.

Lemma leb_refl x : (0 <=? x) = true → (x <=? x) = true.
Proof. rewrite leb_zero, FloatAxioms.leb_spec. apply SFleb_refl. Qed.

Lemma leb_total x y :
  (0 <=? x) = true → (0 <=? y) = true → (y <? x) = false → (x <=? y) = true.
Proof. rewrite !leb_zero, FloatAxioms.ltb_spec, FloatAxioms.leb_spec. apply SFleb_total. Qed.

Lemma leb_trans x y z :
  (0 <=? x) = true → (x <=? y) = true → (y <=? z) = true → (x <=? z) = true.
Proof.
  rewrite leb_zero, !FloatAxioms.leb_spec. intros Hx Hxy Hyz.
  assert (SFnonneg (Prim2SF y)) as Hy.
  { destruct (Prim2SF x) as [|[]| |[]], (Prim2SF y) as [|[]| |[]]; done. }
  assert (SFnonneg (Prim2SF z)) as Hz.
  { destruct (Prim2SF y) as [|[]| |[]], (Prim2SF z) as [|[]| |[]]; done. }
  by apply (SFleb_trans _ (Prim2SF y)).
Qed.

Lemma sub_one x :
  (1 <=? x) = true → (0 <=? x - 1) = true ∧ (x - 1 <=? x) = true.
Proof.
  rewrite leb_zero, !FloatAxioms.leb_spec, FloatAxioms.sub_spec. apply SFsub_one, Prim2SF_valid.
Qed.

Lemma positive_of_number x :
  is_nan x = false → (x <=? 0) = false → (0 <? x) = true.
Proof.
  unfold is_nan. rewrite FloatAxioms.eqb_spec, FloatAxioms.leb_spec, ltb_zero. intros Hnan Hle.
  apply SFltb_total; [|done]. intros E. by rewrite E in Hnan.
Qed.

Lemma of_uint63_nonneg n : (0 <=? of_uint63 n) = true.
Proof.
  rewrite leb_zero, of_uint63_spec. apply normalize_nonneg.
  apply Uint63.to_Z_bounded.
Qed.

End Binary64.
Section TokenBucket.
Import ratelimit.
Local Open Scope float_scope.

Lemma float64_nonneg n : (0 <= n)%Z → (0 <=? float64 n) = true.
Proof.
  intros Hn. unfold float64.
  destruct (Z.ltb_spec n 0); [lia|]. apply of_uint63_nonneg.
Qed.

Lemma refill_within tb now : sound tb → within tb → within (refill tb now).
Proof.
  intros [Hrate Hcap] [Hlo Hhi]. unfold refill.
  destruct (0 <? Seconds _) eqn:Helapsed; [|done].
  assert ((0 <=? tokens tb + Seconds (time.Sub now (last tb)) * rate tb) = true) as Hsum.
  { apply add_nonneg; [done|]. by apply mul_positive. }
  unfold within. simpl.
  destruct (capacity tb <? _) eqn:Hover.
  - split; [done|]. by apply leb_refl.
  - split; [done|]. by apply leb_total.
Qed.

Lemma turn_within tb now : sound tb → within tb → within (turn tb now).1.
Proof.
  intros Hsound Hin. pose proof (refill_within tb now Hsound Hin) as [Hlo Hhi].
  unfold turn. destruct (1 <=? tokens (refill tb now)) eqn:Hone; [|done].
  destruct (sub_one _ Hone) as [Hlo' Hle]. split; simpl; [done|].
  by eapply leb_trans.
Qed.

Lemma refill_sound tb now : sound tb → sound (refill tb now).
Proof. unfold refill, sound. by destruct (0 <? Seconds _). Qed.

Lemma turn_sound tb now : sound tb → sound (turn tb now).1.
Proof.
  intros H%(refill_sound _ now). unfold turn.
  by destruct (1 <=? tokens (refill tb now)).
Qed.

Lemma NewTokenBucket_sound tokensPerSecond burst now :
  is_nan tokensPerSecond = false → sound (NewTokenBucket tokensPerSecond burst now).
Proof.
  intros Hnan. unfold NewTokenBucket, sound. simpl. split.
  - destruct (tokensPerSecond <=? 0) eqn:E; [done|]. by apply positive_of_number.
  - apply float64_nonneg. destruct (Z.leb_spec burst 0); lia.
Qed.

(** C8, amended.  A bucket made by [NewTokenBucket] from a rate that is a
    number starts with as many tokens as its capacity, and in every bucket the
    turns of [wait] lead to from it, after the refill of a turn and after
    the turn with its acquisition, the tokens are neither below zero nor
    above the capacity. *)
Theorem tokens_within_capacity tokensPerSecond burst now0 :
  is_nan tokensPerSecond = false →
  let tb0 := NewTokenBucket tokensPerSecond burst now0 in
  tokens tb0 = capacity tb0 ∧
  ∀ tb, reached tb0 tb →
    within tb ∧ ∀ now, within (refill tb now) ∧ within (turn tb now).1.
Proof.
  intros Hnan tb0. split; [done|].
  pose proof (NewTokenBucket_sound tokensPerSecond burst now0 Hnan) as Hsound0.
  fold tb0 in Hsound0.
  assert (within tb0) as Hin0.
  { destruct Hsound0 as [_ Hcap]. split; [done|]. by apply leb_refl. }
  assert (∀ tb, reached tb0 tb → sound tb ∧ within tb) as Hall.
  { induction 1 as [|tb now _ [Hs Hw]]; [done|].
    split; [by apply turn_sound|by apply turn_within]. }
  intros tb [Hs Hw]%Hall. split; [done|]. intros now.
  split; [by apply refill_within|by apply turn_within].
Qed.

End TokenBucket.

Section TokenBucketScenario.
Import ratelimit scenario.
Local Open Scope float_scope.

Lemma tokens_within_capacity_witness :
  tokens bucket = capacity bucket ∧
  ∀ tb, reached bucket tb →
    within tb ∧ ∀ now, within (refill tb now) ∧ within (turn tb now).1.
Proof. apply (tokens_within_capacity 2 3 time.test_instant). reflexivity. Defined.

(** The first three turns at the very instant take a token each, the
    fourth finds the bucket empty and a whole token missing. *)
Example burst_of_three :
  let t := time.test_instant in
  let tb1 := (turn bucket t).1 in
  let tb2 := (turn tb1 t).1 in
  let tb3 := (turn tb2 t).1 in
  (turn bucket t).2 = None ∧ (turn tb1 t).2 = None ∧ (turn tb2 t).2 = None ∧
  (turn tb3 t).2 = Some 1 ∧ tokens tb3 = 0.
Proof. vm_compute. by repeat split. Qed.

(** C8 as stated fails for a rate that is not a number: the guard of the
    constructor lets it through, and the first refill leaves the counter
    not a number, neither at least zero nor at most the capacity; from then
    on no turn grants a token. *)
Lemma rate_not_a_number :
  ∃ (tokensPerSecond : float) (burst : Z) (now0 now1 now2 : time.Time) (tb : TokenBucket),
    tb = refill (NewTokenBucket tokensPerSecond burst now0) now1 ∧
    reached (NewTokenBucket tokensPerSecond burst now0) (turn tb now2).1 ∧
    is_nan (tokens tb) = true ∧
    (0 <=? tokens tb) = false ∧ (tokens tb <=? capacity tb) = false ∧
    (0 <=? tokens (turn tb now2).1) = false ∧
    (turn tb now2).2 ≠ None.
Proof.
  exists nan, 3%Z, time.test_instant, (time.Add time.test_instant time.Second),
    (time.Add time.test_instant (2 * time.Second)%Z).
  eexists. split; [reflexivity|]. split.
  - change (refill (NewTokenBucket nan 3 time.test_instant)
                   (time.Add time.test_instant time.Second))
      with (turn (NewTokenBucket nan 3 time.test_instant)
                 (time.Add time.test_instant time.Second)).1.
    do 2 apply reached_turn. apply reached_new.
  - vm_compute. by repeat split.
Qed.

End TokenBucketScenario.

(** ** The aggregator: what the rows look like *)

Section AggregatorRows.
Import aggregate.
Context {U : Unicode}.
Variables (now : time.Time) (includeSides : bool).

Lemma dom_collapse quotes :
  dom (collapse now includeSides quotes)
  = (list_to_set (keyOf includeSides <$> quotes) : gset MarketKey).
Proof.
  apply set_eq. intros k.
  rewrite elem_of_dom, elem_of_list_to_set, list_elem_of_fmap.
  pose proof (tabulated_collapse now includeSides quotes k) as Htab.
  destruct (collapse now includeSides quotes !! k) as [r|] eqn:Ek.
  - destruct Htab as (i & q & [Hq _]%winner_latest & Hk & _).
    split; [|by eauto]. intros _. by exists q.
  - split; [by intros [? ?]|]. intros (q & -> & Hq). by destruct (Htab q Hq).
Qed.

Lemma rowKey_values quotes :
  rowKey <$> values (collapse now includeSides quotes)
  = (map_to_list (collapse now includeSides quotes)).*1.
Proof.
  unfold values. rewrite <- list_fmap_compose.
  apply list_fmap_ext. intros i [k r] Hi. simpl.
  apply list_elem_of_lookup_2, elem_of_map_to_list in Hi.
  by eapply collapse_rowKey.
Qed.

Lemma LatestByMarket_perm range quotes :
  rangeOrder range →
  LatestByMarket range now quotes includeSides
  ≡ₚ values (collapse now includeSides quotes).
Proof. intros Hrange. unfold LatestByMarket. by rewrite sortSlice_perm, (Hrange _). Qed.

Lemma size_list_to_set_le (l : list MarketKey) :
  (size (list_to_set l : gset MarketKey) ≤ length l)%nat.
Proof.
  induction l as [|k l IH].
  { change (size (∅ : gset MarketKey) ≤ 0)%nat. by rewrite size_empty. }
  change (size ({[k]} ∪ list_to_set l : gset MarketKey) ≤ S (length l))%nat.
  destruct (decide (k ∈ (list_to_set l : gset MarketKey))).
  - rewrite (subseteq_union_1_L (C := gset MarketKey) {[k]} (list_to_set l)); [lia|].
    by apply singleton_subseteq_l.
  - rewrite size_union by set_solver. rewrite size_singleton. lia.
Qed.

(** X1. The rows of [LatestByMarket] stand in the order of [sort.Slice]:
    no row comes before one that [less] puts before it, so they ascend by
    symbol, then market, then side. *)
Theorem LatestByMarket_sorted range quotes :
  StronglySorted (fun a b => less b a = false ∧ lex a b ≠ Gt)
                 (LatestByMarket range now quotes includeSides).
Proof.
  unfold LatestByMarket.
  pose proof (sortSlice_sorted (range (values (collapse now includeSides quotes)))) as Hs.
  apply Sorted_StronglySorted in Hs; [|apply _].
  induction Hs as [|a l _ IH Hall]; constructor; [done|].
  eapply Forall_impl; [exact Hall|].
  intros b Hab. split; [exact Hab|by apply notAfter_lex].
Qed.

(** X2. [LatestByMarket] returns one row for each key (symbol, market,
    side or blank, currency) that occurs among the quotes: the keys of the
    rows differ, there are as many rows as keys, and no more than quotes. *)
Theorem LatestByMarket_one_row_per_key range quotes :
  rangeOrder range →
  let out := LatestByMarket range now quotes includeSides in
  NoDup (rowKey <$> out) ∧
  length out = size (list_to_set (keyOf includeSides <$> quotes) : gset MarketKey) ∧
  (length out ≤ length quotes)%nat ∧
  (∀ k, k ∈ rowKey <$> out ↔ ∃ q, q ∈ quotes ∧ keyOf includeSides q = k).
Proof.
  intros Hrange out.
  pose proof (LatestByMarket_perm range quotes Hrange) as Hperm. fold out in Hperm.
  assert (length out = size (list_to_set (keyOf includeSides <$> quotes) : gset MarketKey))
    as Hlen.
  { rewrite Hperm. unfold values.
    by rewrite length_fmap, <- dom_collapse, size_dom, length_map_to_list. }
  split_and!.
  - rewrite Hperm, rowKey_values. apply NoDup_fst_map_to_list.
  - done.
  - rewrite Hlen. etrans; [apply size_list_to_set_le|]. by rewrite length_fmap.
  - intros k. rewrite Hperm, rowKey_values.
    assert (k ∈ (map_to_list (collapse now includeSides quotes)).*1
            ↔ k ∈ dom (collapse now includeSides quotes)) as ->.
    { rewrite elem_of_dom, list_elem_of_fmap. split.
      - intros ([k' r] & -> & Hin%elem_of_map_to_list). by eexists.
      - intros [r Hr]. exists (k, r). split; [done|]. by apply elem_of_map_to_list. }
    rewrite dom_collapse, elem_of_list_to_set, list_elem_of_fmap.
    split; [intros (q & -> & Hq)|intros (q & Hq & <-)]; by exists q.
Qed.

(** X3. Every row is made from one of the quotes: it has that quote's
    symbol, currency and price and the name before the first colon of its
    source as provider; its side is blank when sides are ignored; and its
    timestamp is the quote's, or the processing time for a quote without
    one, so that no row carries the zero time. *)
Theorem LatestByMarket_rows range quotes r :
  rangeOrder range → time.IsZero now = false →
  r ∈ LatestByMarket range now quotes includeSides →
  (∃ q, q ∈ quotes ∧ r = rowOf now includeSides q ∧
        Symbol r = provider.Symbol q ∧ Currency r = provider.Currency q ∧
        Price r = provider.Price q ∧ Provider r = providerName (provider.Source q) ∧
        (time.IsZero (provider.ReceivedAt q) = false → ReceivedAt r = provider.ReceivedAt q) ∧
        (time.IsZero (provider.ReceivedAt q) = true → ReceivedAt r = now)) ∧
  (includeSides = false → Side r = "") ∧
  time.IsZero (ReceivedAt r) = false.
Proof.
  intros Hrange Hnow [k Hk]%elem_of_LatestByMarket; [|done].
  apply collapse_Some in Hk as (i & q & [Hq _]%winner_latest & _ & ->).
  split_and!.
  - exists q. split_and!; try done; simpl; unfold effectiveTime; by intros ->.
  - simpl. unfold sideOf. by intros ->.
  - simpl. unfold effectiveTime.
    by destruct (time.IsZero (provider.ReceivedAt q)) eqn:E.
Qed.

(** X4. A quote that is older than a quote of its group already in the
    list changes nothing when it is appended: the result is the same list
    of rows. *)
Theorem stale_quote_changes_nothing range quotes q q' :
  q' ∈ quotes → keyOf includeSides q' = keyOf includeSides q →
  effectiveTime now q < effectiveTime now q' →
  LatestByMarket range now (quotes ++ [q]) includeSides
  = LatestByMarket range now quotes includeSides.
Proof.
  intros Hq' Hkey Hlt. unfold LatestByMarket. do 3 f_equal.
  unfold collapse. rewrite foldl_app. simpl. fold (collapse now includeSides quotes).
  unfold step.
  pose proof (tabulated_collapse now includeSides quotes (keyOf includeSides q)) as Htab.
  destruct (collapse now includeSides quotes !! keyOf includeSides q) as [cur|] eqn:Ek.
  - destruct Htab as (i & q0 & [_ Hmax]%winner_latest & Hk & ->).
    assert (effectiveTime now q' ≤ effectiveTime now q0) by (apply Hmax; congruence).
    simpl. unfold time.After, time.Equal.
    destruct (Z.ltb_spec (effectiveTime now q0) (effectiveTime now q)); [lia|].
    destruct (Z.eqb_spec (effectiveTime now q) (effectiveTime now q0)); [lia|done].
  - by destruct (Htab q' Hq').
Qed.

End AggregatorRows.

Section AggregatorRowsScenario.
Import aggregate scenario.
#[local] Existing Instance GoStrings.ascii_text.

Lemma LatestByMarket_one_row_per_key_witness :
  let out := LatestByMarket id time.test_instant [tieP1; tieP2; yuanP2] false in
  NoDup (rowKey <$> out) ∧
  length out = size (list_to_set (keyOf false <$> [tieP1; tieP2; yuanP2]) : gset MarketKey) ∧
  (length out ≤ 3)%nat ∧
  (∀ k, k ∈ rowKey <$> out ↔ ∃ q, q ∈ [tieP1; tieP2; yuanP2] ∧ keyOf false q = k).
Proof.
  apply (LatestByMarket_one_row_per_key time.test_instant false id [tieP1; tieP2; yuanP2]).
  by intros l.
Defined.

Lemma LatestByMarket_rows_witness :
  let r := scenarioRow time.test_instant in
  (∃ q, q ∈ [scenarioP1 time.test_instant; scenarioP2 time.test_instant] ∧
        r = rowOf time.test_instant false q ∧
        Symbol r = provider.Symbol q ∧ Currency r = provider.Currency q ∧
        Price r = provider.Price q ∧ Provider r = providerName (provider.Source q) ∧
        (time.IsZero (provider.ReceivedAt q) = false → ReceivedAt r = provider.ReceivedAt q) ∧
        (time.IsZero (provider.ReceivedAt q) = true → ReceivedAt r = time.test_instant)) ∧
  (false = false → Side r = "") ∧
  time.IsZero (ReceivedAt r) = false.
Proof.
  refine (LatestByMarket_rows time.test_instant false id
            [scenarioP1 time.test_instant; scenarioP2 time.test_instant]
            (scenarioRow time.test_instant) _ _ _).
  - by intros l.
  - reflexivity.
  - vm_compute. apply list_elem_of_here.
Defined.

Lemma stale_quote_changes_nothing_witness :
  LatestByMarket id time.test_instant
    ([scenarioP2 time.test_instant] ++ [scenarioP1 time.test_instant]) false
  = LatestByMarket id time.test_instant [scenarioP2 time.test_instant] false.
Proof.
  apply (stale_quote_changes_nothing time.test_instant false id
           [scenarioP2 time.test_instant] (scenarioP1 time.test_instant)
           (scenarioP2 time.test_instant)).
  - apply list_elem_of_here.
  - reflexivity.
  - reflexivity.
Defined.

End AggregatorRowsScenario.

(** ** The cache decorator: requests, entries and the cap *)

Section CacheRequests.
Import cache.

Lemma unique_spec seen l :
  NoDup (unique seen l) ∧ unique seen l `sublist_of` l ∧
  ∀ s, s ∈ unique seen l ↔ s ∈ l ∧ s ∉ seen.
Proof.
  revert seen. induction l as [|s l IH]; intros seen; simpl.
  - split_and!; [constructor|done|]. intros s. rewrite elem_of_nil. tauto.
  - destruct (decide (s ∈ seen)) as [Hin|Hout].
    + destruct (IH seen) as (Hnd & Hsub & Hel). split_and!; [done|by constructor|].
      intros s'. rewrite Hel, elem_of_cons. split; [tauto|].
      intros [[->|?] ?]; tauto.
    + destruct (IH ({[s]} ∪ seen)) as (Hnd & Hsub & Hel). split_and!.
      * constructor; [|done]. rewrite Hel, elem_of_union, elem_of_singleton. tauto.
      * by constructor.
      * intros s'. rewrite !elem_of_cons, Hel, elem_of_union, elem_of_singleton.
        destruct (decide (s' = s)) as [->|]; tauto.
Qed.

(** Of two symbols that [unique] keeps, the first stands in the list
    before any occurrence of the second. *)
Lemma unique_order seen l r1 a r2 b r3 :
  unique seen l = (r1 ++ a :: r2 ++ b :: r3)%list →
  ∃ l1 l2, l = (l1 ++ a :: l2)%list ∧ b ∉ l1.
Proof.
  revert seen r1. induction l as [|s l IH]; intros seen r1 Hu; simpl in Hu.
  { by destruct r1. }
  assert (∀ seen' r1', unique seen' l = (r1' ++ a :: r2 ++ b :: r3)%list →
                       s ∈ seen' →
                       ∃ l1 l2, s :: l = (l1 ++ a :: l2)%list ∧ b ∉ l1) as Hrest.
  { intros seen' r1' Hu' Hs. destruct (IH _ _ Hu') as (l1 & l2 & -> & Hb).
    exists (s :: l1), l2. split; [done|]. apply not_elem_of_cons. split; [|done].
    intros ->. destruct (unique_spec seen' (l1 ++ a :: l2)) as (_ & _ & Hel).
    assert (s ∈ unique seen' (l1 ++ a :: l2)) as Hin.
    { rewrite Hu'. rewrite elem_of_app, elem_of_cons, elem_of_app, elem_of_cons. tauto. }
    apply Hel in Hin. tauto. }
  destruct (decide (s ∈ seen)) as [Hin|Hout].
  - by apply (Hrest seen r1).
  - destruct r1 as [|s' r1]; injection Hu as <- Hu.
    + exists [], l. split; [done|]. apply not_elem_of_nil.
    + apply (Hrest ({[s]} ∪ seen) r1); [done|].
      apply elem_of_union. left. by apply elem_of_singleton.
Qed.

Lemma filter_order {A} (P : A → Prop) `{∀ x, Decision (P x)} (l m1 : list A) a m2 b :
  filter P l = (m1 ++ a :: m2)%list → P b → b ∉ m1 →
  ∃ l1 l2, l = (l1 ++ a :: l2)%list ∧ b ∉ l1.
Proof.
  revert m1. induction l as [|x l IH]; intros m1 Hf HP Hb.
  { by destruct m1. }
  rewrite filter_cons in Hf. destruct (decide (P x)) as [Hx|Hx].
  - destruct m1 as [|x' m1]; injection Hf as <- Hf.
    + exists [], l. split; [done|]. apply not_elem_of_nil.
    + apply not_elem_of_cons in Hb as [Hne Hb].
      destruct (IH _ Hf HP Hb) as (l1 & l2 & -> & Hl1).
      exists (x :: l1), l2. split; [done|]. by apply not_elem_of_cons.
  - destruct (IH _ Hf HP Hb) as (l1 & l2 & -> & Hl1).
    exists (x :: l1), l2. split; [done|]. apply not_elem_of_cons. split; [|done].
    by intros ->.
Qed.

(** X5. When the decorator caches and calls the wrapped provider, it asks
    for the requested symbols without an unexpired entry, and for nothing
    else: each once, in the order of their first occurrence in the
    request, that is, of two symbols it asks for, the one asked first
    stands in the request before any occurrence of the other. *)
Theorem upstream_asked_for_stale_only c now symbols req :
  0 < TTL c → upstreamCall c now symbols = Some req →
  NoDup req ∧ req `sublist_of` symbols ∧
  (∃ s, s ∈ req) ∧
  (∀ s, s ∈ req ↔ s ∈ symbols ∧ fresh now (items c) s = false) ∧
  (∀ r1 a r2 b r3, req = (r1 ++ a :: r2 ++ b :: r3)%list →
     ∃ l1 l2, symbols = (l1 ++ a :: l2)%list ∧ b ∉ l1).
Proof.
  intros Httl. unfold upstreamCall.
  destruct (Z.leb_spec (TTL c) 0); [lia|].
  destruct (missingSet now (items c) symbols) as [|s0 l0] eqn:Em; [done|].
  intros [= <-]. unfold missing.
  destruct (unique_spec ∅ (missingSet now (items c) symbols)) as (Hnd & Hsub & Hel).
  assert (∀ s, s ∈ missingSet now (items c) symbols
               ↔ s ∈ symbols ∧ fresh now (items c) s = false) as Hmiss.
  { intros s. unfold missingSet. rewrite list_elem_of_filter. tauto. }
  split_and!.
  - done.
  - etrans; [exact Hsub|]. unfold missingSet. apply sublist_filter.
  - exists s0. rewrite Hel, Em. split; [apply list_elem_of_here|apply not_elem_of_empty].
  - intros s. rewrite Hel, Hmiss. pose proof (not_elem_of_empty (C := gset string) s). tauto.
  - intros r1 a r2 b r3 Hreq.
    destruct (unique_order _ _ _ _ _ _ _ Hreq) as (m1 & m2 & Hm & Hb).
    assert (b ∈ missingSet now (items c) symbols) as Hbin.
    { apply (Hel b). rewrite Hreq.
      rewrite elem_of_app, elem_of_cons, elem_of_app, elem_of_cons. tauto. }
    apply Hmiss in Hbin as [_ Hstale].
    unfold missingSet in Hm. by eapply filter_order.
Qed.

End CacheRequests.

Section CacheEntries.
Import cache.

Lemma index_lookup freshQuotes s :
  index freshQuotes !! s
  = match filter (fun q => provider.Symbol q = s) freshQuotes with
    | [] => None
    | qs => Some qs
    end.
Proof.
  unfold index. induction freshQuotes as [|q l IH] using rev_ind; [done|].
  rewrite foldl_app, filter_app. simpl.
  destruct (decide (provider.Symbol q = s)) as [<-|Hne].
  - rewrite lookup_insert_eq, IH, filter_cons_True, filter_nil by done.
    by destruct (filter _ l).
  - rewrite lookup_insert_ne, IH, filter_cons_False, filter_nil, app_nil_r by done.
    done.
Qed.

Lemma index_Some freshQuotes s qs :
  index freshQuotes !! s = Some qs →
  qs = filter (fun q => provider.Symbol q = s) freshQuotes.
Proof. rewrite index_lookup. destruct (filter _ _); [done|by intros [= <-]]. Qed.

Lemma index_is_Some freshQuotes q :
  q ∈ freshQuotes →
  index freshQuotes !! provider.Symbol q
  = Some (filter (fun q' => provider.Symbol q' = provider.Symbol q) freshQuotes).
Proof.
  intros Hq. rewrite index_lookup.
  assert (q ∈ filter (fun q' => provider.Symbol q' = provider.Symbol q) freshQuotes) as Hin.
  { by apply list_elem_of_filter. }
  destruct (filter _ _); [by apply elem_of_nil in Hin|done].
Qed.

Lemma keyed_Fetch c env symbols :
  keyed (items c) → keyed (items (Fetch c env symbols).2).
Proof.
  intros Hkeyed. unfold Fetch.
  destruct (Z.leb_spec (TTL c) 0); [done|].
  destruct (missingSet _ _ _) as [|s0 l0]; [done|].
  destruct (P_Fetch _ _) as [freshQuotes [err|]].
  { by destruct (_ <? _)%nat. }
  simpl. intros s e q [(qs & Hqs & Hq)|He]%store_lookup Hin; [|by eapply Hkeyed].
  apply index_Some in Hqs. rewrite Hq, Hqs in Hin.
  by apply list_elem_of_filter in Hin as [? _].
Qed.

Lemma reachable_keyed c : reachable c → keyed (items c).
Proof.
  induction 1 as [ttl maxItems|c env symbols _ IH].
  - intros s e q. simpl. by rewrite lookup_empty.
  - by apply keyed_Fetch.
Qed.

Lemma elem_of_cachedQuotes now m symbols q :
  q ∈ cachedQuotes now m symbols ↔
  ∃ s e, s ∈ symbols ∧ m !! s = Some e ∧ time.Before now (expiresAt e) = true ∧
         q ∈ quotes e.
Proof.
  unfold cachedQuotes. rewrite list_elem_of_In, in_flat_map. split.
  - intros (s & Hs%list_elem_of_In & Hq%list_elem_of_In).
    destruct (m !! s) as [e|] eqn:E; [|by apply elem_of_nil in Hq].
    destruct (time.Before now (expiresAt e)) eqn:B; [|by apply elem_of_nil in Hq].
    by exists s, e.
  - intros (s & e & Hs & E & B & Hq). exists s.
    split; [by apply list_elem_of_In|]. rewrite E, B. by apply list_elem_of_In.
Qed.

(** X6. A decorator that caches serves the request and nothing else:
    every quote [Fetch] returns bears a requested symbol, and it is either
    a quote the wrapped provider just returned, without error, or a quote
    of the entry of its symbol, which has not expired.  An expired entry
    is never served. *)
Theorem Fetch_serves_the_request c env symbols q :
  reachable c → 0 < TTL c → q ∈ (Fetch c env symbols).1.1 →
  provider.Symbol q ∈ symbols ∧
  ((∃ req, upstreamCall c (now env) symbols = Some req ∧
           (P_Fetch env req).2 = None ∧ q ∈ (P_Fetch env req).1) ∨
   (∃ e, items c !! provider.Symbol q = Some e ∧
         time.Before (now env) (expiresAt e) = true ∧ q ∈ quotes e)).
Proof.
  intros Hkeyed%reachable_keyed Httl. unfold Fetch, upstreamCall.
  destruct (Z.leb_spec (TTL c) 0); [lia|].
  assert (q ∈ cachedQuotes (now env) (items c) symbols →
          provider.Symbol q ∈ symbols ∧
          ∃ e, items c !! provider.Symbol q = Some e ∧
               time.Before (now env) (expiresAt e) = true ∧ q ∈ quotes e) as Hcached.
  { intros (s & e & Hs & E & B & Hq)%elem_of_cachedQuotes.
    rewrite (Hkeyed s e q E Hq). eauto. }
  destruct (missingSet _ _ _) as [|s0 l0] eqn:Em.
  { simpl. intros [? ?]%Hcached. eauto. }
  destruct (P_Fetch env _) as [freshQuotes [err|]] eqn:Ep.
  { destruct (_ <? _)%nat; simpl; [|by intros ?%elem_of_nil].
    intros [? ?]%Hcached. eauto. }
  simpl. unfold merge. rewrite list_elem_of_In, in_flat_map.
  intros (s & Hs%list_elem_of_In & Hq%list_elem_of_In).
  destruct (index freshQuotes !! s) as [qs|] eqn:Ei.
  - apply index_Some in Ei. rewrite Ei in Hq.
    apply list_elem_of_filter in Hq as [-> Hq].
    split; [done|]. left. eexists. split; [done|]. by rewrite Ep.
  - destruct (store c env (index freshQuotes) !! s) as [e|] eqn:Es;
      [|by apply elem_of_nil in Hq].
    destruct (time.Before (now env) (expiresAt e)) eqn:B; [|by apply elem_of_nil in Hq].
    apply store_lookup in Es as [(qs & Hqs & _)|He]; [congruence|].
    rewrite (Hkeyed s e q He Hq). split; [done|]. right. eauto.
Qed.

Lemma size_index freshQuotes : (size (index freshQuotes) ≤ length freshQuotes)%nat.
Proof.
  unfold index. induction freshQuotes as [|q l IH] using rev_ind.
  - simpl. by rewrite map_size_empty.
  - rewrite foldl_app, length_app. simpl.
    set (m := foldl _ ∅ l) in *.
    destruct (m !! provider.Symbol q) as [qs|] eqn:E.
    + rewrite map_size_insert_Some by done. lia.
    + rewrite map_size_insert_None by done. lia.
Qed.

Lemma size_union_le (m1 m2 : gmap string entry) :
  (size (m1 ∪ m2) ≤ size m1 + size m2)%nat.
Proof.
  rewrite <- !size_dom, dom_union_L, size_union_alt.
  assert (size (dom m2 ∖ dom m1) ≤ size (dom m2))%nat; [|lia].
  apply subseteq_size. by apply subseteq_difference_l.
Qed.

Lemma flat_map_ext_elem {A B} (f g : A → list B) (l : list A) :
  (∀ x, x ∈ l → f x = g x) → flat_map f l = flat_map g l.
Proof.
  induction l as [|x l IH]; intros Hfg; [done|]. simpl.
  rewrite (Hfg x) by apply list_elem_of_here.
  by rewrite IH by (intros y Hy; apply Hfg; by right).
Qed.

Lemma missingSet_nil now m symbols :
  (∀ s, s ∈ symbols → fresh now m s = true) → missingSet now m symbols = [].
Proof.
  unfold missingSet. induction symbols as [|s l IH]; intros Hall; [done|].
  rewrite filter_cons_False.
  - apply IH. intros s' Hs'. apply Hall. by right.
  - by rewrite (Hall s) by apply list_elem_of_here.
Qed.

Lemma store_uncapped c env bySymbol :
  MaxItems c ≤ 0 ∨
  Z.of_nat (size (items c) + size bySymbol) ≤ MaxItems c →
  store c env bySymbol
  = ((fun qs => {| expiresAt := time.Add (now env) (TTL c); quotes := qs |}) <$> bySymbol)
      ∪ items c.
Proof.
  intros Hcap. unfold store.
  set (m := _ ∪ items c).
  destruct (Z.ltb_spec 0 (MaxItems c)); [|done].
  destruct (Z.ltb_spec (MaxItems c) (Z.of_nat (size m))) as [Hlt|]; [|done].
  exfalso. destruct Hcap as [|Hcap]; [lia|].
  pose proof (size_union_le
    ((fun qs => {| expiresAt := time.Add (now env) (TTL c); quotes := qs |}) <$> bySymbol)
    (items c)) as Hle.
  fold m in Hle. rewrite map_size_fmap in Hle. lia.
Qed.

(** X7. What the wrapped provider returned is served from the cache until
    it expires.  After a call that stored a quote for every requested
    symbol (the cache being without a cap, or with room for what came), a
    call for the same symbols before [TTL] has passed does not reach the
    wrapped provider and returns the same quotes: those of the answer, by
    symbol, in the order of the request. *)
Theorem stored_then_served c env env' symbols req freshQuotes :
  0 < TTL c →
  MaxItems c ≤ 0 ∨ Z.of_nat (size (items c) + length freshQuotes) ≤ MaxItems c →
  upstreamCall c (now env) symbols = Some req →
  P_Fetch env req = (freshQuotes, None) →
  (∀ s, s ∈ symbols → ∃ q, q ∈ freshQuotes ∧ provider.Symbol q = s) →
  now env' < time.Add (now env) (TTL c) →
  let c' := (Fetch c env symbols).2 in
  (Fetch c env symbols).1
  = (flat_map (fun s => filter (fun q => provider.Symbol q = s) freshQuotes) symbols,
     None) ∧
  upstreamCall c' (now env') symbols = None ∧
  Fetch c' env' symbols = ((Fetch c env symbols).1, c').
Proof.
  intros Httl Hcap Hcall Hp Hall Hnow.
  assert (∀ s, s ∈ symbols →
            index freshQuotes !! s
            = Some (filter (fun q => provider.Symbol q = s) freshQuotes)) as Hidx.
  { intros s (q & Hq & <-)%Hall. by apply index_is_Some. }
  unfold upstreamCall in Hcall.
  destruct (Z.leb_spec (TTL c) 0) as [|Hgt]; [lia|].
  destruct (missingSet (now env) (items c) symbols) as [|s0 l0] eqn:Em; [done|].
  injection Hcall as <-.
  set (m := ((fun qs => {| expiresAt := time.Add (now env) (TTL c); quotes := qs |})
               <$> index freshQuotes) ∪ items c).
  assert (∀ s, s ∈ symbols →
            m !! s = Some {| expiresAt := time.Add (now env) (TTL c);
                             quotes := filter (fun q => provider.Symbol q = s) freshQuotes |})
    as Hm.
  { intros s Hs. unfold m. apply lookup_union_Some_l.
    by rewrite lookup_fmap, (Hidx s Hs). }
  assert (Fetch c env symbols
          = ((flat_map (fun s => filter (fun q => provider.Symbol q = s) freshQuotes) symbols,
              None),
             {| TTL := TTL c; MaxItems := MaxItems c; items := m |})) as Hfirst.
  { unfold Fetch. destruct (Z.leb_spec (TTL c) 0); [lia|].
    rewrite Em, Hp. cbn [fst snd]. rewrite store_uncapped.
    2:{ destruct Hcap as [|Hcap]; [by left|right].
        pose proof (size_index freshQuotes). lia. }
    fold m. do 2 f_equal.
    unfold merge. apply flat_map_ext_elem. intros s Hs. by rewrite (Hidx s Hs). }
  rewrite Hfirst. cbn [fst snd]. cbv zeta.
  assert (∀ s, s ∈ symbols → fresh (now env') m s = true) as Hfresh.
  { intros s Hs. unfold fresh. rewrite (Hm s Hs). simpl. unfold time.Before.
    by destruct (Z.ltb_spec (now env') (time.Add (now env) (TTL c))); [|lia]. }
  assert (cachedQuotes (now env') m symbols
          = flat_map (fun s => filter (fun q => provider.Symbol q = s) freshQuotes) symbols)
    as Hcached.
  { unfold cachedQuotes. apply flat_map_ext_elem. intros s Hs.
    pose proof (Hfresh s Hs) as Hf. unfold fresh in Hf.
    rewrite (Hm s Hs) in Hf |- *. simpl in *. by rewrite Hf. }
  split_and!; [done| |].
  - unfold upstreamCall. cbn [TTL items]. destruct (Z.leb_spec (TTL c) 0); [lia|].
    by rewrite missingSet_nil.
  - unfold Fetch. cbn [TTL items]. destruct (Z.leb_spec (TTL c) 0); [lia|].
    by rewrite missingSet_nil, Hcached.
Qed.

Lemma evictAny_size cap ks m :
  0 ≤ cap → (∀ k, is_Some (m !! k) → k ∈ ks) →
  Z.of_nat (size (evictAny cap ks m)) ≤ cap.
Proof.
  intros Hcap. revert m. induction ks as [|k ks IH]; intros m Hks; simpl.
  - assert (m = ∅) as ->; [|by rewrite map_size_empty].
    apply map_empty. intros k. apply eq_None_not_Some. by intros ?%Hks%elem_of_nil.
  - destruct (Z.leb_spec (Z.of_nat (size m)) cap); [done|].
    apply IH. intros k' [e [Hne He]%lookup_delete_Some].
    pose proof (Hks k' (ex_intro _ e He)) as Hin.
    by apply elem_of_cons in Hin as [->|Hin].
Qed.

(** X8. The cap holds: in a decorator with [MaxItems > 0] whose cache is
    within the cap, the cache is within the cap after [Fetch], whatever
    the wrapped provider returned and whatever has expired, provided the
    second eviction loop ranges over all the entries, as Go does. *)
Theorem Fetch_keeps_the_cap c env symbols :
  0 < MaxItems c → rangesOverKeys (rangeAny env) →
  Z.of_nat (size (items c)) ≤ MaxItems c →
  Z.of_nat (size (items (Fetch c env symbols).2)) ≤ MaxItems c.
Proof.
  intros Hcap Hrange Hsize. unfold Fetch.
  destruct (Z.leb_spec (TTL c) 0); [done|].
  destruct (missingSet _ _ _) as [|s0 l0]; [done|].
  destruct (P_Fetch _ _) as [freshQuotes [err|]].
  { by destruct (_ <? _)%nat. }
  simpl. unfold store.
  set (m := _ ∪ items c).
  destruct (Z.ltb_spec 0 (MaxItems c)); [|lia]. simpl.
  destruct (Z.ltb_spec (MaxItems c) (Z.of_nat (size m))); [|done].
  apply evictAny_size; [lia|]. intros k. apply Hrange.
Qed.

End CacheEntries.

Section CacheEntriesScenario.
Import cache scenario.

(** "X" has an unexpired entry: of the request the call keeps "Z" and
    "Y", in this order. *)
Lemma upstream_asked_for_stale_only_witness :
  let symbols := ["Z"; "X"; "Y"; "Z"; "Y"] in
  let req := ["Z"; "Y"] in
  NoDup req ∧ req `sublist_of` symbols ∧
  (∃ s, s ∈ req) ∧
  (∀ s, s ∈ req ↔ s ∈ symbols ∧
                  fresh (time.Add time.test_instant time.Second) (items warmed) s = false) ∧
  (∀ r1 a r2 b r3, req = (r1 ++ a :: r2 ++ b :: r3)%list →
     ∃ l1 l2, symbols = (l1 ++ a :: l2)%list ∧ b ∉ l1).
Proof.
  apply (upstream_asked_for_stale_only warmed
           (time.Add time.test_instant time.Second) ["Z"; "X"; "Y"; "Z"; "Y"] ["Z"; "Y"]).
  - reflexivity.
  - reflexivity.
Defined.

Lemma Fetch_serves_the_request_witness :
  provider.Symbol quoteX ∈ ["X"] ∧
  ((∃ req, upstreamCall warmed (now callDown) ["X"] = Some req ∧
           (P_Fetch callDown req).2 = None ∧ quoteX ∈ (P_Fetch callDown req).1) ∨
   (∃ e, items warmed !! provider.Symbol quoteX = Some e ∧
         time.Before (now callDown) (expiresAt e) = true ∧ quoteX ∈ quotes e)).
Proof.
  apply (Fetch_serves_the_request warmed callDown ["X"] quoteX).
  - apply reachable_Fetch, reachable_literal.
  - reflexivity.
  - vm_compute. apply list_elem_of_here.
Defined.

Lemma stored_then_served_witness :
  let c := literal time.Minute 0 in
  let c' := (Fetch c callWell ["X"]).2 in
  (Fetch c callWell ["X"]).1
  = (flat_map (fun s => filter (fun q => provider.Symbol q = s) [quoteX]) ["X"], None) ∧
  upstreamCall c' (now callDown) ["X"] = None ∧
  Fetch c' callDown ["X"] = ((Fetch c callWell ["X"]).1, c').
Proof.
  apply (stored_then_served (literal time.Minute 0) callWell callDown ["X"] ["X"] [quoteX]).
  - reflexivity.
  - left. reflexivity.
  - reflexivity.
  - reflexivity.
  - intros s ->%list_elem_of_singleton. exists quoteX. split; [apply list_elem_of_here|done].
  - reflexivity.
Defined.

Lemma Fetch_keeps_the_cap_witness :
  Z.of_nat (size (items (Fetch (literal time.Minute 1) callWell ["X"; "Y"]).2)) ≤ 1.
Proof.
  apply (Fetch_keeps_the_cap (literal time.Minute 1) callWell ["X"; "Y"]).
  - reflexivity.
  - intros m k [e He]. simpl. apply list_elem_of_fmap. exists (k, e).
    split; [done|]. by apply elem_of_map_to_list.
  - by vm_compute.
Defined.

End CacheEntriesScenario.

(** ** Strings: splitting and trimming what was put together *)

Section Strings.
Import GoStrings.

Lemma Index_bounds s sep : Index s sep = -1 ∨ 0 ≤ Index s sep.
Proof.
  induction s as [|c s IH]; simpl; [by left|].
  destruct (Ascii.eqb c sep); [by right|].
  destruct (Z.ltb_spec (Index s sep) 0); [by left|right; lia].
Qed.

Lemma Index_cons c s sep :
  Index (String c s) sep = -1 ↔ c ≠ sep ∧ Index s sep = -1.
Proof.
  simpl. destruct (Ascii.eqb_spec c sep) as [->|Hne].
  - split; [done|]. by intros [? _].
  - destruct (Index_bounds s sep) as [E|E].
    + rewrite E. simpl. tauto.
    + destruct (Z.ltb_spec (Index s sep) 0); [lia|]. split; [lia|]. intros [_ ?]. lia.
Qed.

Lemma Index_app a b sep :
  Index (a ++ b) sep = -1 ↔ Index a sep = -1 ∧ Index b sep = -1.
Proof.
  induction a as [|c a IH]; [simpl; tauto|].
  change (String c a ++ b) with (String c (a ++ b)).
  rewrite !Index_cons, IH. tauto.
Qed.

Lemma Split_cons c s sep :
  c ≠ sep →
  Split (String c s) sep
  = String c (hd "" (Split s sep)) :: tail (Split s sep).
Proof.
  intros Hne. simpl. destruct (Ascii.eqb_spec c sep); [done|].
  pose proof (Split_nonempty s sep). by destruct (Split s sep).
Qed.

(** No separator, one piece. *)
Lemma Split_whole s sep : Index s sep = -1 → Split s sep = [s].
Proof.
  induction s as [|c s IH]; [done|].
  intros [Hne Hs]%Index_cons. by rewrite Split_cons, IH.
Qed.

(** The first separator ends the first piece. *)
Lemma Split_app a b sep :
  Index a sep = -1 → Split (a ++ String sep b) sep = a :: Split b sep.
Proof.
  induction a as [|c a IH].
  - intros _. simpl. by rewrite Ascii.eqb_refl.
  - intros [Hne Ha]%Index_cons.
    change (String c a ++ String sep b) with (String c (a ++ String sep b)).
    by rewrite Split_cons, IH.
Qed.

(** The pieces hold no separator. *)
Lemma Split_pieces s sep : Forall (fun p => Index p sep = -1) (Split s sep).
Proof.
  induction s as [|c s IH]; simpl; [by constructor|].
  destruct (Ascii.eqb_spec c sep) as [->|Hne]; [by constructor|].
  pose proof (Split_nonempty s sep).
  destruct (Split s sep) as [|p ps]; [done|].
  apply Forall_cons in IH as [Hp Hps]. constructor; [|done].
  by apply Index_cons.
Qed.

Lemma trimLeft_cons c s :
  asciiSpace c = false → trimLeft (String c s) = String c s.
Proof. intros Hc. simpl. by rewrite Hc. Qed.

Lemma trimLeft_app a c s :
  asciiSpace c = false → trimLeft (a ++ String c s) = trimLeft a ++ String c s.
Proof.
  intros Hc. induction a as [|d a IH]; simpl; [by rewrite Hc|].
  by destruct (asciiSpace d).
Qed.

Lemma trimLeft_idemp s : trimLeft (trimLeft s) = trimLeft s.
Proof.
  induction s as [|c s IH]; [done|]. simpl.
  destruct (asciiSpace c) eqn:E; [done|]. simpl. by rewrite E.
Qed.

Lemma trimLeft_Index s sep : Index s sep = -1 → Index (trimLeft s) sep = -1.
Proof.
  induction s as [|c s IH]; [done|]. intros H. simpl.
  destruct (asciiSpace c); [|done]. apply IH. by apply Index_cons in H as [_ ?].
Qed.

Lemma trimRight_Index s sep : Index s sep = -1 → Index (trimRight s) sep = -1.
Proof.
  induction s as [|c s IH]; [done|]. intros [Hne Hs]%Index_cons. simpl.
  specialize (IH Hs). destruct (trimRight s) as [|d r].
  - destruct (asciiSpace c); [done|]. by apply Index_cons.
  - by apply Index_cons.
Qed.

Lemma trimRight_cons c s :
  trimRight s ≠ "" → trimRight (String c s) = String c (trimRight s).
Proof. intros Hs. simpl. by destruct (trimRight s). Qed.

(** Nothing is trimmed before a piece that does not vanish. *)
Lemma trimRight_app a b :
  trimRight b ≠ "" → trimRight (a ++ b) = a ++ trimRight b.
Proof.
  intros Hb. induction a as [|c a IH]; [done|].
  change (String c a ++ b) with (String c (a ++ b)).
  rewrite trimRight_cons; rewrite IH; [done| |done..].
  by destruct a.
Qed.

Lemma trimRight_idemp s : trimRight (trimRight s) = trimRight s.
Proof.
  induction s as [|c s IH]; [done|]. simpl.
  destruct (trimRight s) as [|d r] eqn:E.
  - destruct (asciiSpace c) eqn:Ec; [done|]. simpl. by rewrite Ec.
  - rewrite <- E in IH |- *. rewrite trimRight_cons by (by rewrite IH, E).
    by rewrite IH.
Qed.

Lemma trimLeft_nonempty_head s :
  trimLeft s = "" ∨ ∃ c r, trimLeft s = String c r ∧ asciiSpace c = false.
Proof.
  induction s as [|c s IH]; [by left|]. simpl.
  destruct (asciiSpace c) eqn:E; [done|]. right. by exists c, s.
Qed.

Lemma trimRight_trimLeft s : trimLeft (trimRight s) = trimRight (trimLeft s).
Proof.
  induction s as [|c s IH]; [done|]. simpl.
  destruct (asciiSpace c) eqn:Ec.
  - rewrite <- IH. destruct (trimRight s) as [|d r] eqn:E; [done|].
    simpl. by rewrite Ec.
  - destruct (trimRight s) as [|d r] eqn:E; simpl; by rewrite Ec, ?E.
Qed.

Lemma TrimSpace_idemp s :
  @TrimSpace ascii_text (@TrimSpace ascii_text s)
  = @TrimSpace ascii_text s.
Proof.
  simpl. by rewrite (trimRight_trimLeft (trimLeft s)), trimLeft_idemp, trimRight_idemp.
Qed.

Lemma TrimSpace_trimLeft s :
  @TrimSpace ascii_text (trimLeft s) = @TrimSpace ascii_text s.
Proof. simpl. by rewrite trimLeft_idemp. Qed.

Lemma TrimSpace_Index s sep :
  Index s sep = -1 → Index (@TrimSpace ascii_text s) sep = -1.
Proof. intros H. simpl. by apply trimRight_Index, trimLeft_Index. Qed.

End Strings.

(** ** Source tags: what the providers write, the aggregator reads *)

Section Tags.
Import aggregate GoStrings.
#[local] Existing Instance ascii_text.

Ltac colons :=
  repeat match goal with
         | |- context [":" +:+ ?x] => change (":" +:+ x) with (String ":" x)
         end.

Lemma trimRight_cons_nonspace c s :
  asciiSpace c = false → trimRight (String c s) = String c (trimRight s).
Proof. intros Hc. simpl. destruct (trimRight s); by rewrite ?Hc. Qed.

Lemma eqb_app_nonempty a c b : String.eqb (a ++ String c b) "" = false.
Proof. by destruct a. Qed.

Lemma app_assoc_str (a b c : string) : a ++ (b ++ c) = (a ++ b) ++ c.
Proof.
  induction a as [|d a IH]; [done|].
  change (String d (a ++ (b ++ c)) = String d ((a ++ b) ++ c)). by f_equal.
Qed.

Lemma TrimSpace_trimRight s : TrimSpace (trimRight s) = TrimSpace s.
Proof. simpl. by rewrite <- trimRight_trimLeft, trimRight_idemp, trimRight_trimLeft. Qed.

(** A tag of two parts: the market, and no side. *)
Lemma NormalizeSource_two name site :
  Index name ":" = -1 → Index site ":" = -1 →
  NormalizeSource (name ++ ":" ++ site)
  = (let m := TrimSpace site in default m (aliasMap !! ToLower m), "").
Proof.
  intros Hname Hsite. unfold NormalizeSource.
  assert (TrimSpace (name ++ ":" ++ site) = trimLeft name ++ ":" ++ trimRight site) as ->.
  { simpl. colons. rewrite trimLeft_app by done.
    rewrite trimRight_app; by rewrite trimRight_cons_nonspace. }
  colons. rewrite eqb_app_nonempty.
  rewrite Split_app by by apply trimLeft_Index.
  rewrite Split_whole by by apply trimRight_Index.
  cbn [length Nat.eqb].
  change (part [trimLeft name; trimRight site] 0) with (trimLeft name).
  change (part [trimLeft name; trimRight site] 1) with (trimRight site).
  change (part [trimLeft name; trimRight site] 2) with "".
  destruct (String.eqb _ "steamdt"); [|destruct (_ || _)];
    rewrite TrimSpace_trimRight; cbv zeta; by destruct (aliasMap !! _).
Qed.

(** A tag of three parts whose provider is not one without sides: the
    market and the side. *)
Lemma NormalizeSource_three name market side :
  Index name ":" = -1 → Index market ":" = -1 → Index side ":" = -1 →
  trimRight side ≠ "" →
  ToLower (TrimSpace name) ≠ "pricempire" →
  ToLower (TrimSpace name) ≠ "skinstablexyz" →
  NormalizeSource (name ++ ":" ++ market ++ ":" ++ side)
  = (let m := TrimSpace market in default m (aliasMap !! ToLower m),
     ToLower (TrimSpace side)).
Proof.
  intros Hname Hmarket Hside Hsome Hpe Hsx. unfold NormalizeSource.
  assert (TrimSpace (name ++ ":" ++ market ++ ":" ++ side)
          = trimLeft name ++ ":" ++ market ++ ":" ++ trimRight side) as ->.
  { simpl. colons. rewrite trimLeft_app by done.
    change (String ":" (market +:+ String ":" side))
      with (String ":" market +:+ String ":" side).
    rewrite (app_assoc_str (trimLeft name)).
    rewrite trimRight_app; [|by rewrite trimRight_cons_nonspace].
    by rewrite trimRight_cons_nonspace, <- app_assoc_str. }
  colons. rewrite eqb_app_nonempty.
  rewrite Split_app by by apply trimLeft_Index.
  rewrite Split_app by done.
  rewrite Split_whole by by apply trimRight_Index.
  cbn [length Nat.eqb].
  change (part [trimLeft name; market; trimRight side] 0) with (trimLeft name).
  change (part [trimLeft name; market; trimRight side] 1) with market.
  change (part [trimLeft name; market; trimRight side] 2) with (trimRight side).
  rewrite TrimSpace_trimLeft.
  destruct (String.eqb_spec (ToLower (TrimSpace name)) "steamdt");
    [|destruct (String.eqb_spec (ToLower (TrimSpace name)) "pricempire"); [done|];
      destruct (String.eqb_spec (ToLower (TrimSpace name)) "skinstablexyz"); [done|]];
    cbn [orb]; cbv beta iota zeta; rewrite TrimSpace_trimRight;
    by destruct (aliasMap !! _).
Qed.

Lemma Index_app_first a b :
  Index a ":" = -1 → Index (a ++ ":" ++ b) ":" = Z.of_nat (String.length a).
Proof.
  intros Ha. colons. induction a as [|c a IH]; [done|].
  apply Index_cons in Ha as [Hne Ha].
  change (String c a ++ String ":" b) with (String c (a ++ String ":" b)).
  cbn [Index String.length]. destruct (Ascii.eqb_spec c ":"); [done|].
  rewrite (IH Ha). destruct (Z.ltb_spec (Z.of_nat (String.length a)) 0); lia.
Qed.

Lemma prefix_app a b : prefix (a ++ b) (Z.of_nat (String.length a)) = a.
Proof.
  unfold prefix. rewrite Nat2Z.id.
  induction a as [|c a IH]; simpl; [by destruct b|]. by rewrite IH.
Qed.

(** The provider is what stands before the first colon. *)
Lemma providerName_tag name rest :
  Index name ":" = -1 → name ≠ "" → providerName (name ++ ":" ++ rest) = name.
Proof.
  intros Hname Hsome. unfold providerName. rewrite Index_app_first by done.
  colons.
  destruct (Z.ltb_spec 0 (Z.of_nat (String.length name))) as [|Hle].
  - apply prefix_app.
  - destruct name; [done|]. simpl in Hle. lia.
Qed.

End Tags.

(** ** SteamDT: batches *)

Section SteamDTBatches.
Import steamdt.

Lemma length_slice_full (in_ : list string) i size :
  0 ≤ i → 0 ≤ size → i + size ≤ Z.of_nat (length in_) →
  Z.of_nat (length (slice in_ i (i + size))) = size.
Proof.
  intros Hi Hsize Hle. unfold slice. rewrite length_take, length_drop.
  replace (i + size - i) with size by lia. lia.
Qed.

Lemma slice_rest (in_ : list string) i :
  0 ≤ i → slice in_ i (Z.of_nat (length in_)) = drop (Z.to_nat i) in_.
Proof.
  intros Hi. unfold slice. apply take_ge. rewrite length_drop. lia.
Qed.

Lemma slice_step (in_ : list string) i size :
  0 ≤ i → 0 ≤ size →
  (slice in_ i (i + size) ++ drop (Z.to_nat (i + size)) in_)%list = drop (Z.to_nat i) in_.
Proof.
  intros Hi Hsize. unfold slice. replace (i + size - i) with size by lia.
  rewrite Z2Nat.inj_add by lia. rewrite <- drop_drop.
  apply take_drop.
Qed.

Lemma pieces_done n in_ size i :
  Z.of_nat (length in_) ≤ i → pieces n in_ size i = [].
Proof.
  intros Hi. destruct n; [done|]. simpl.
  by destruct (Z.ltb_spec i (Z.of_nat (length in_))); [lia|].
Qed.

Lemma pieces_spec n in_ size i :
  0 < size → 0 ≤ i → Z.of_nat (length in_) - i ≤ Z.of_nat n →
  let chunks := pieces n in_ size i in
  concat chunks = drop (Z.to_nat i) in_ ∧
  Forall (fun b => (0 < length b)%nat ∧ Z.of_nat (length b) ≤ size) chunks ∧
  (∀ k b, chunks !! k = Some b → (S k < length chunks)%nat → Z.of_nat (length b) = size).
Proof.
  intros Hsize. revert i. induction n as [|n IH]; intros i Hi Hn.
  { simpl. split_and!; [|done..]. symmetry. apply drop_ge. lia. }
  cbn [pieces]. cbv zeta.
  destruct (Z.ltb_spec i (Z.of_nat (length in_))) as [Hlt|Hge].
  2:{ split_and!; [|done..]. symmetry. apply drop_ge. lia. }
  destruct (IH (i + size)) as (Hcat & Hall & Hfull); [lia..|].
  destruct (Z.ltb_spec (Z.of_nat (length in_)) (i + size)) as [Hover|Hfits].
  - (* the last chunk *)
    clear Hcat Hall Hfull.
    rewrite (pieces_done n in_ size (i + size)) by lia. rewrite slice_rest by lia.
    split_and!.
    + simpl. by rewrite app_nil_r.
    + constructor; [|done]. rewrite length_drop. lia.
    + intros [|k] b; simpl; [lia|done].
  - split_and!.
    + simpl. rewrite Hcat. by apply slice_step; lia.
    + constructor; [|done].
      pose proof (length_slice_full in_ i size). lia.
    + intros [|k] b; simpl.
      * intros [= <-] _. apply length_slice_full; lia.
      * intros Hk Hlen. apply (Hfull k b Hk). lia.
Qed.

Lemma pieces_enough n n' in_ size i :
  0 < size → 0 ≤ i →
  Z.of_nat (length in_) - i ≤ Z.of_nat n → Z.of_nat (length in_) - i ≤ Z.of_nat n' →
  pieces n in_ size i = pieces n' in_ size i.
Proof.
  intros Hsize. revert n' i. induction n as [|n IH]; intros n' i Hi Hn Hn'.
  { by rewrite !pieces_done by lia. }
  destruct n' as [|n']; [by rewrite !pieces_done by lia|].
  cbn [pieces]. destruct (Z.ltb_spec i (Z.of_nat (length in_))); [|done].
  f_equal. apply IH; lia.
Qed.

Lemma int64_small z : - 2 ^ 63 ≤ z < 2 ^ 63 → steamdt_dump.int64 z = z.
Proof. intros Hz. unfold steamdt_dump.int64. rewrite Z.mod_small; lia. Qed.

Lemma int64_wraps z : 2 ^ 63 ≤ z < 2 ^ 64 → steamdt_dump.int64 z = z - 2 ^ 64.
Proof.
  intros Hz. unfold steamdt_dump.int64.
  replace (z + 2 ^ 63) with (z - 2 ^ 63 + 1 * 2 ^ 64) by lia.
  rewrite Z.mod_add by lia. rewrite Z.mod_small; lia.
Qed.

(** While no sum overflows, the loop of [chunkStrings] appends the
    pieces and ends. *)
Lemma chunksFrom_pieces n in_ size i out :
  0 < size → 0 ≤ i → Z.of_nat (length in_) + size ≤ 2 ^ 63 →
  (0 < n)%nat → Z.of_nat (length in_) - i < Z.of_nat n →
  chunksFrom n in_ size i out = Chunks (out ++ pieces n in_ size i).
Proof.
  intros Hsize Hi Hfit. revert i out Hi. induction n as [|n IH]; intros i out Hi Hpos Hn; [lia|].
  cbn [chunksFrom pieces]. cbv zeta.
  destruct (Z.ltb_spec i (Z.of_nat (length in_))) as [Hlt|Hge]; [|by rewrite app_nil_r].
  rewrite int64_small by lia.
  set (j := if Z.of_nat (length in_) <? i + size then Z.of_nat (length in_) else i + size).
  assert (i < j) as Hj
    by (unfold j; destruct (Z.ltb_spec (Z.of_nat (length in_)) (i + size)); lia).
  destruct (Z.ltb_spec i 0); [lia|]. destruct (Z.ltb_spec j i); [lia|]. cbn [orb].
  rewrite IH by lia. by rewrite <- app_assoc.
Qed.

Lemma capacity_fits (in_ : list string) size :
  0 < size → in_ ≠ [] → Z.of_nat (length in_) + size ≤ 2 ^ 63 →
  (capacity in_ size <? 0) = false.
Proof.
  intros Hsize Hsome Hfit.
  assert (0 < Z.of_nat (length in_)) by (destruct in_; [done|simpl; lia]).
  unfold capacity. rewrite int64_small by lia.
  apply Z.ltb_ge, Z.quot_pos; lia.
Qed.

Lemma chunkStrings_fits (in_ : list string) size :
  0 < size → in_ ≠ [] → Z.of_nat (length in_) + size ≤ 2 ^ 63 →
  chunkStrings in_ size = Chunks (pieces (length in_) in_ size 0).
Proof.
  intros Hsize Hsome Hfit. unfold chunkStrings.
  destruct (Z.leb_spec size 0); [lia|].
  destruct (Nat.eqb_spec (length in_) 0) as [Hnil|_];
    [by apply nil_length_inv in Hnil|].
  cbn [orb]. rewrite capacity_fits by done.
  rewrite chunksFrom_pieces by lia. cbn [app]. f_equal.
  apply pieces_enough; lia.
Qed.

(** The sum of the capacity overflows, and the quotient is negative. *)
Lemma chunkStrings_panics (in_ : list string) size :
  0 < size < 2 ^ 63 → Z.of_nat (length in_) < 2 ^ 63 →
  2 ^ 63 < Z.of_nat (length in_) + size →
  2 * size + Z.of_nat (length in_) ≤ 2 ^ 64 + 1 →
  chunkStrings in_ size = Panics.
Proof.
  intros Hsize Hlen Hover Hneg. unfold chunkStrings.
  destruct (Z.leb_spec size 0); [lia|].
  destruct (Nat.eqb_spec (length in_) 0); [lia|]. cbn [orb].
  unfold capacity. rewrite int64_wraps by lia.
  set (a := 2 ^ 64 - (Z.of_nat (length in_) + size - 1)).
  replace (Z.of_nat (length in_) + size - 1 - 2 ^ 64) with (- a) by (unfold a; lia).
  rewrite Z.quot_opp_l by lia.
  assert (0 < a ÷ size) by (apply Z.quot_str_pos; unfold a; lia).
  by destruct (Z.ltb_spec (- (a ÷ size)) 0); [|lia].
Qed.

(** The sum of the capacity overflows, and the quotient is zero. *)
Lemma chunkStrings_whole (in_ : list string) size :
  0 < size < 2 ^ 63 → in_ ≠ [] → Z.of_nat (length in_) ≤ 2 ^ 62 →
  2 ^ 64 + 1 < 2 * size + Z.of_nat (length in_) →
  chunkStrings in_ size = Chunks [in_].
Proof.
  intros Hsize Hsome Hlen Hzero. unfold chunkStrings.
  assert (0 < Z.of_nat (length in_)) by (destruct in_; [done|simpl; lia]).
  destruct (Z.leb_spec size 0); [lia|].
  destruct (Nat.eqb_spec (length in_) 0); [lia|]. cbn [orb].
  unfold capacity. rewrite int64_wraps by lia.
  set (a := 2 ^ 64 - (Z.of_nat (length in_) + size - 1)).
  replace (Z.of_nat (length in_) + size - 1 - 2 ^ 64) with (- a) by (unfold a; lia).
  rewrite Z.quot_opp_l by lia. rewrite Z.quot_small by (unfold a; lia).
  cbn [Z.opp Z.ltb Z.compare]. cbn [chunksFrom]. cbv zeta.
  destruct (Z.ltb_spec 0 (Z.of_nat (length in_))); [|lia].
  rewrite Z.add_0_l, int64_small by lia.
  destruct (Z.ltb_spec (Z.of_nat (length in_)) size); [|lia].
  destruct (Z.ltb_spec (Z.of_nat (length in_)) 0); [lia|]. cbn [orb Z.ltb Z.compare].
  destruct (Z.ltb_spec size (Z.of_nat (length in_))); [lia|].
  cbn [app]. rewrite slice_rest by lia. done.
Qed.

(** X9. [chunkStrings] on a [size] that is not positive, or on no
    element, returns the one chunk [in].  For a positive [size] that
    [len(in)+size] keeps within [int], it cuts [in] into consecutive
    chunks: put together they are [in]; every chunk but the last has
    exactly [size] elements, and the last has at least one (of a list
    that is not empty) and at most [size].  Where the sum
    [len(in)+size-1] of the capacity overflows, [make] panics when the
    wrapped sum is at most [-size]; when it is not, the capacity is zero
    and the one chunk [in] is returned. *)
Theorem chunkStrings_partitions (in_ : list string) size :
  (size ≤ 0 ∨ in_ = [] → chunkStrings in_ size = Chunks [in_]) ∧
  (0 < size → Z.of_nat (length in_) + size ≤ 2 ^ 63 →
     ∃ chunks, chunkStrings in_ size = Chunks chunks ∧
       concat chunks = in_ ∧
       Forall (fun b => Z.of_nat (length b) ≤ size) chunks ∧
       (in_ ≠ [] → Forall (fun b => b ≠ []) chunks) ∧
       (∀ k b, chunks !! k = Some b → (S k < length chunks)%nat →
               Z.of_nat (length b) = size)) ∧
  (0 < size < 2 ^ 63 → Z.of_nat (length in_) < 2 ^ 63 →
   2 ^ 63 < Z.of_nat (length in_) + size →
   2 * size + Z.of_nat (length in_) ≤ 2 ^ 64 + 1 →
     chunkStrings in_ size = Panics) ∧
  (0 < size < 2 ^ 63 → in_ ≠ [] → Z.of_nat (length in_) ≤ 2 ^ 62 →
   2 ^ 64 + 1 < 2 * size + Z.of_nat (length in_) →
     chunkStrings in_ size = Chunks [in_]).
Proof.
  split_and!.
  - intros Hone. unfold chunkStrings.
    destruct (Z.leb_spec size 0); [done|].
    destruct Hone as [Hle| ->]; [lia|]. done.
  - intros Hsize Hfit. destruct in_ as [|s in_].
    { exists [[]]. unfold chunkStrings. rewrite orb_true_r.
      split_and!; [done|done|constructor; [simpl; lia|done]|done|].
      intros [|k] b; simpl; [lia|done]. }
    exists (pieces (length (s :: in_)) (s :: in_) size 0).
    destruct (pieces_spec (length (s :: in_)) (s :: in_) size 0) as (Hcat & Hall & Hfull);
      [lia..|].
    split_and!.
    + by apply chunkStrings_fits.
    + done.
    + eapply Forall_impl; [exact Hall|]. by intros b [_ ?].
    + intros _. eapply Forall_impl; [exact Hall|]. intros b [Hb _] ->. simpl in Hb. lia.
    + done.
  - apply chunkStrings_panics.
  - apply chunkStrings_whole.
Qed.

End SteamDTBatches.

Section SteamDTRequests.
Import steamdt.






End SteamDTRequests.

(** ** SteamDT: candidates and quotes *)

Section SteamDTOrder.
Import steamdt.

(** [a] may stand before [b]: its platform is the lesser, or the same
    and its time is not the later. *)
Lemma candidates_notAfter a b :
  notAfter a b ↔
  String.compare (platform a) (platform b) = Lt ∨
  (platform a = platform b ∧ ts a ≤ ts b).
Proof.
  unfold notAfter, less, time.Before.
  destruct (String.eqb_spec (platform b) (platform a)) as [E|Hne].
  - rewrite E, compare_refl. split.
    + intros H%Z.ltb_ge. by right.
    + intros [|[_ ?]]; [done|]. by apply Z.ltb_ge.
  - destruct (String.ltb (platform b) (platform a)) eqn:L; split; try done.
    + intros [H|[? _]]; [|congruence].
      apply ltb_compare in L. apply compare_flip in H. congruence.
    + intros _. left.
      destruct (String.compare (platform a) (platform b)) eqn:C; [|done|].
      * apply compare_Eq in C. congruence.
      * apply compare_flip, ltb_compare in C. congruence.
Qed.

#[global] Instance candidates_notAfter_trans : Transitive notAfter.
Proof.
  intros a b c. rewrite !candidates_notAfter.
  intros [Hab|[Eab Hab]] [Hbc|[Ebc Hbc]].
  - left. by eapply compare_trans.
  - left. by rewrite <- Ebc.
  - left. by rewrite Eab.
  - right. split; [congruence|lia].
Qed.

#[global] Instance candidates_notAfter_total : Total notAfter.
Proof.
  intros a b. rewrite !candidates_notAfter.
  destruct (String.compare (platform a) (platform b)) eqn:C.
  - apply compare_Eq in C. destruct (Z.le_ge_cases (ts a) (ts b)); [left|right]; right.
    + done.
    + split; [done|lia].
  - by do 2 left.
  - right. left. by apply compare_flip.
Qed.

End SteamDTOrder.

Section SteamDTQuotes.
Import steamdt.
Context {U : Unicode}.

Lemma noPrice_spec (s : string) : noPrice s = true ↔ s ∈ [""; "0"; "0.0"].
Proof.
  unfold noPrice. rewrite !elem_of_cons, elem_of_nil, !orb_true_iff.
  destruct (String.eqb_spec s ""), (String.eqb_spec s "0"), (String.eqb_spec s "0.0");
    split; intros; try tauto; intuition congruence.
Qed.

(** X11. [collectCandidates] returns one candidate for each listing that
    has a sell price or a bid price, that is, whose two prices are not
    both blank, "0" or "0.0" once trimmed, and none for the others: the
    candidate has the platform of the listing, its two prices trimmed and
    its time.  They stand by platform, in the order of the bytes of the
    names, and within a platform by time: of two candidates the earlier
    has the lesser platform, or the same platform and a time that is not
    the later. *)
Theorem collectCandidates_sorted range list_ now :
  (∀ l, range l ≡ₚ l) →
  let cs := collectCandidates range list_ now in
  cs ≡ₚ (fun d => {| platform := Platform d;
                     sell := TrimSpace (SellPrice d);
                     bid := TrimSpace (BiddingPrice d);
                     ts := parseEpochMaybeMillis (UpdateTime d) now |})
        <$> filter (fun d => ¬ (TrimSpace (SellPrice d) ∈ [""; "0"; "0.0"] ∧
                                TrimSpace (BiddingPrice d) ∈ [""; "0"; "0.0"])) list_ ∧
  StronglySorted (fun a b => String.compare (platform a) (platform b) = Lt ∨
                             (platform a = platform b ∧ ts a ≤ ts b)) cs.
Proof.
  intros Hrange cs. split.
  - unfold cs, collectCandidates. rewrite merge_sort_Permutation, (Hrange _).
    match goal with
    | |- _ ≡ₚ ?r => enough (omap (candidateOf now) list_ = r) as -> by done
    end.
    clear. induction list_ as [|d l IH]; [done|].
    cbn [omap list_omap]. rewrite filter_cons. unfold candidateOf at 1, numToString.
    destruct (noPrice (TrimSpace (SellPrice d))) eqn:Es;
      destruct (noPrice (TrimSpace (BiddingPrice d))) eqn:Eb; cbn [andb].
    + apply noPrice_spec in Es, Eb. rewrite decide_False by tauto. exact IH.
    + rewrite decide_True; [by rewrite IH|].
      intros [_ Hb%noPrice_spec]. congruence.
    + rewrite decide_True; [by rewrite IH|].
      intros [Hs%noPrice_spec _]. congruence.
    + rewrite decide_True; [by rewrite IH|].
      intros [Hs%noPrice_spec _]. congruence.
  - assert (StronglySorted notAfter cs) as Hsorted
      by apply (Sorted_StronglySorted notAfter), (Sorted_merge_sort notAfter).
    induction Hsorted as [|c l _ IH Hall]; constructor; [done|].
    eapply Forall_impl; [exact Hall|]. intros c'. by rewrite candidates_notAfter.
Qed.

Lemma elem_of_flat_map {A B} (f : A → list B) (l : list A) (y : B) :
  y ∈ flat_map f l ↔ ∃ x, x ∈ l ∧ y ∈ f x.
Proof.
  rewrite list_elem_of_In, in_flat_map. split; intros (x & Hx & Hy); exists x.
  - by rewrite !list_elem_of_In.
  - by rewrite <- !list_elem_of_In.
Qed.

Lemma elem_of_answer range cfg byMarketAll firstErr now symbols q :
  (∀ l, range l ≡ₚ l) →
  q ∈ (answer range cfg byMarketAll firstErr now symbols).1 ↔
  ∃ s e c, s ∈ symbols ∧ byMarketAll !! provKey (SymbolMap cfg) s = Some e ∧
           c ∈ omap (candidateOf now) (DataList e) ∧ q ∈ quotesOf cfg s c.
Proof.
  intros Hrange. unfold answer.
  set (out := flat_map _ symbols).
  assert (q ∈ out ↔
          ∃ s e c, s ∈ symbols ∧ byMarketAll !! provKey (SymbolMap cfg) s = Some e ∧
                   c ∈ omap (candidateOf now) (DataList e) ∧ q ∈ quotesOf cfg s c) as Hout.
  { unfold out. rewrite elem_of_flat_map. split.
    - intros (s & Hs & Hq).
      destruct (byMarketAll !! provKey (SymbolMap cfg) s) as [e|] eqn:E;
        [|by apply elem_of_nil in Hq].
      apply elem_of_flat_map in Hq as (c & Hc & Hq). exists s, e, c.
      split_and!; try done.
      unfold collectCandidates in Hc. by rewrite merge_sort_Permutation, (Hrange _) in Hc.
    - intros (s & e & c & Hs & E & Hc & Hq). exists s. split; [done|]. rewrite E.
      apply elem_of_flat_map. exists c. split; [|done].
      unfold collectCandidates. by rewrite merge_sort_Permutation, (Hrange _). }
  rewrite <- Hout. destruct out as [|q0 out']; [|done].
  by destruct firstErr.
Qed.

(** X12. What [Fetch] returns once the requests are over.  The quotes are
    those of the candidates of the requested symbols found in the answers:
    each bears the requested symbol and the configured currency.  The
    error of a request is returned only when there is no quote at all;
    with a single quote the errors of the requests are dropped. *)
Theorem answer_quotes_and_error range cfg byMarketAll firstErr now symbols :
  (∀ l, range l ≡ₚ l) →
  let r := answer range cfg byMarketAll firstErr now symbols in
  (∀ q, q ∈ r.1 ↔
        ∃ s e c, s ∈ symbols ∧ byMarketAll !! provKey (SymbolMap cfg) s = Some e ∧
                 c ∈ omap (candidateOf now) (DataList e) ∧ q ∈ quotesOf cfg s c) ∧
  (∀ q, q ∈ r.1 → provider.Symbol q ∈ symbols ∧ provider.Currency q = Currency cfg) ∧
  (∀ err, r.2 = Some err → r.1 = [] ∧ firstErr = Some err) ∧
  (∀ q, q ∈ r.1 → r.2 = None).
Proof.
  intros Hrange r. split_and!.
  - intros q. by apply elem_of_answer.
  - intros q (s & e & c & Hs & _ & _ & Hq)%elem_of_answer; [|done].
    unfold quotesOf in Hq. apply elem_of_cons in Hq as [->|Hq]; [done|].
    destruct (_ && _); [|by apply elem_of_nil in Hq].
    by apply list_elem_of_singleton in Hq as ->.
  - intros err. unfold r, answer. destruct (flat_map _ symbols); [|done].
    destruct firstErr; [|done]. by intros [= <-].
  - intros q. unfold r, answer. destruct (flat_map _ symbols) as [|q0 out].
    + destruct firstErr; by intros ?%elem_of_nil.
    + done.
Qed.

(** X13. A listing with a bid price and no sell price still gives a sell
    quote, whose price is the blank or zero sell price; and a quote
    without a price is always such a sell quote: a bid quote has a
    price. *)
Theorem quotes_without_price range cfg byMarketAll firstErr now symbols :
  (∀ l, range l ≡ₚ l) →
  let out := (answer range cfg byMarketAll firstErr now symbols).1 in
  (∀ s e d, s ∈ symbols → byMarketAll !! provKey (SymbolMap cfg) s = Some e →
            d ∈ DataList e →
            noPrice (numToString (SellPrice d)) = true →
            noPrice (numToString (BiddingPrice d)) = false →
            {| provider.Symbol := s; provider.Price := numToString (SellPrice d);
               provider.Currency := Currency cfg;
               provider.Source := Name cfg ++ ":" ++ Platform d ++ ":sell";
               provider.ReceivedAt := parseEpochMaybeMillis (UpdateTime d) now |} ∈ out) ∧
  (∀ q, q ∈ out → noPrice (provider.Price q) = true →
        ∃ c, provider.Source q = Name cfg ++ ":" ++ platform c ++ ":sell" ∧
             provider.Price q = sell c ∧ noPrice (bid c) = false).
Proof.
  intros Hrange out. split.
  - intros s e d Hs He Hd Hsell Hbid. apply elem_of_answer; [done|].
    exists s, e,
      {| platform := Platform d; sell := numToString (SellPrice d);
         bid := numToString (BiddingPrice d);
         ts := parseEpochMaybeMillis (UpdateTime d) now |}.
    split_and!; [done..| |apply list_elem_of_here].
    apply list_elem_of_omap. exists d. split; [done|].
    unfold candidateOf. by rewrite Hsell, Hbid.
  - intros q (s & e & c & _ & _ & Hc & Hq)%elem_of_answer Hprice; [|done].
    apply list_elem_of_omap in Hc as (d & _ & Hc). unfold candidateOf in Hc.
    unfold quotesOf in Hq. apply elem_of_cons in Hq as [->|Hq].
    + exists c. split_and!; [done..|]. simpl in Hprice.
      destruct (noPrice (numToString (SellPrice d))) eqn:Es;
        destruct (noPrice (numToString (BiddingPrice d))) eqn:Eb;
        simpl in Hc; [done|..]; injection Hc as <-; simpl in *; congruence.
    + destruct (IncludeBids cfg); [|by apply elem_of_nil in Hq].
      destruct (noPrice (bid c)) eqn:Eb; [by apply elem_of_nil in Hq|].
      apply list_elem_of_singleton in Hq as ->. simpl in Hprice. congruence.
Qed.

End SteamDTQuotes.

Section SteamDTTags.
Import steamdt aggregate.
#[local] Existing Instance GoStrings.ascii_text.

(** X14. The aggregator reads back what SteamDT writes.  For a provider
    name and a platform without a colon (the name not being, trimmed and
    in lower case, one of the providers without sides), the source of a
    quote of [quotesOf] normalizes to the platform as market, trimmed and
    through the alias table, and to the side "sell" or "bid" of the price
    the quote carries; the provider found is the name. *)
Theorem steamdt_sources_normalize cfg aggSym c q :
  GoStrings.Index (Name cfg) ":" = -1 → GoStrings.Index (platform c) ":" = -1 →
  ToLower (TrimSpace (Name cfg)) ≠ "pricempire" →
  ToLower (TrimSpace (Name cfg)) ≠ "skinstablexyz" →
  Name cfg ≠ "" →
  q ∈ quotesOf cfg aggSym c →
  let m := TrimSpace (platform c) in
  (NormalizeSource (provider.Source q)).1 = default m (aliasMap !! ToLower m) ∧
  providerName (provider.Source q) = Name cfg ∧
  ((NormalizeSource (provider.Source q)).2 = "sell" ∧ provider.Price q = sell c ∨
   (NormalizeSource (provider.Source q)).2 = "bid" ∧ provider.Price q = bid c).
Proof.
  intros Hname Hplat Hpe Hsx Hsome Hq m. unfold quotesOf in Hq.
  assert (q = {| provider.Symbol := aggSym; provider.Price := sell c;
                 provider.Currency := steamdt.Currency cfg;
                 provider.Source := Name cfg ++ ":" ++ platform c ++ ":" ++ "sell";
                 provider.ReceivedAt := ts c |} ∨
          q = {| provider.Symbol := aggSym; provider.Price := bid c;
                 provider.Currency := steamdt.Currency cfg;
                 provider.Source := Name cfg ++ ":" ++ platform c ++ ":" ++ "bid";
                 provider.ReceivedAt := ts c |}) as [-> | ->].
  { apply elem_of_cons in Hq as [->|Hq]; [by left|].
    destruct (_ && _); [|by apply elem_of_nil in Hq].
    apply list_elem_of_singleton in Hq as ->. by right. }
  - cbn [provider.Source provider.Price].
    rewrite NormalizeSource_three, providerName_tag by done. auto.
  - cbn [provider.Source provider.Price].
    rewrite NormalizeSource_three, providerName_tag by done. auto.
Qed.

End SteamDTTags.

Section SteamDTScenario.
Import steamdt scenario.
#[local] Existing Instance GoStrings.ascii_text.

Lemma collectCandidates_sorted_witness :
  let list_ := [sellListing; bidListing;
                {| Platform := "YOUPIN"; SellPrice := " 0.0"; BiddingPrice := "0";
                   UpdateTime := 1735787045 |}] in
  let cs := collectCandidates id list_ time.test_instant in
  cs ≡ₚ (fun d => {| platform := Platform d;
                     sell := TrimSpace (SellPrice d);
                     bid := TrimSpace (BiddingPrice d);
                     ts := parseEpochMaybeMillis (UpdateTime d) time.test_instant |})
        <$> filter (fun d => ¬ (TrimSpace (SellPrice d) ∈ [""; "0"; "0.0"] ∧
                                TrimSpace (BiddingPrice d) ∈ [""; "0"; "0.0"])) list_ ∧
  StronglySorted (fun a b => String.compare (platform a) (platform b) = Lt ∨
                             (platform a = platform b ∧ ts a ≤ ts b)) cs.
Proof.
  apply (collectCandidates_sorted id
           [sellListing; bidListing;
            {| Platform := "YOUPIN"; SellPrice := " 0.0"; BiddingPrice := "0";
               UpdateTime := 1735787045 |}] time.test_instant).
  by intros l.
Defined.

(** The listing without a price is dropped, and "BUFF" comes before
    "C5". *)
Example candidates_of_three :
  collectCandidates id
    [sellListing; bidListing;
     {| Platform := "YOUPIN"; SellPrice := " 0.0"; BiddingPrice := "0";
        UpdateTime := 1735787045 |}] time.test_instant
  = [ {| platform := "BUFF"; sell := "0"; bid := "95.5"; ts := time.test_instant |};
      {| platform := "C5"; sell := "101"; bid := ""; ts := time.test_instant |} ].
Proof. by vm_compute. Qed.


Example batches_of_five :
  batches steamCfg (fun _ => Slot) ["A"; "B"; "A"; "C"; "D"; "E"]
  = Chunks [["A"; "B"]; ["C"; "D"]; ["E"]] ∧
  batches steamCfg (fun i => if (i =? 1)%nat then Done else Slot)
    ["A"; "B"; "A"; "C"; "D"; "E"]
  = Chunks [["A"; "B"]; ["E"]] ∧
  batches steamCfg (fun _ => Done) ["A"; "B"; "A"; "C"; "D"; "E"] = Chunks [] ∧
  batches steamCfg (fun _ => Done) ["A"; "B"; "A"] = Chunks [["A"; "B"]].
Proof. by vm_compute. Qed.

(** [make] panics on two names and the greatest [int]; three names by
    two are two chunks. *)
Example chunkStrings_of_the_greatest_int :
  chunkStrings ["a"; "b"] (2 ^ 63 - 1) = Panics ∧
  chunkStrings ["a"; "b"; "c"] 2 = Chunks [["a"; "b"]; ["c"]].
Proof. by vm_compute. Qed.

(** The listing with a bid only comes first, "BUFF" being before "C5",
    and gives two quotes; both listings are of the same instant. *)
Example steamdt_answer :
  answer id steamCfg steamTable (Some "a batch failed") time.test_instant ["X"; "Y"]
  = ([ {| provider.Symbol := "X"; provider.Price := "0"; provider.Currency := "CNY";
          provider.Source := "SteamDT:BUFF:sell";
          provider.ReceivedAt := time.test_instant |};
       {| provider.Symbol := "X"; provider.Price := "95.5"; provider.Currency := "CNY";
          provider.Source := "SteamDT:BUFF:bid";
          provider.ReceivedAt := time.test_instant |};
       {| provider.Symbol := "X"; provider.Price := "101"; provider.Currency := "CNY";
          provider.Source := "SteamDT:C5:sell";
          provider.ReceivedAt := time.test_instant |} ], None).
Proof. by vm_compute. Qed.

Lemma answer_quotes_and_error_witness :
  let r := answer id steamCfg steamTable (Some "a batch failed") time.test_instant
             ["X"; "Y"] in
  (∀ q, q ∈ r.1 ↔
        ∃ s e c, s ∈ ["X"; "Y"] ∧
                 steamTable !! provKey (SymbolMap steamCfg) s = Some e ∧
                 c ∈ omap (candidateOf time.test_instant) (DataList e) ∧
                 q ∈ quotesOf steamCfg s c) ∧
  (∀ q, q ∈ r.1 → provider.Symbol q ∈ ["X"; "Y"] ∧
                  provider.Currency q = Currency steamCfg) ∧
  (∀ err, r.2 = Some err → r.1 = [] ∧ Some "a batch failed" = Some err) ∧
  (∀ q, q ∈ r.1 → r.2 = None).
Proof.
  apply (answer_quotes_and_error id steamCfg steamTable (Some "a batch failed")
           time.test_instant ["X"; "Y"]).
  by intros l.
Defined.

Lemma quotes_without_price_witness :
  let out := (answer id steamCfg steamTable None time.test_instant ["X"]).1 in
  (∀ s e d, s ∈ ["X"] → steamTable !! provKey (SymbolMap steamCfg) s = Some e →
            d ∈ DataList e →
            noPrice (numToString (SellPrice d)) = true →
            noPrice (numToString (BiddingPrice d)) = false →
            {| provider.Symbol := s; provider.Price := numToString (SellPrice d);
               provider.Currency := Currency steamCfg;
               provider.Source := Name steamCfg ++ ":" ++ Platform d ++ ":sell";
               provider.ReceivedAt := parseEpochMaybeMillis (UpdateTime d) time.test_instant |}
            ∈ out) ∧
  (∀ q, q ∈ out → noPrice (provider.Price q) = true →
        ∃ c, provider.Source q = Name steamCfg ++ ":" ++ platform c ++ ":sell" ∧
             provider.Price q = sell c ∧ noPrice (bid c) = false).
Proof.
  apply (quotes_without_price id steamCfg steamTable None time.test_instant ["X"]).
  by intros l.
Defined.

Lemma steamdt_sources_normalize_witness :
  let c := {| platform := "BUFF"; sell := "0"; bid := "95.5"; ts := time.test_instant |} in
  let q := {| provider.Symbol := "X"; provider.Price := "95.5"; provider.Currency := "CNY";
              provider.Source := "SteamDT:BUFF:bid";
              provider.ReceivedAt := time.test_instant |} in
  let m := TrimSpace (platform c) in
  (aggregate.NormalizeSource (provider.Source q)).1
  = default m (aggregate.aliasMap !! ToLower m) ∧
  aggregate.providerName (provider.Source q) = Name steamCfg ∧
  ((aggregate.NormalizeSource (provider.Source q)).2 = "sell" ∧ provider.Price q = sell c ∨
   (aggregate.NormalizeSource (provider.Source q)).2 = "bid" ∧ provider.Price q = bid c).
Proof.
  apply (steamdt_sources_normalize steamCfg "X"
           {| platform := "BUFF"; sell := "0"; bid := "95.5"; ts := time.test_instant |}
           {| provider.Symbol := "X"; provider.Price := "95.5"; provider.Currency := "CNY";
              provider.Source := "SteamDT:BUFF:bid";
              provider.ReceivedAt := time.test_instant |}).
  - reflexivity.
  - reflexivity.
  - by vm_compute.
  - by vm_compute.
  - done.
  - vm_compute. apply list_elem_of_further, list_elem_of_here.
Defined.

End SteamDTScenario.

Section Epoch.
Import steamdt.

(** X15. [parseEpochMaybeMillis] reads an epoch in seconds or in
    milliseconds: without one ([v <= 0]) the time is the fallback; with
    one it is an instant after 1970, never the zero time; an instant
    between September 9, 2001 ([10^9] seconds) and [10^12] seconds reads
    the same from its seconds and from its milliseconds; the milliseconds
    of an earlier instant are taken for seconds. *)
Theorem parseEpochMaybeMillis_reads v fallback :
  (v ≤ 0 → parseEpochMaybeMillis v fallback = fallback) ∧
  (0 < v → time.IsZero (parseEpochMaybeMillis v fallback) = false ∧
           time.After (parseEpochMaybeMillis v fallback) time.unixEpoch = true) ∧
  (1000000000 < v ≤ 1000000000000 →
     parseEpochMaybeMillis (1000 * v) fallback = parseEpochMaybeMillis v fallback ∧
     parseEpochMaybeMillis v fallback = time.Unix v) ∧
  (0 < v ≤ 1000000000 →
     parseEpochMaybeMillis (1000 * v) fallback = time.Unix (1000 * v)) ∧
  skinstablexyz.parseEpochMaybeMillis v fallback = parseEpochMaybeMillis v fallback.
Proof.
  unfold parseEpochMaybeMillis, time.IsZero, time.After, time.Unix, time.UnixMilli,
    time.unixEpoch, time.Millisecond, time.Second.
  split_and!.
  - intros Hv. by destruct (Z.leb_spec v 0); [|lia].
  - intros Hv. destruct (Z.leb_spec v 0); [lia|].
    destruct (Z.ltb_spec 1000000000000 v); split;
      try (apply Z.eqb_neq; lia); apply Z.ltb_lt; lia.
  - intros Hv. destruct (Z.leb_spec (1000 * v) 0); [lia|].
    destruct (Z.leb_spec v 0); [lia|].
    destruct (Z.ltb_spec 1000000000000 (1000 * v)); [|lia].
    destruct (Z.ltb_spec 1000000000000 v); [lia|]. split; [lia|done].
  - intros Hv. destruct (Z.leb_spec (1000 * v) 0); [lia|].
    by destruct (Z.ltb_spec 1000000000000 (1000 * v)); [lia|].
  - done.
Qed.

End Epoch.

(** ** SkinstableXYZ: what [Fetch] returns *)

Section Skinstable.
Import skinstablexyz.
Variable formatFloat : float → string.
Local Abbreviation Items := (gmap string item).

Lemma ensureSites_invalid now (env : world Items) st sites :
  anyValid (foldl (ensureSite now env) st sites) = false →
  anyValid st = false ∧
  (∀ site, site ∈ sites → ∃ e, sfDo env site = inr e) ∧
  lastErr (foldl (ensureSite now env) st sites)
  = match last sites with
    | Some site => match sfDo env site with inr e => Some e | inl _ => None end
    | None => lastErr st
    end.
Proof.
  revert st. induction sites as [|site sites IH] using rev_ind; intros st.
  { simpl. intros ?. split_and!; [done| |done]. by intros ? ?%elem_of_nil. }
  rewrite foldl_app, last_snoc. simpl.
  set (st' := foldl (ensureSite now env) st sites).
  intros Hinv.
  assert (anyValid st' = false ∧ ∃ e, sfDo env site = inr e) as [Hst' [e He]].
  { unfold ensureSite in Hinv.
    destruct (match cache st' !! site with Some sc => _ | None => _ end); [|done].
    destruct (sfDo env site) as [res|e]; [done|]. simpl in Hinv. eauto. }
  destruct (IH st Hst') as (Hst & Hall & _). split_and!.
  - done.
  - intros site' [?| ->%list_elem_of_singleton]%elem_of_app; eauto.
  - unfold ensureSite.
    destruct (match cache st' !! site with Some sc => _ | None => _ end) eqn:Ex.
    + by rewrite He.
    + unfold ensureSite in Hinv. by rewrite Ex in Hinv.
Qed.

Lemma ensureSites_valid now (env : world Items) st sites site res :
  site ∈ sites → sfDo env site = inl res →
  anyValid (foldl (ensureSite now env) st sites) = true.
Proof.
  intros Hsite Hres.
  destruct (anyValid (foldl (ensureSite now env) st sites)) eqn:E; [done|].
  apply ensureSites_invalid in E as (_ & Hall & _).
  destruct (Hall site Hsite) as [e He]. congruence.
Qed.

Lemma sitesOf_last cfg : ∃ site, last (sitesOf cfg) = Some site.
Proof.
  unfold sitesOf. destruct (Sites cfg) as [|s l] eqn:E; [by eexists|].
  destruct (last (s :: l)) eqn:El; [by eexists|].
  by apply last_None in El.
Qed.

(** X16. With a URL, [Fetch] succeeds as soon as one site can be
    refreshed, whatever the errors of the others.  When it fails, no
    site could be refreshed and the error is that of the last site: the
    message "no data from any site" is never returned. *)
Theorem Fetch_fails_with_the_last_site cfg now (env : world Items) others c symbols :
  URL cfg ≠ "" →
  let r := Fetch formatFloat cfg now env others c symbols in
  ((∃ site res, site ∈ sitesOf cfg ∧ sfDo env site = inl res) → r.1.2 = None) ∧
  (∀ err, r.1.2 = Some err →
     r.1.1 = [] ∧
     (∀ site, site ∈ sitesOf cfg → ∃ e, sfDo env site = inr e) ∧
     ∃ site, last (sitesOf cfg) = Some site ∧ sfDo env site = inr err).
Proof.
  intros Hurl r. unfold r, Fetch.
  destruct (String.eqb_spec (URL cfg) ""); [done|].
  unfold ensureSites.
  set (st0 := {| cache := c; anyValid := false; lastErr := None |}).
  destruct (anyValid (foldl (ensureSite now env) st0 (sitesOf cfg))) eqn:E; simpl.
  - split; [done|]. by intros err.
  - pose proof E as (_ & Hall & Hlast)%ensureSites_invalid. split.
    + intros (site & res & Hsite & Hres).
      by rewrite (ensureSites_valid now env st0 _ site res) in E.
    + intros err Herr. split_and!; [done..|].
      destruct (sitesOf_last cfg) as [site Hsite]. exists site. split; [done|].
      rewrite Hlast, Hsite in Herr.
      destruct (Hall site) as [e He]; [by eapply last_Some_elem_of|].
      rewrite He in Herr |- *. simpl in Herr. congruence.
Qed.

Lemma elem_of_snapshot (c : gmap string (siteCache Items)) sites site sc :
  (site, sc) ∈ snapshot c sites ↔ site ∈ sites ∧ c !! site = Some sc.
Proof.
  unfold snapshot. rewrite list_elem_of_omap. split.
  - intros (site' & Hs & Hc). destruct (c !! site') as [sc'|] eqn:E; [|done].
    simpl in Hc. by simplify_eq.
  - intros [Hs Hc]. exists site. by rewrite Hc.
Qed.

Lemma elem_of_Fetch cfg now (env : world Items) others c symbols q :
  q ∈ (Fetch formatFloat cfg now env others c symbols).1.1 ↔
  URL cfg ≠ "" ∧ anyValid (ensureSites now env c (sitesOf cfg)) = true ∧
  ∃ site sc s it p,
    site ∈ sitesOf cfg ∧
    (Fetch formatFloat cfg now env others c symbols).2 !! site = Some sc ∧
    s ∈ symbols ∧ items sc !! s = Some it ∧ P it = Some p ∧
    q = {| provider.Symbol := s; provider.Price := formatFloat p;
           provider.Currency := Currency cfg;
           provider.Source := Name cfg ++ ":" ++ site;
           provider.ReceivedAt := parseEpochMaybeMillis (T it) now |}.
Proof.
  unfold Fetch. destruct (String.eqb_spec (URL cfg) "") as [Hurl|Hurl].
  { simpl. split; [by intros ?%elem_of_nil|]. by intros [? _]. }
  destruct (anyValid (ensureSites now env c (sitesOf cfg))) eqn:E; simpl.
  2:{ split; [by intros ?%elem_of_nil|]. by intros (_ & ? & _). }
  rewrite elem_of_flat_map. split.
  - intros ([site sc] & [Hsite Hsc]%elem_of_snapshot & Hq).
    unfold quotesOf in Hq. apply list_elem_of_omap in Hq as (s & Hs & Hq). simpl in Hq.
    destruct (items sc !! s) as [it|] eqn:Eit; [|done]. simpl in Hq.
    unfold quoteOf in Hq. destruct (P it) as [p|] eqn:Ep; [|done].
    simpl in Hq. injection Hq as <-.
    split_and!; [done..|]. by exists site, sc, s, it, p.
  - intros (_ & _ & site & sc & s & it & p & Hsite & Hsc & Hs & Hit & Hp & ->).
    exists (site, sc). split; [by apply elem_of_snapshot|].
    unfold quotesOf. apply list_elem_of_omap. exists s. split; [done|]. simpl.
    rewrite Hit. simpl. unfold quoteOf. by rewrite Hp.
Qed.

(** X17. When [Fetch] succeeds it serves every site that has an entry in
    the cache, without looking at its expiry: the priced items of the
    requested symbols of an entry that has expired, and whose refresh
    failed, are returned like the others. *)
Theorem Fetch_serves_expired_entries cfg now (env : world Items) others c symbols
    site sc s it p :
  URL cfg ≠ "" → anyValid (ensureSites now env c (sitesOf cfg)) = true →
  site ∈ sitesOf cfg →
  (Fetch formatFloat cfg now env others c symbols).2 !! site = Some sc →
  s ∈ symbols → items sc !! s = Some it → P it = Some p →
  (Fetch formatFloat cfg now env others c symbols).1.2 = None ∧
  {| provider.Symbol := s; provider.Price := formatFloat p;
     provider.Currency := Currency cfg;
     provider.Source := Name cfg ++ ":" ++ site;
     provider.ReceivedAt := parseEpochMaybeMillis (T it) now |}
  ∈ (Fetch formatFloat cfg now env others c symbols).1.1.
Proof.
  intros Hurl Hvalid Hsite Hsc Hs Hit Hp. split.
  - unfold Fetch. destruct (String.eqb_spec (URL cfg) ""); [done|]. by rewrite Hvalid.
  - apply elem_of_Fetch. split_and!; [done..|]. by exists site, sc, s, it, p.
Qed.

End Skinstable.

Section SkinstableTags.
Import skinstablexyz.
#[local] Existing Instance GoStrings.ascii_text.

(** X18. The aggregator reads back what SkinstableXYZ writes: with a
    provider name and sites without a colon, every quote of [Fetch] bears
    a requested symbol and the configured currency, and its source
    normalizes to its site as market, trimmed and through the alias table,
    and to no side. *)
Theorem skinstable_sources_normalize formatFloat cfg now
    (env : world (gmap string item)) others c symbols q :
  GoStrings.Index (Name cfg) ":" = -1 →
  Forall (fun site => GoStrings.Index site ":" = -1) (sitesOf cfg) →
  q ∈ (Fetch formatFloat cfg now env others c symbols).1.1 →
  provider.Symbol q ∈ symbols ∧ provider.Currency q = Currency cfg ∧
  ∃ site, site ∈ sitesOf cfg ∧
          provider.Source q = Name cfg ++ ":" ++ site ∧
          aggregate.NormalizeSource (provider.Source q)
          = (let m := TrimSpace site in default m (aggregate.aliasMap !! ToLower m), "").
Proof.
  intros Hname Hsites
    (_ & _ & site & sc & s & it & p & Hsite & _ & Hs & _ & _ & ->)%elem_of_Fetch.
  split_and!; [done..|]. exists site. split_and!; [done..|].
  cbn [provider.Source]. apply NormalizeSource_two; [done|].
  by apply (proj1 (Forall_forall _ _) Hsites).
Qed.

End SkinstableTags.

Section SkinstableScenario.
Import skinstablexyz scenario.
#[local] Existing Instance GoStrings.ascii_text.

(** At the tenth second: the refresh of "BUFF.163" fails and its old
    payload is served beside the fresh one of "CS.MONEY". *)
Example one_site_down :
  (Fetch (fun _ => "price") stableCfg (10 * time.Second) oneSiteDown id staleCache ["X"]).1
  = ([ {| provider.Symbol := "X"; provider.Price := "price"; provider.Currency := "USD";
          provider.Source := "SkinstableXYZ:BUFF.163";
          provider.ReceivedAt := 10 * time.Second |};
       {| provider.Symbol := "X"; provider.Price := "price"; provider.Currency := "USD";
          provider.Source := "SkinstableXYZ:CS.MONEY";
          provider.ReceivedAt := time.test_instant |} ], None).
Proof. by vm_compute. Qed.

Lemma Fetch_fails_with_the_last_site_witness :
  let r := Fetch (fun _ => "price") stableCfg (10 * time.Second) oneSiteDown id
             staleCache ["X"] in
  ((∃ site res, site ∈ sitesOf stableCfg ∧ sfDo oneSiteDown site = inl res) → r.1.2 = None) ∧
  (∀ err, r.1.2 = Some err →
     r.1.1 = [] ∧
     (∀ site, site ∈ sitesOf stableCfg → ∃ e, sfDo oneSiteDown site = inr e) ∧
     ∃ site, last (sitesOf stableCfg) = Some site ∧ sfDo oneSiteDown site = inr err).
Proof.
  apply (Fetch_fails_with_the_last_site (fun _ => "price") stableCfg (10 * time.Second)
           oneSiteDown id staleCache ["X"]).
  done.
Defined.

Lemma Fetch_serves_expired_entries_witness :
  let r := Fetch (fun _ => "price") stableCfg (10 * time.Second) oneSiteDown id
             staleCache ["X"] in
  r.1.2 = None ∧
  {| provider.Symbol := "X"; provider.Price := "price";
     provider.Currency := Currency stableCfg;
     provider.Source := Name stableCfg ++ ":" ++ "BUFF.163";
     provider.ReceivedAt := parseEpochMaybeMillis 0 (10 * time.Second) |} ∈ r.1.1.
Proof.
  apply (Fetch_serves_expired_entries (fun _ => "price") stableCfg (10 * time.Second)
           oneSiteDown id staleCache ["X"] "BUFF.163"
           {| items := oldItems; until := 3 * time.Second |} "X"
           {| P := Some 1.5%float; T := 0 |} 1.5%float).
  - done.
  - by vm_compute.
  - apply list_elem_of_here.
  - by vm_compute.
  - apply list_elem_of_here.
  - by vm_compute.
  - done.
Defined.

Lemma skinstable_sources_normalize_witness :
  let q := {| provider.Symbol := "X"; provider.Price := "price"; provider.Currency := "USD";
              provider.Source := "SkinstableXYZ:BUFF.163";
              provider.ReceivedAt := 10 * time.Second |} in
  provider.Symbol q ∈ ["X"] ∧ provider.Currency q = Currency stableCfg ∧
  ∃ site, site ∈ sitesOf stableCfg ∧
          provider.Source q = Name stableCfg ++ ":" ++ site ∧
          aggregate.NormalizeSource (provider.Source q)
          = (let m := TrimSpace site in default m (aggregate.aliasMap !! ToLower m), "").
Proof.
  apply (skinstable_sources_normalize (fun _ => "price") stableCfg (10 * time.Second)
           oneSiteDown id staleCache ["X"]).
  - reflexivity.
  - by repeat constructor.
  - rewrite one_site_down. apply list_elem_of_here.
Defined.

End SkinstableScenario.

(** ** The list of symbols and the handlers *)

Section SplitCSV.
Import GoStrings config.

Lemma Split_Join (l : list string) (sep : ascii) :
  l ≠ [] → Forall (fun p => Index p sep = -1) l →
  Split (Join l (String sep "")) sep = l.
Proof.
  intros Hsome Hall. induction l as [|p l IH]; [done|]. clear Hsome.
  apply Forall_cons in Hall as [Hp Hl]. cbn [Join].
  destruct l as [|p' l]; [by apply Split_whole|].
  change (String sep "" ++ ?x) with (String sep x).
  change (p ++ String sep "" ++ Join (p' :: l) (String sep ""))
    with (p ++ String sep (Join (p' :: l) (String sep ""))).
  rewrite Split_app by done. f_equal. by apply IH.
Qed.

Lemma filter_all {A} (P : A → Prop) `{∀ x, Decision (P x)} (l : list A) :
  Forall P l → filter P l = l.
Proof.
  induction 1 as [|x l Hx _ IH]; [done|]. by rewrite filter_cons_True, IH.
Qed.

(** X19. Putting a list of symbols together with commas and splitting
    it gives the list back, for symbols that are not blank, not changed
    by trimming and without a comma. *)
Theorem splitCSV_Join {U : Unicode} (l : list string) :
  Forall (fun p => p ≠ "" ∧ TrimSpace p = p ∧ Index p "," = -1) l →
  TrimSpace "" = "" →
  splitCSV (Join l ",") = l.
Proof.
  intros Hall Hempty. unfold splitCSV. destruct l as [|p l].
  { simpl. rewrite Hempty. by rewrite filter_cons_False, filter_nil by (by intros ?). }
  rewrite Split_Join; [|done|].
  2:{ eapply Forall_impl; [exact Hall|]. by intros ? (_ & _ & ?). }
  assert (TrimSpace <$> (p :: l) = p :: l) as ->.
  { apply list_eq. intros i. rewrite list_lookup_fmap.
    destruct ((p :: l) !! i) as [x|] eqn:E; [|done]. simpl. f_equal.
    apply list_elem_of_lookup_2 in E.
    by destruct (proj1 (Forall_forall _ _) Hall x E) as (_ & ? & _). }
  apply filter_all. eapply Forall_impl; [exact Hall|]. by intros ? (? & _).
Qed.

(** X20. [splitCSV] returns the pieces between the commas, trimmed, those
    that are blank left out: no symbol it returns is blank, has white
    space around it or holds a comma; a symbol is returned for every
    piece that is not blank, in order. *)
Theorem splitCSV_symbols (s : string) :
  let symbols := splitCSV (U := ascii_text) s in
  Forall (fun p => p ≠ "" ∧ @TrimSpace ascii_text p = p ∧ Index p "," = -1) symbols ∧
  (∀ p, p ∈ symbols ↔
        p ≠ "" ∧ ∃ piece, piece ∈ Split s "," ∧ p = @TrimSpace ascii_text piece) ∧
  (length symbols ≤ length (Split s ","))%nat.
Proof.
  intros symbols. split_and!; [| |].
  2:{ intros p. unfold symbols, splitCSV.
      rewrite list_elem_of_filter, list_elem_of_fmap.
      split; intros [Hp (piece & ? & ?)]; (split; [done|]); by exists piece. }
  - apply Forall_forall. intros p [Hp (p0 & -> & Hin)%list_elem_of_fmap]%list_elem_of_filter.
    split_and!; [done|apply TrimSpace_idemp|].
    apply TrimSpace_Index.
    by apply (proj1 (Forall_forall _ _) (Split_pieces s ",")).
  - unfold symbols, splitCSV. etrans; [apply length_filter|]. by rewrite length_fmap.
Qed.

End SplitCSV.

Section Handlers.
Import GoStrings config server.

Lemma splitCSV_blank {U : Unicode} (q : string) :
  (∀ p, p ∈ Split q "," → TrimSpace p = "") → splitCSV q = [].
Proof.
  intros Hall. unfold splitCSV.
  induction (Split q ",") as [|p l IH]; [done|].
  rewrite fmap_cons, filter_cons_False.
  - apply IH. intros p' Hp'. apply Hall. by right.
  - intros Hp. apply Hp, Hall, list_elem_of_here.
Qed.

(** X21. What the handlers hand to [writeQuotes].  GET hands over at most
    a thousand symbols, none of them blank; but a query that is not blank
    and holds nothing between its commas, like ",", is not refused: it is
    handed over with no symbol at all.  POST never hands over an empty
    list, nor more than a thousand symbols. *)
Theorem handlers_hand_over {U : Unicode} :
  (∀ q symbols, handleGetQuotes q = Quotes symbols →
     symbols = splitCSV q ∧ (length symbols ≤ 1000)%nat ∧
     Forall (fun s => s ≠ "") symbols) ∧
  (∀ q, TrimSpace q ≠ "" → (∀ p, p ∈ Split q "," → TrimSpace p = "") →
     handleGetQuotes q = Quotes []) ∧
  (∀ decoded symbols, handlePostQuotes decoded = Quotes symbols →
     decoded = Some symbols ∧ (0 < length symbols ≤ 1000)%nat).
Proof.
  split_and!.
  - intros q symbols. unfold handleGetQuotes.
    destruct (String.eqb (TrimSpace q) ""); [done|]. cbv zeta.
    destruct (Nat.ltb_spec 1000 (length (splitCSV q))); [done|].
    intros [= <-]. split_and!; [done|lia|].
    apply Forall_forall. by intros s [? _]%list_elem_of_filter.
  - intros q Hq Hall. unfold handleGetQuotes.
    destruct (String.eqb_spec (TrimSpace q) ""); [done|].
    by rewrite splitCSV_blank.
  - intros [symbols'|] symbols; simpl; [|done].
    destruct (Nat.eqb_spec (length symbols') 0); [done|].
    destruct (Nat.ltb_spec 1000 (length symbols')); [done|].
    intros [= <-]. split; [done|lia].
Qed.

Lemma foldl_receive results all errs :
  foldl receive (all, errs) results
  = ((all ++ flat_map (fun r => match r.2 with None => r.1 | Some _ => [] end) results)%list,
     (errs ++ omap snd results)%list).
Proof.
  revert all errs. induction results as [|[qs [err|]] results IH]; intros all errs.
  - simpl. by rewrite !app_nil_r.
  - cbn [foldl]. unfold receive at 2. cbn [fst snd]. rewrite IH.
    cbn [flat_map omap list_omap fst snd]. by rewrite app_nil_l, <- app_assoc.
  - cbn [foldl]. unfold receive at 2. cbn [fst snd]. rewrite IH.
    cbn [flat_map omap list_omap fst snd]. by rewrite <- app_assoc.
Qed.

(** X22. [writeQuotes] answers 502 only when no provider returned a
    quote and one at least returned an error; then it writes the errors,
    joined.  In every other case it answers 200 with the quotes of the
    providers that returned no error, in the order of arrival: the errors
    of the others are not reported, and with no provider at all the
    answer is 200 without quotes. *)
Theorem writeQuotes_partial (results : list (list provider.Quote * option error)) :
  let all := flat_map (fun r => match r.2 with None => r.1 | Some _ => [] end) results in
  let errs := omap snd results in
  (all ≠ [] ∨ errs = [] → writeQuotes results = OK all) ∧
  (all = [] → errs ≠ [] → writeQuotes results = BadGateway (Join errs "; ")) ∧
  (∀ msg, writeQuotes results = BadGateway msg →
     (∀ r q, r ∈ results → r.2 = None → q ∉ r.1) ∧ ∃ r err, r ∈ results ∧ r.2 = Some err).
Proof.
  intros all errs. unfold writeQuotes.
  rewrite foldl_receive. rewrite !app_nil_l. fold all errs.
  split_and!.
  - intros [Hall|Herrs].
    + destruct all; [done|done].
    + rewrite Herrs. simpl. by rewrite andb_false_r.
  - intros -> Herrs. simpl. by destruct errs.
  - intros msg. destruct all as [|q0 all'] eqn:Eall; [|done].
    destruct errs as [|e0 errs'] eqn:Eerrs; [done|]. intros _. split.
    + intros r q Hr Hnone Hq.
      assert (q ∈ all) as Hin; [|by rewrite Eall in Hin; apply elem_of_nil in Hin].
      unfold all. apply elem_of_flat_map. exists r. by rewrite Hnone.
    + assert (e0 ∈ errs) as Hin by (rewrite Eerrs; apply list_elem_of_here).
      unfold errs in Hin. apply list_elem_of_omap in Hin as (r & Hr & He).
      by exists r, e0.
Qed.

End Handlers.

Section HandlersScenario.
Import GoStrings config server scenario.
#[local] Existing Instance ascii_text.

Lemma splitCSV_Join_witness : splitCSV (Join ["AK-47 | Redline"; "AWP | Asiimov"] ",")
                              = ["AK-47 | Redline"; "AWP | Asiimov"].
Proof.
  apply (splitCSV_Join ["AK-47 | Redline"; "AWP | Asiimov"]).
  - by repeat constructor.
  - reflexivity.
Defined.

(** The query [symbols=,] reaches the providers with no symbol. *)
Example get_of_a_comma : handleGetQuotes "," = Quotes [].
Proof. reflexivity. Qed.

End HandlersScenario.

(** ** The batch splitter: panics, retries and the jobs *)

Section SplitterRuns.
Import steamdt_dump.
Context {W Ctx : Type}.
Variable doReq : Ctx → list string → W → response * W.
Variable Sleep : time.Duration → W → W.
Variable maxRetries : Z.

Local Abbreviation attempts := (attempts doReq Sleep).
Local Abbreviation fetchSplitWithin := (fetchSplitWithin doReq Sleep maxRetries).
Local Abbreviation fetchSplit := (fetchSplit doReq Sleep maxRetries).

Local Abbreviation returns f := (∀ w, ∃ data err, (f w).1 = Return data err).

Lemma attempts_returns split ctx names retries attempt :
  names ≠ [] → ((1 < length names)%nat → returns split) →
  returns (attempts split ctx names retries attempt).
Proof.
  intros Hsome Hsplit. revert attempt.
  induction retries as [|r IH]; intros attempt w; simpl;
    destruct (doReq ctx names w) as [[data|[code body|msg]] w1]; try by eexists _, _.
  - destruct (_ || _).
    + destruct (Nat.leb_spec (length names) 1); [|by apply Hsplit].
      destruct names; [done|by eexists _, _].
    + destruct (_ || _); by eexists _, _.
  - destruct (_ || _).
    + destruct (Nat.leb_spec (length names) 1); [|by apply Hsplit].
      destruct names; [done|by eexists _, _].
    + destruct (_ || _); [apply IH|by eexists _, _].
Qed.

Lemma both_returns (f g : W → outcome * W) : returns f → returns g → returns (both f g).
Proof.
  intros Hf Hg w. unfold both.
  destruct (Hf w) as (lData & lErr & Hl). destruct (f w) as [o w1]. simpl in Hl. subst o.
  destruct (Hg w1) as (rData & rErr & Hr). destruct (g w1) as [o w2]. simpl in Hr. subst o.
  destruct lErr, rErr; by eexists _, _.
Qed.

Lemma fetchSplitWithin_returns n ctx names :
  names ≠ [] → returns (fetchSplitWithin n ctx names).
Proof.
  revert names. induction n as [|n IH]; intros names Hsome;
    cbn [steamdt_dump.fetchSplitWithin]; apply attempts_returns; try done.
  - intros _ w. by eexists _, _.
  - intros Hlen.
    assert (1 ≤ length names / 2)%nat by (apply Nat.div_le_lower_bound; lia).
    assert (length names / 2 < length names)%nat by (apply Nat.div_lt; lia).
    apply both_returns; apply IH; intros E; apply (f_equal length) in E.
    + rewrite length_take in E. cbn [length] in E. lia.
    + rewrite length_drop in E. cbn [length] in E. lia.
Qed.

(** X23. [fetchSplit] panics on nothing but an empty batch: for a batch
    of one name or more it returns, data or an error, whatever the
    upstream answers and however often; an empty batch that the upstream
    rejects with 400 or 413 runs into [names[0]] and panics. *)
Theorem fetchSplit_panics_on_the_empty_batch_only ctx names w :
  (names ≠ [] → ∃ data err, (fetchSplit ctx names w).1 = Return data err) ∧
  (∀ code body, names = [] →
     (doReq ctx [] w).1 = Fail (httpStatusErr code body) → code = 400 ∨ code = 413 →
     (fetchSplit ctx names w).1 = Panic).
Proof.
  split.
  - intros Hsome. by apply fetchSplitWithin_returns.
  - intros code body -> Hreq Hcode. unfold steamdt_dump.fetchSplit.
    cbn [length steamdt_dump.fetchSplitWithin].
    by rewrite (attempts_rejected _ _ _ _ _ _ _ _ code body).
Qed.

End SplitterRuns.

Section Retries.
Import steamdt_dump.

Lemma backoff_doubles i : 0 ≤ i ≤ 35 → backoff i = 250 * 2 ^ i * time.Millisecond.
Proof.
  intros Hi. unfold backoff, time.Millisecond.
  destruct (Z.ltb_spec i 64); [|lia].
  assert (0 < 2 ^ i) by (apply Z.pow_pos_nonneg; lia).
  assert (2 ^ i ≤ 2 ^ 35) by (apply Z.pow_le_mono_r; lia).
  change (2 ^ 35) with 34359738368 in *.
  rewrite (int64_small (2 ^ i)) by lia.
  rewrite (int64_small (250 * 2 ^ i)) by lia.
  rewrite int64_small by lia. done.
Qed.

Lemma attempts_timeline upstream split names retries attempt w code body :
  upstream names = Fail (httpStatusErr code body) →
  code = 429 ∨ 500 ≤ code < 600 →
  attempts (serve upstream) pass split None names retries attempt w
  = (Return [] (Some (httpStatusErr code body)),
     {| clock := clock w + foldr (fun i c => Z.max (backoff i) 0 + c) 0
                                 (seqZ attempt (Z.of_nat retries));
        trace := (trace w
                  ++ concat ((fun i => [Requested names; Slept (backoff i)])
                               <$> seqZ attempt (Z.of_nat retries))
                  ++ [Requested names])%list |}).
Proof.
  intros Hup Hcode.
  assert ((code =? 400) || (code =? 413) = false) as Hc1.
  { apply orb_false_iff. split; apply Z.eqb_neq; lia. }
  assert ((code =? 429) || ((500 <=? code) && (code <? 600)) = true) as Hc2.
  { destruct Hcode as [-> | ?]; [reflexivity|].
    apply orb_true_iff. right. apply andb_true_iff.
    split; [apply Z.leb_le|apply Z.ltb_lt]; lia. }
  revert attempt w. induction retries as [|r IH]; intros attempt w.
  - simpl. rewrite Hup, Hc1, Hc2. by rewrite Z.add_0_r.
  - cbn [attempts]. unfold serve at 1. rewrite Hup, Hc1, Hc2. rewrite IH.
    rewrite (seqZ_cons attempt (Z.of_nat (S r))) by lia.
    replace (Z.pred (Z.of_nat (S r))) with (Z.of_nat r) by lia.
    replace (Z.succ attempt) with (attempt + 1) by lia.
    f_equal. unfold pass. cbn [clock trace fmap list_fmap concat foldr]. f_equal.
    + lia.
    + by rewrite <- !app_assoc.
Qed.

(** X24. A batch that the upstream keeps answering with 429 or 5xx is
    asked once and once more for each of the [maxRetries] retries, with a
    sleep of [backoff i] before retry [i]; then [fetchSplit] gives up with
    that error and no data, under a context that is never done.  Up to
    the 36th retry the sleep is 250 ms doubled [i] times. *)
Theorem retries_with_doubling_backoff upstream maxRetries names code body :
  upstream names = Fail (httpStatusErr code body) →
  code = 429 ∨ 500 ≤ code < 600 →
  fetchSplit (serve upstream) pass maxRetries None names start
  = (Return [] (Some (httpStatusErr code body)),
     {| clock := foldr (fun i c => Z.max (backoff i) 0 + c) 0
                       (seqZ 0 (Z.max maxRetries 0));
        trace := (concat ((fun i => [Requested names; Slept (backoff i)])
                            <$> seqZ 0 (Z.max maxRetries 0))
                  ++ [Requested names])%list |}) ∧
  (∀ i, 0 ≤ i ≤ 35 → backoff i = 250 * 2 ^ i * time.Millisecond).
Proof.
  intros Hup Hcode. split; [|apply backoff_doubles].
  unfold fetchSplit. destruct (length names);
    cbn [fetchSplitWithin]; rewrite (attempts_timeline _ _ _ _ _ _ code body) by done;
    by replace (Z.of_nat (Z.to_nat maxRetries)) with (Z.max maxRetries 0) by lia.
Qed.

End Retries.

Section Jobs.
Import steamdt_dump.

Lemma enqueueFrom_chunks n names batchSize i jobs :
  0 < batchSize → 0 ≤ i → Z.of_nat (length names) - i ≤ Z.of_nat n →
  enqueueFrom n names batchSize i jobs
  = Closed (jobs ++ steamdt.pieces n names batchSize i).
Proof.
  intros Hsize. revert i jobs. induction n as [|n IH]; intros i jobs Hi Hn.
  - simpl. destruct (Z.ltb_spec i (Z.of_nat (length names))); [lia|].
    by rewrite app_nil_r.
  - cbn [enqueueFrom steamdt.pieces]. cbv zeta.
    destruct (Z.ltb_spec i (Z.of_nat (length names))); [|by rewrite app_nil_r].
    set (end_ := if Z.of_nat (length names) <? i + batchSize
                 then Z.of_nat (length names) else i + batchSize).
    assert (i < end_) as Hend.
    { unfold end_. destruct (Z.ltb_spec (Z.of_nat (length names)) (i + batchSize)); lia. }
    destruct (Z.ltb_spec (end_ - i) 0); [lia|].
    rewrite IH by lia. by rewrite <- app_assoc.
Qed.

Lemma enqueueFrom_zero n names i jobs :
  0 ≤ i < Z.of_nat (length names) →
  enqueueFrom n names 0 i jobs = Turning (jobs ++ replicate n []).
Proof.
  intros Hi. revert jobs. induction n as [|n IH]; intros jobs.
  - simpl. destruct (Z.ltb_spec i (Z.of_nat (length names))); [|lia].
    by rewrite app_nil_r.
  - cbn [enqueueFrom]. cbv zeta.
    destruct (Z.ltb_spec i (Z.of_nat (length names))); [|lia].
    rewrite Z.add_0_r.
    destruct (Z.ltb_spec (Z.of_nat (length names)) i); [lia|].
    rewrite Z.sub_diag. simpl Z.ltb. cbn iota. rewrite IH.
    simpl. by rewrite <- app_assoc.
Qed.

(** X25. The loop of [main] that cuts the names into jobs.  With a
    positive [-batch] it ends, within [len(names)] turns, having sent
    consecutive batches that put together are the names, none empty and
    none longer than the batch size.  With [-batch 0] it never ends: after
    any number of turns it is still turning and has sent that many empty
    batches.  With a negative [-batch] its first turn panics in [make]. *)
Theorem enqueue_cuts_the_names names batchSize :
  names ≠ [] →
  (0 < batchSize →
     ∃ jobs, (∀ n, (length names ≤ n)%nat → enqueue n names batchSize = Closed jobs) ∧
             concat jobs = names ∧
             Forall (fun b => b ≠ [] ∧ Z.of_nat (length b) ≤ batchSize) jobs) ∧
  (batchSize = 0 → ∀ n, enqueue n names batchSize = Turning (replicate n [])) ∧
  (batchSize < 0 → ∀ n, enqueue (S n) names batchSize = MakePanics []).
Proof.
  intros Hsome.
  assert (0 < Z.of_nat (length names)) as Hlen by (destruct names; [done|simpl; lia]).
  split_and!.
  - intros Hpos. exists (steamdt.pieces (length names) names batchSize 0).
    destruct (pieces_spec (length names) names batchSize 0) as (Hcat & Hall & _);
      [lia..|].
    split_and!.
    + intros n Hn. unfold enqueue. rewrite enqueueFrom_chunks by lia. simpl.
      f_equal. apply pieces_enough; lia.
    + done.
    + eapply Forall_impl; [exact Hall|]. intros b [Hb ?]. split; [|done].
      intros ->. simpl in Hb. lia.
  - intros -> n. unfold enqueue. by rewrite enqueueFrom_zero by lia.
  - intros Hneg n. unfold enqueue. cbn [enqueueFrom]. cbv zeta.
    destruct (Z.ltb_spec 0 (Z.of_nat (length names))); [|lia].
    destruct (Z.ltb_spec (Z.of_nat (length names)) (0 + batchSize)); [lia|].
    by destruct (Z.ltb_spec (0 + batchSize - 0) 0); [|lia].
Qed.

End Jobs.

Section JobsScenario.
Import steamdt_dump scenario.

Lemma retries_with_doubling_backoff_witness :
  fetchSplit (serve throttled) pass 3 None ["a"] start
  = (Return [] (Some (httpStatusErr 429 "slow down")),
     {| clock := foldr (fun i c => Z.max (backoff i) 0 + c) 0 (seqZ 0 (Z.max 3 0));
        trace := (concat ((fun i => [Requested ["a"]; Slept (backoff i)])
                            <$> seqZ 0 (Z.max 3 0))
                  ++ [Requested ["a"]])%list |}) ∧
  (∀ i, 0 ≤ i ≤ 35 → backoff i = 250 * 2 ^ i * time.Millisecond).
Proof.
  apply (retries_with_doubling_backoff throttled 3 ["a"] 429 "slow down").
  - reflexivity.
  - by left.
Defined.

(** Three retries: four requests, and sleeps of 250 ms, 500 ms and 1 s. *)
Example three_retries :
  (fetchSplit (serve throttled) pass 3 None ["a"] start).2
  = {| clock := 1750 * time.Millisecond;
       trace := [Requested ["a"]; Slept (250 * time.Millisecond);
                 Requested ["a"]; Slept (500 * time.Millisecond);
                 Requested ["a"]; Slept (1000 * time.Millisecond);
                 Requested ["a"]] |}.
Proof. by vm_compute. Qed.

Lemma enqueue_cuts_the_names_witness :
  (0 < 2 →
     ∃ jobs, (∀ n, (length ["a"; "b"; "c"] ≤ n)%nat →
                   enqueue n ["a"; "b"; "c"] 2 = Closed jobs) ∧
             concat jobs = ["a"; "b"; "c"] ∧
             Forall (fun b => b ≠ [] ∧ Z.of_nat (length b) ≤ 2) jobs) ∧
  (2 = 0 → ∀ n, enqueue n ["a"; "b"; "c"] 2 = Turning (replicate n [])) ∧
  (2 < 0 → ∀ n, enqueue (S n) ["a"; "b"; "c"] 2 = MakePanics []).
Proof. by apply (enqueue_cuts_the_names ["a"; "b"; "c"] 2). Defined.

Example jobs_of_three : enqueue 3 ["a"; "b"; "c"] 2 = Closed [["a"; "b"]; ["c"]].
Proof. reflexivity. Qed.

End JobsScenario.

(** ** Binary64: rounding above a number *)

Section Binary64Above.
Import binary64.

Lemma finish_normal (q : positive) e :
  Z.pos (digits2_pos q) = 53 → -1074 ≤ e →
  finish false (Z.pos q) e
  = if e <=? 971 then S754_finite false q e else S754_infinity false.
Proof.
  intros Hd He. unfold finish. rewrite shr_fexp_stays.
  2:{ rewrite Hd. unfold fexp, prec, emax, emin. lia. }
  simpl. done.
Qed.

Lemma finish_carried e :
  -1074 ≤ e →
  finish false (2 ^ 53) e
  = if e + 1 <=? 971 then S754_finite false 4503599627370496 (e + 1)
    else S754_infinity false.
Proof.
  intros He. unfold finish.
  change (2 ^ 53) with (Z.pos 9007199254740992).
  rewrite (shr_fexp_shifts _ _ _ 1).
  2:{ simpl digits2_pos. unfold fexp, prec, emax, emin. lia. }
  simpl. done.
Qed.

(** An integer that is [m * 2 ^ e] or more, counted in units of
    [2 ^ eD], rounds to a number that is not below [m * 2 ^ e]. *)
Lemma normalize_above (m : positive) (e D eD : Z) :
  Z.pos (digits2_pos m) = 53 → -1074 ≤ eD ≤ e →
  Z.pos m * 2 ^ (e - eD) ≤ D →
  SFleb (S754_finite false m e) (binary_normalize prec emax D eD false) = true.
Proof.
  intros Hm He HD.
  pose proof (digits2_bounds m) as Hmb. rewrite Hm in Hmb. simpl in Hmb.
  pose proof (pow2_pos (e - eD)) as Hpow.
  destruct D as [|p|p]; [lia| |lia]. simpl binary_normalize.
  pose proof (digits2_bounds p) as Hpb.
  set (δ := Z.pos (digits2_pos p)) in *.
  assert (53 + (e - eD) ≤ δ) as Hδ.
  { assert (52 + (e - eD) < δ); [|lia].
    apply (Z.pow_lt_mono_r_iff 2); [lia..|].
    rewrite pow2_add by lia. change (2 ^ 52) with 4503599627370496 in *. nia. }
  assert (fexp prec emax (δ + eD) = δ + eD - 53) as Hfexp.
  { unfold fexp, prec, emax, emin. lia. }
  unfold binary_round. fold δ. rewrite Hfexp.
  assert (shl_align p eD (δ + eD - 53) = (p, eD)) as ->.
  { unfold shl_align. destruct (δ + eD - 53 - eD) eqn:E; try done. lia. }
  rewrite round_aux_finish.
  destruct (Z.eq_dec δ 53) as [H53|Hmore].
  - (* 53 digits: nothing is shifted *)
    rewrite shr_fexp_stays by (fold δ; lia). simpl.
    rewrite finish_normal by (fold δ; lia).
    assert (e = eD) as -> by lia. rewrite Z.sub_diag in HD. simpl in HD.
    destruct (Z.leb_spec eD 971); [|done].
    apply SFleb_finite. right. split; [done|lia].
  - (* more digits: shifted right and rounded *)
    assert (∃ n, Z.pos n = δ - 53) as [n Hn].
    { destruct (δ - 53) as [|n|n] eqn:E; try lia. by exists n. }
    rewrite (shr_fexp_shifts _ _ _ n) by (fold δ; lia).
    cbn [fst snd].
    rewrite iter_shr_1, shr_record_of_loc_m by (by rewrite shr_record_of_loc_m).
    set (m' := Z.pos p / 2 ^ Z.pos n).
    set (l' := loc_of_shr_record _).
    pose proof (round_nearest_even_bounds m' l') as Hrne.
    set (m'' := round_nearest_even m' l') in *.
    pose proof (pow2_pos (Z.pos n)) as Hpn.
    assert (2 ^ 52 ≤ m' < 2 ^ 53) as Hm'.
    { unfold m'. split.
      - apply Z.div_le_lower_bound; [lia|].
        rewrite <- pow2_add by lia. replace (Z.pos n + 52) with (δ - 1) by lia. lia.
      - apply Z.div_lt_upper_bound; [lia|].
        rewrite <- pow2_add by lia. replace (Z.pos n + 53) with δ by lia. lia. }
    assert (eD + Z.pos n = e → Z.pos m ≤ m') as Hsame.
    { intros Hee. unfold m'. apply Z.div_le_lower_bound; [lia|].
      replace (Z.pos n) with (e - eD) by lia. lia. }
    change (2 ^ 52) with 4503599627370496 in *.
    change (2 ^ 53) with 9007199254740992 in *.
    destruct (Z.eq_dec m'' 9007199254740992) as [Hcarry|Hnocarry].
    + rewrite Hcarry. change 9007199254740992 with (2 ^ 53).
      rewrite finish_carried by lia.
      destruct (Z.leb_spec (eD + Z.pos n + 1) 971); [|done].
      apply SFleb_finite. left. lia.
    + destruct m'' as [|q|q] eqn:Eq; try lia.
      assert (Z.pos (digits2_pos q) = 53) as Hq.
      { apply digits2_unique. simpl Z.sub.
        change (2 ^ 52) with 4503599627370496.
        change (2 ^ 53) with 9007199254740992. lia. }
      rewrite finish_normal by (try done; lia).
      destruct (Z.leb_spec (eD + Z.pos n) 971); [|done].
      apply SFleb_finite.
      destruct (Z.eq_dec (eD + Z.pos n) e) as [Hee|]; [right|left; lia].
      split; [done|]. specialize (Hsame Hee). lia.
Qed.

End Binary64Above.

Section Binary64AtLeast.
Import binary64.

Lemma atLeast_weaken k k' x : k' ≤ k → atLeast k x → atLeast k' x.
Proof.
  intros Hk. destruct x as [s|[]| |[] m e]; try done.
  intros (Hd & He & Hv). split; [done|]. split; [done|].
  assert (0 < 2 ^ 52) by done. nia.
Qed.

Lemma atLeast_one x : atLeast 1 x → SFleb SFone x = true.
Proof.
  destruct x as [s|[]| |[] m e]; try done.
  intros (Hd & He & Hv). apply SFleb_finite.
  destruct (Z.eq_dec e (-52)) as [->|]; [right|left; lia].
  split; [done|]. simpl in Hv. lia.
Qed.

(** A number that is not below a number that is [k] or more is [k] or
    more. *)
Lemma atLeast_leb k x y :
  atLeast k x → valid_binary y = true → SFleb x y = true → atLeast k y.
Proof.
  destruct x as [s|[]| |[] m e]; try done.
  - intros _ _. by destruct y as [s|[]| |[] my ey].
  - intros (Hd & He & Hv) Hvalid Hle.
    destruct y as [s|[]| |[] my ey]; try done.
    simpl in Hvalid. unfold bounded, canonical_mantissa in Hvalid.
    apply andb_true_iff in Hvalid as [Hcanon Hmax].
    apply Z.eqb_eq in Hcanon. apply Z.leb_le in Hmax.
    unfold SFleb, SFcompare in Hle.
    change (Pos.compare_cont Eq m my) with (m ?= my)%positive in Hle.
    assert (e < ey ∨ (e = ey ∧ Z.pos m ≤ Z.pos my)) as Horder.
    { destruct (Z.compare_spec e ey); [right|by left|done].
      split; [done|]. destruct (Pos.compare_spec m my); try done; lia. }
    assert (Z.pos (digits2_pos my) = 53) as Hdy.
    { unfold fexp, prec, emax, emin in Hcanon. lia. }
    unfold emax, prec in Hmax.
    split; [done|]. split; [lia|].
    pose proof (digits2_bounds m) as Hmb. rewrite Hd in Hmb. simpl in Hmb.
    pose proof (digits2_bounds my) as Hyb. rewrite Hdy in Hyb. simpl in Hyb.
    destruct Horder as [Hlt|[-> Hmm]].
    + pose proof (pow2_pos (e + 52)).
      assert (2 ^ (ey + 52) = 2 ^ (e + 52) * 2 ^ (ey - e)) as ->.
      { rewrite <- pow2_add by lia. f_equal. lia. }
      assert (2 ≤ 2 ^ (ey - e)).
      { change 2 with (2 ^ 1) at 1. apply Z.pow_le_mono_r; lia. }
      change (2 ^ 52) with 4503599627370496 in *.
      change (2 ^ 53) with 9007199254740992 in *.
      set (A := 2 ^ (e + 52)) in *. set (B := 2 ^ (ey - e)) in *.
      assert (Z.pos m * A ≤ 9007199254740992 * A) by nia.
      assert (9007199254740992 * A ≤ Z.pos my * (A * 2)) by nia.
      assert (Z.pos my * (A * 2) ≤ Z.pos my * (A * B)).
      { apply Z.mul_le_mono_nonneg_l; [lia|]. apply Z.mul_le_mono_nonneg_l; lia. }
      lia.
    + pose proof (pow2_pos (ey + 52)). nia.
Qed.

(** A number that is one or more does not decrease when a number that
    is not negative is added to it. *)
Lemma SFadd_above k x y :
  atLeast k x → SFnonneg y → valid_binary y = true →
  SFleb x (SF64add x y) = true.
Proof.
  destruct x as [s|[]| |[] m e]; try done.
  - intros _. by destruct y as [[]|[]| |[] my ey].
  - intros (Hd & He & Hv) Hy Hvalid.
    destruct y as [sy|[]| |[] my ey]; try done.
    + simpl. apply SFleb_finite. right. split; [done|lia].
    + simpl in Hvalid. unfold bounded, canonical_mantissa in Hvalid.
      apply andb_true_iff in Hvalid as [Hcanon _]. apply Z.eqb_eq in Hcanon.
      assert (-1074 ≤ ey) by (unfold fexp, prec, emax, emin in Hcanon; lia).
      unfold SF64add, SFadd. simpl cond_Zopp.
      rewrite (shl_align_fst m e (Z.min e ey)) by lia.
      apply normalize_above; [done|lia|].
      pose proof (Pos2Z.is_pos (shl_align my ey (Z.min e ey)).1). lia.
Qed.

(** The integers below [2 ^ 53] are numbers. *)
Lemma integer_is_a_number k :
  1 ≤ k < 2 ^ 53 →
  ∃ q e, Z.pos (digits2_pos q) = 53 ∧ -52 ≤ e ≤ 0 ∧
         Z.pos q * 2 ^ (e + 52) = k * 2 ^ 52.
Proof.
  intros Hk. destruct k as [|p|p]; try lia.
  pose proof (digits2_bounds p) as Hpb.
  set (δ := Z.pos (digits2_pos p)) in *.
  assert (1 ≤ δ) by (unfold δ; lia).
  assert (δ ≤ 53).
  { assert (δ - 1 < 53); [|lia]. apply (Z.pow_lt_mono_r_iff 2); lia. }
  pose proof (pow2_pos (53 - δ)) as Hs.
  destruct (2 ^ (53 - δ)) as [|s|s] eqn:Es; try lia.
  exists (p * s)%positive, (δ - 53). split; [|split; [lia|]].
  - apply digits2_unique. rewrite Pos2Z.inj_mul, <- Es.
    assert (2 ^ (53 - 1) = 2 ^ (δ - 1) * 2 ^ (53 - δ)) as ->.
    { rewrite <- pow2_add by lia. f_equal. lia. }
    assert (2 ^ 53 = 2 ^ δ * 2 ^ (53 - δ)) as ->.
    { rewrite <- pow2_add by lia. f_equal. lia. }
    nia.
  - rewrite Pos2Z.inj_mul, <- Es.
    assert (2 ^ 52 = 2 ^ (53 - δ) * 2 ^ (δ - 53 + 52)) as ->.
    { rewrite <- pow2_add by lia. f_equal. lia. }
    ring.
Qed.

(** One less than a number that is [k] or more is [k - 1] or more. *)
Lemma SFsub_above k x :
  2 ≤ k ≤ 2 ^ 53 → atLeast k x →
  valid_binary (SF64sub x SFone) = true →
  atLeast (k - 1) (SF64sub x SFone).
Proof.
  intros Hk. destruct x as [s|[]| |[] m e]; try done.
  intros (Hd & He & Hv) Hvalid.
  destruct (integer_is_a_number (k - 1)) as (q & eq & Hq & Heq & Hval); [lia|].
  apply (atLeast_leb _ (S754_finite false q eq)); [|done|].
  { split; [done|]. split; lia. }
  unfold SF64sub, SFsub, SFone. rewrite Z.min_r by lia. simpl cond_Zopp.
  rewrite (shl_align_fst m e (-52)) by lia.
  change (Z.pos (shl_align 4503599627370496 (-52) (-52)).1) with (2 ^ 52).
  replace (e - -52) with (e + 52) by lia.
  apply normalize_above; [done|lia|].
  replace (eq - -52) with (eq + 52) by lia. rewrite Hval.
  assert (0 < 2 ^ 52) by done. lia.
Qed.

(** The conversion of an integer from one to [2 ^ 53] is the integer. *)
Lemma normalize_integer k :
  1 ≤ k < 2 ^ 53 → atLeast k (binary_normalize prec emax k 0 false).
Proof.
  intros Hk. destruct k as [|p|p]; try lia. simpl binary_normalize.
  pose proof (digits2_bounds p) as Hpb.
  set (δ := Z.pos (digits2_pos p)) in *.
  assert (1 ≤ δ) by (unfold δ; lia).
  assert (δ ≤ 53).
  { assert (δ - 1 < 53); [|lia]. apply (Z.pow_lt_mono_r_iff 2); lia. }
  assert (fexp prec emax (δ + 0) = δ - 53) as Hfexp.
  { unfold fexp, prec, emax, emin. lia. }
  unfold binary_round. fold δ. rewrite Hfexp. unfold shl_align.
  destruct (δ - 53 - 0) as [|n|d] eqn:Ed; try lia.
  - (* 53 digits *)
    rewrite round_aux_finish, shr_fexp_stays by (fold δ; lia). simpl.
    rewrite finish_normal by (fold δ; lia). simpl.
    split; [fold δ; lia|]. split; [lia|]. simpl. lia.
  - (* fewer: shifted left, exactly *)
    assert (Z.pos d = 53 - δ) as Hd by lia.
    pose proof (pow2_pos (Z.pos d)).
    assert (Z.pos (digits2_pos (Pos.iter xO p d)) = 53) as Hq.
    { apply digits2_unique. rewrite iter_xO.
      assert (2 ^ (53 - 1) = 2 ^ (δ - 1) * 2 ^ Z.pos d) as ->.
      { rewrite <- pow2_add by lia. f_equal. lia. }
      assert (2 ^ 53 = 2 ^ δ * 2 ^ Z.pos d) as ->.
      { rewrite <- pow2_add by lia. f_equal. lia. }
      nia. }
    rewrite round_aux_finish, shr_fexp_stays.
    2:{ rewrite Hq. unfold fexp, prec, emax, emin. lia. }
    simpl. rewrite finish_normal by (try done; lia).
    destruct (Z.leb_spec (δ - 53) 971); [|lia].
    split; [done|]. split; [lia|]. rewrite iter_xO.
    assert (2 ^ 52 = 2 ^ Z.pos d * 2 ^ (δ - 53 + 52)) as ->.
    { rewrite <- pow2_add by lia. f_equal. lia. }
    ring_simplify. lia.
Qed.

End Binary64AtLeast.

(** ** The token bucket: the burst *)

Section Burst.
Import ratelimit binary64.
Local Open Scope float_scope.

Lemma float64_integer k :
  (1 ≤ k < 2 ^ 53)%Z → atLeast k (Prim2SF (float64 k)).
Proof.
  intros Hk. unfold float64. destruct (Z.ltb_spec k 0); [lia|].
  rewrite of_uint63_spec, Uint63.of_Z_spec.
  rewrite Z.mod_small.
  - by apply normalize_integer.
  - change Uint63.wB with (2 ^ 63)%Z. change (2 ^ 53)%Z with 9007199254740992%Z in Hk.
    change (2 ^ 63)%Z with 9223372036854775808%Z. lia.
Qed.

Lemma refill_atLeast k tb now :
  sound tb → atLeast k (Prim2SF (tokens tb)) → atLeast k (Prim2SF (capacity tb)) →
  atLeast k (Prim2SF (tokens (refill tb now))).
Proof.
  intros [Hrate _] Htokens Hcap. unfold refill.
  destruct (0 <? Seconds (time.Sub now (last tb))) eqn:E; [|done].
  cbn [tokens]. destruct (capacity tb <? _); [done|].
  apply (atLeast_leb k (Prim2SF (tokens tb))); [done|apply Prim2SF_valid|].
  rewrite FloatAxioms.add_spec. apply (SFadd_above k); [done| |apply Prim2SF_valid].
  apply leb_zero. by apply mul_positive.
Qed.

Lemma capacity_refill tb now : capacity (refill tb now) = capacity tb.
Proof. unfold refill. by destruct (0 <? _). Qed.

Lemma capacity_turn tb now : capacity (turn tb now).1 = capacity tb.
Proof.
  unfold turn. destruct (1 <=? tokens (refill tb now)); simpl; apply capacity_refill.
Qed.

(** A turn that finds [k] tokens or more, [k] being one at least, takes
    one without waiting and leaves [k - 1] or more. *)
Lemma turn_takes k tb now :
  (1 ≤ k ≤ 2 ^ 53)%Z → sound tb →
  atLeast k (Prim2SF (tokens tb)) → atLeast k (Prim2SF (capacity tb)) →
  (turn tb now).2 = None ∧
  ((2 ≤ k)%Z → atLeast (k - 1) (Prim2SF (tokens (turn tb now).1))).
Proof.
  intros Hk Hsound Htokens Hcap.
  pose proof (refill_atLeast k tb now Hsound Htokens Hcap) as Hr.
  unfold turn.
  assert ((1 <=? tokens (refill tb now)) = true) as ->.
  { rewrite FloatAxioms.leb_spec. apply atLeast_one. apply (atLeast_weaken k); [lia|done]. }
  split; [done|]. intros Hk2. cbn [fst tokens].
  rewrite FloatAxioms.sub_spec. apply SFsub_above; [lia|done|].
  change SFone with (Prim2SF 1). rewrite <- FloatAxioms.sub_spec. apply Prim2SF_valid.
Qed.

Lemma after_takes nows tb k :
  (Z.of_nat (length nows) < k ≤ 2 ^ 53)%Z → sound tb →
  atLeast k (Prim2SF (tokens tb)) → atLeast k (Prim2SF (capacity tb)) →
  sound (after tb nows) ∧
  atLeast (k - Z.of_nat (length nows)) (Prim2SF (tokens (after tb nows))) ∧
  capacity (after tb nows) = capacity tb.
Proof.
  revert tb k. induction nows as [|now nows IH]; intros tb k Hk Hsound Htokens Hcap.
  { simpl. by rewrite Z.sub_0_r. }
  cbn [after foldl length] in *. fold (after (turn tb now).1 nows).
  destruct (turn_takes k tb now) as [_ Htook]; [lia|done..|].
  destruct (IH (turn tb now).1 (k - 1)%Z) as (Hs & Ht & Hc).
  - lia.
  - by apply turn_sound.
  - apply Htook. lia.
  - rewrite capacity_turn. apply (atLeast_weaken k); [lia|done].
  - split; [done|]. split; [|by rewrite Hc, capacity_turn].
    replace (k - Z.of_nat (S (length nows)))%Z
      with (k - 1 - Z.of_nat (length nows))%Z by lia. done.
Qed.

(** X26. The burst is not throttled: in a bucket made by
    [NewTokenBucket] from a rate that is a number and a burst from one to
    [2 ^ 53], each of the first [burst] turns of [wait] takes a token
    without waiting, whatever the instants of the turns, back in time as
    well.  Computed in binary64. *)
Theorem burst_is_not_throttled tokensPerSecond burst now0 nows now :
  is_nan tokensPerSecond = false →
  (1 ≤ burst < 2 ^ 53)%Z → (Z.of_nat (length nows) < burst)%Z →
  (turn (after (NewTokenBucket tokensPerSecond burst now0) nows) now).2 = None.
Proof.
  intros Hnan Hburst Hlen.
  set (tb0 := NewTokenBucket tokensPerSecond burst now0).
  assert (sound tb0) as Hsound by by apply NewTokenBucket_sound.
  assert (atLeast burst (Prim2SF (tokens tb0)) ∧ atLeast burst (Prim2SF (capacity tb0)))
    as [Htokens Hcap].
  { unfold tb0, NewTokenBucket. cbn [tokens capacity].
    destruct (Z.leb_spec burst 0); [lia|]. split; by apply float64_integer. }
  destruct (after_takes nows tb0 burst) as (Hs & Ht & Hc); [lia|done..|].
  destruct (turn_takes (burst - Z.of_nat (length nows)) (after tb0 nows) now) as [Hnone _];
    [lia|done|done| |done].
  rewrite Hc. apply (atLeast_weaken burst); [lia|done].
Qed.

End Burst.

Section BurstScenario.
Import ratelimit scenario.
Local Open Scope float_scope.

Lemma burst_is_not_throttled_witness :
  (turn (after bucket [time.test_instant; time.Add time.test_instant time.Millisecond])
        (time.Add time.test_instant time.Millisecond)).2 = None.
Proof.
  apply (burst_is_not_throttled 2 3 time.test_instant
           [time.test_instant; time.Add time.test_instant time.Millisecond]
           (time.Add time.test_instant time.Millisecond)).
  - reflexivity.
  - by vm_compute.
  - reflexivity.
Defined.

End BurstScenario.

(** ** The minimum interval between calls *)

Section Gate.
Import MinInterval.

(** X27. With a positive interval, calls made one after the other
    through [MinInterval] reach the wrapped provider at least the
    interval apart: a call that follows one whose wrapped provider
    returned at [last] calls its own no earlier than [last + Interval],
    and leaves the instant of its return behind; or its context is done
    first, and then it returns the error of the context without calling
    the wrapped provider and without touching [last]. *)
Theorem calls_are_an_interval_apart m env symbols :
  0 < Interval m → timely env →
  let r := Fetch m env symbols in
  match r.1.2 with
  | Some at_ =>
      time.Add (last m) (Interval m) ≤ at_ ∧ now env ≤ at_ ∧
      r.1.1 = P_Fetch env at_ symbols ∧
      r.2 = {| Interval := Interval m; last := returned env at_ |}
  | None =>
      r.2 = m ∧ now env < time.Add (last m) (Interval m) ∧
      ∃ err, select env (time.Sub (time.Add (last m) (Interval m)) (now env))
             = CtxDone err ∧ r.1.1 = ([], Some err)
  end.
Proof.
  intros Hpos Htimely. unfold Fetch, proceed, time.Add, time.Sub.
  destruct (Z.ltb_spec 0 (Interval m)); [|lia].
  destruct (Z.ltb_spec 0 (last m + Interval m - now env)) as [Hwait|Hnowait].
  - destruct (select env (last m + Interval m - now env)) as [err|at_] eqn:E; simpl.
    + split; [done|]. split; [lia|]. by exists err.
    + apply Htimely in E. split_and!; [lia|lia|done..].
  - simpl. split_and!; [lia|lia|done..].
Qed.

(** Without an interval the calls are not held back. *)
Lemma no_interval_no_gate m env symbols :
  Interval m ≤ 0 →
  Fetch m env symbols = ((P_Fetch env (now env) symbols, Some (now env)), m).
Proof.
  intros Hle. unfold Fetch, proceed. by destruct (Z.ltb_spec 0 (Interval m)); [lia|].
Qed.

End Gate.

Section GateScenario.
Import MinInterval scenario.

Lemma calls_are_an_interval_apart_witness :
  let m := {| Interval := 2 * time.Second; last := time.test_instant |} in
  let env := {| now := time.Add time.test_instant time.Second;
                select := fun d => TimerFired (time.Add (time.Add time.test_instant time.Second) d);
                P_Fetch := fun _ _ => ([quoteX], None);
                returned := fun at_ => time.Add at_ time.Millisecond |} in
  let r := Fetch m env ["X"] in
  match r.1.2 with
  | Some at_ =>
      time.Add (last m) (Interval m) ≤ at_ ∧ now env ≤ at_ ∧
      r.1.1 = P_Fetch env at_ ["X"] ∧
      r.2 = {| Interval := Interval m; last := returned env at_ |}
  | None =>
      r.2 = m ∧ now env < time.Add (last m) (Interval m) ∧
      ∃ err, select env (time.Sub (time.Add (last m) (Interval m)) (now env))
             = CtxDone err ∧ r.1.1 = ([], Some err)
  end.
Proof.
  apply (calls_are_an_interval_apart
           {| Interval := 2 * time.Second; last := time.test_instant |}
           {| now := time.Add time.test_instant time.Second;
              select := fun d => TimerFired (time.Add (time.Add time.test_instant time.Second) d);
              P_Fetch := fun _ _ => ([quoteX], None);
              returned := fun at_ => time.Add at_ time.Millisecond |} ["X"]).
  - reflexivity.
  - intros d at_ [= <-]. reflexivity.
Defined.

End GateScenario.

(** ** The Pricempire adapter *)

Section Adapter.
Import pricempireadapter.
Context {U : Unicode}.
Variable FormatFloat : float → string.
Variable rangeWant : gset string → list string.
Variable rangeItems : gmap string pricempire.Item → list (string * pricempire.Item).
Variable rangePrices : gmap string pricempire.Price → list (string * pricempire.Price).

Local Abbreviation quoteOf := (quoteOf FormatFloat).
Local Abbreviation priced := (priced FormatFloat).
Local Abbreviation emit := (emit FormatFloat rangePrices).
Local Abbreviation quotes := (quotes FormatFloat rangeWant rangeItems rangePrices).
Local Abbreviation Fetch := (Fetch FormatFloat rangeWant rangeItems rangePrices).
Local Abbreviation ranges := (ranges rangeWant rangeItems rangePrices).

Lemma quoteOf_Some c now name sp q :
  quoteOf c now name sp = Some q ↔ priced c now name sp.1 sp.2 q.
Proof.
  unfold pricempireadapter.quoteOf, pricempireadapter.priced. destruct (pricempire.Price_ sp.2) as [v|].
  - destruct (String.eqb_spec (formatFloat FormatFloat v) "") as [E|E]; split.
    + done.
    + by intros (v' & [= <-] & Hne & _).
    + intros [= <-]. by exists v.
    + by intros (v' & [= <-] & _ & ->).
  - split; [done|]. by intros (v' & [=] & _).
Qed.

Lemma elem_of_emit c now name it q :
  (∀ m, rangePrices m ≡ₚ map_to_list m) →
  q ∈ emit c now name it ↔
  ∃ src p, pricempire.Prices it !! src = Some p ∧ priced c now name src p q.
Proof.
  intros Hrange. unfold pricempireadapter.emit. rewrite list_elem_of_omap. split.
  - intros ([src p] & Hin & Hq). rewrite (Hrange _) in Hin.
    apply elem_of_map_to_list in Hin. apply quoteOf_Some in Hq. by exists src, p.
  - intros (src & p & Hin & Hq). exists (src, p). split.
    + rewrite (Hrange _). by apply elem_of_map_to_list.
    + by apply quoteOf_Some.
Qed.

Lemma want_empty (symbols : list string) :
  (0 <? size (list_to_set symbols : gset string))%nat = false → symbols = [].
Proof.
  intros E. apply Nat.ltb_ge in E. destruct symbols as [|s symbols]; [done|].
  assert (size (list_to_set (s :: symbols) : gset string) ≠ 0)%nat; [|lia].
  apply size_non_empty_iff. intros Hempty.
  assert (s ∈ (list_to_set (s :: symbols) : gset string)) as Hs
    by (apply elem_of_list_to_set, list_elem_of_here).
  rewrite Hempty in Hs. by apply not_elem_of_empty in Hs.
Qed.

Lemma elem_of_quotes c m now symbols q :
  ranges →
  q ∈ quotes c m now symbols ↔
  ∃ name it src p,
    (symbols = [] ∨ name ∈ symbols) ∧ m !! name = Some it ∧
    pricempire.Prices it !! src = Some p ∧ priced c now name src p q.
Proof.
  intros (HW & HI & HP). unfold pricempireadapter.quotes.
  destruct (0 <? size (list_to_set symbols : gset string))%nat eqn:E.
  - assert (symbols ≠ []) as Hne by (by intros ->).
    rewrite elem_of_flat_map. split.
    + intros (name & Hname & Hq). rewrite (HW _) in Hname.
      apply elem_of_elements, elem_of_list_to_set in Hname.
      destruct (m !! name) as [it|] eqn:Em; [|by apply elem_of_nil in Hq].
      apply elem_of_emit in Hq as (src & p & Hp & Hq); [|done].
      exists name, it, src, p. split_and!; try done. by right.
    + intros (name & it & src & p & [->|Hname] & Em & Hp & Hq); [done|].
      exists name. split.
      * rewrite (HW _). by apply elem_of_elements, elem_of_list_to_set.
      * rewrite Em. apply elem_of_emit; [done|]. by exists src, p.
  - apply want_empty in E as ->. rewrite elem_of_flat_map. split.
    + intros ([name it] & Hin & Hq). rewrite (HI _) in Hin.
      apply elem_of_map_to_list in Hin.
      apply elem_of_emit in Hq as (src & p & Hp & Hq); [|done].
      exists name, it, src, p. split_and!; try done. by left.
    + intros (name & it & src & p & _ & Em & Hp & Hq). exists (name, it). split.
      * rewrite (HI _). by apply elem_of_map_to_list.
      * apply elem_of_emit; [done|]. by exists src, p.
Qed.

Lemma flat_map_bind {A B} (f : A → list B) (l : list A) : flat_map f l = l ≫= f.
Proof. induction l as [|x l IH]; [done|]. cbn. by rewrite IH. Qed.

Lemma NoDup_omap_key {A B K} (f : A → option B) (key : A → K) (l : list A) :
  NoDup (key <$> l) →
  (∀ x x' y, f x = Some y → f x' = Some y → key x = key x') →
  NoDup (omap f l).
Proof.
  intros Hl Hinj. induction l as [|x l IH]; [constructor|].
  cbn [fmap list_fmap] in Hl. apply NoDup_cons in Hl as [Hx Hl].
  cbn [omap list_omap]. destruct (f x) as [y|] eqn:E; [|by apply IH].
  apply NoDup_cons. split; [|by apply IH].
  intros (x' & Hx' & E')%list_elem_of_omap. apply Hx.
  rewrite (Hinj x x' y E E'). apply list_elem_of_fmap. by exists x'.
Qed.

Lemma quoteOf_symbol c now name sp q :
  quoteOf c now name sp = Some q → provider.Symbol q = name.
Proof. intros (v & _ & _ & ->)%quoteOf_Some. done. Qed.

Lemma NoDup_emit c now name it :
  (∀ m, rangePrices m ≡ₚ map_to_list m) → NoDup (emit c now name it).
Proof.
  intros Hrange. unfold pricempireadapter.emit. apply (NoDup_omap_key _ fst).
  - rewrite (Hrange _). apply NoDup_fst_map_to_list.
  - intros sp sp' q (v & _ & _ & ->)%quoteOf_Some (v' & _ & _ & Heq)%quoteOf_Some.
    injection Heq as _ Hsrc. by apply String.app_inj, String.app_inj in Hsrc.
Qed.

Lemma emit_symbol c now name it q :
  q ∈ emit c now name it → provider.Symbol q = name.
Proof.
  unfold pricempireadapter.emit. intros (sp & _ & Hq)%list_elem_of_omap.
  by apply quoteOf_symbol in Hq.
Qed.

Lemma NoDup_quotes c m now symbols : ranges → NoDup (quotes c m now symbols).
Proof.
  intros (HW & HI & HP). unfold pricempireadapter.quotes.
  destruct (0 <? size (list_to_set symbols : gset string))%nat; rewrite flat_map_bind.
  - apply NoDup_bind.
    + intros x1 x2 q _ _ H1 H2.
      destruct (m !! x1); [|by apply elem_of_nil in H1].
      destruct (m !! x2); [|by apply elem_of_nil in H2].
      apply emit_symbol in H1, H2. congruence.
    + intros x _. destruct (m !! x); [by apply NoDup_emit|constructor].
    + rewrite (HW _). apply NoDup_elements.
  - apply NoDup_bind.
    + intros [n1 i1] [n2 i2] q H1 H2 Hq1 Hq2. rewrite (HI _) in H1, H2.
      apply elem_of_map_to_list in H1, H2. apply emit_symbol in Hq1, Hq2.
      cbn [fst] in *. assert (n1 = n2) as -> by congruence. congruence.
    + intros x _. by apply NoDup_emit.
    + rewrite (HI _). apply NoDup_map_to_list.
Qed.

Lemma byName_snoc items it :
  byName (items ++ [it]) = <[pricempire.Name it := it]> (byName items).
Proof. unfold byName. by rewrite foldl_app. Qed.

Lemma byName_filled items : items ≠ [] → (0 < size (byName items))%nat.
Proof.
  destruct items as [|it items _] using rev_ind; [done|]. intros _.
  rewrite byName_snoc.
  assert (size (<[pricempire.Name it := it]> (byName items)) ≠ 0)%nat; [|lia].
  apply map_size_non_empty_iff, insert_non_empty.
Qed.

(** X28. The quotes of the Pricempire adapter when it returns no error,
    over the items it has cached or fetched.  With symbols, they are those
    of the requested names found among the items; without any symbol, they
    are those of all the items.  Each price of an item that has a number
    the adapter can print gives one quote: the name of the item, the
    number printed, the configured currency, the tag [Name:source], and
    the instant the price was created, or the clock when it has none.  No
    quote is returned twice, also for a name that is requested twice. *)
Theorem adapter_quotes a env symbols :
  ranges →
  let r := Fetch a env symbols in
  r.1.2 = None →
  ∃ m, (cached a (clock1 env) = Some m ∨
        cached a (clock1 env) = None ∧
        ∃ items, GetAllItemsV3 env (AppID (cfg a)) (Currency (cfg a)) (Sources (cfg a))
                 = (items, None) ∧ m = byName items) ∧
       NoDup r.1.1 ∧
       ∀ q, q ∈ r.1.1 ↔
            ∃ name it src p,
              (symbols = [] ∨ name ∈ symbols) ∧ m !! name = Some it ∧
              pricempire.Prices it !! src = Some p ∧
              priced (cfg a) (clock3 env) name src p q.
Proof.
  intros Hr. unfold pricempireadapter.Fetch.
  destruct (cached a (clock1 env)) as [m|] eqn:Ec.
  - intros _. exists m. split; [by left|]. split; [by apply NoDup_quotes|].
    intros q. by apply elem_of_quotes.
  - destruct (GetAllItemsV3 env _ _ _) as [items [err|]] eqn:Eg; [done|].
    intros _. exists (byName items). split; [|split].
    + right. split; [done|]. by exists items.
    + by apply NoDup_quotes.
    + intros q. by apply elem_of_quotes.
Qed.

(** X29. The items the adapter has fetched serve the calls that follow
    until they expire.  After a call that missed the cache and got items
    from the client, with a positive time to live: as long as the clock is
    before the expiry a call is answered from these items, whatever the
    client would say, and leaves the adapter as it is; from the expiry on,
    or when the client had returned no item at all, the next call misses
    the cache again. *)
Theorem fetched_items_serve_until_expiry a env env' symbols symbols' items :
  0 < ttl (cfg a) → 0 ≤ clock2 env →
  cached a (clock1 env) = None →
  GetAllItemsV3 env (AppID (cfg a)) (Currency (cfg a)) (Sources (cfg a)) = (items, None) →
  let a' := (Fetch a env symbols).2 in
  a' = {| cfg := cfg a; itemsByName := byName items;
          itemsExpires := time.Add (clock2 env) (ttl (cfg a)) |} ∧
  (items ≠ [] → clock1 env' < time.Add (clock2 env) (ttl (cfg a)) →
   Fetch a' env' symbols'
   = ((quotes (cfg a) (byName items) (clock3 env') symbols', None), a')) ∧
  (items = [] ∨ time.Add (clock2 env) (ttl (cfg a)) ≤ clock1 env' →
   cached a' (clock1 env') = None).
Proof.
  intros Httl Hclock Hmiss Hget. unfold pricempireadapter.Fetch at 1.
  rewrite Hmiss, Hget. destruct (Z.ltb_spec 0 (ttl (cfg a))) as [_|]; [|lia].
  cbn [snd]. split; [done|]. split.
  - intros Hne Hbefore. unfold pricempireadapter.Fetch, cached. cbn [cfg itemsByName itemsExpires].
    destruct (Z.ltb_spec 0 (ttl (cfg a))) as [_|]; [|lia].
    unfold time.IsZero, time.Before, time.Add in *.
    destruct (Z.eqb_spec (clock2 env + ttl (cfg a)) 0); [lia|].
    destruct (Z.ltb_spec (clock1 env') (clock2 env + ttl (cfg a))); [|lia].
    pose proof (byName_filled items Hne) as Hsize. apply Nat.ltb_lt in Hsize.
    by rewrite Hsize.
  - intros Hor. unfold cached. cbn [cfg itemsByName itemsExpires].
    destruct Hor as [->|Hafter].
    + change (size (byName [])) with (size (∅ : gmap string pricempire.Item)).
      rewrite map_size_empty. by rewrite !andb_false_r.
    + unfold time.Before, time.Add in *.
      destruct (Z.ltb_spec (clock1 env') (clock2 env + ttl (cfg a))); [lia|].
      by rewrite andb_false_r.
Qed.

End Adapter.

Section AdapterScenario.
Import pricempireadapter scenario.

Lemma adapter_quotes_witness :
  let a := {| cfg := {| Name := "Pricempire"; AppID := 730; Currency := "USD";
                        Sources := ["buff"]; ItemsCacheTTLSeconds := 0 |};
              itemsByName := ∅; itemsExpires := time.zero |} in
  let env := {| clock1 := time.test_instant;
                GetAllItemsV3 := fun _ _ _ =>
                  ([{| pricempire.Name := "X"; pricempire.Liquidity := None;
                       pricempire.Prices := {["buff" := {| pricempire.Price_ := Some 2%float;
                                                pricempire.Count := None;
                                                pricempire.Avg30 := None;
                                                pricempire.Inflated := None;
                                                pricempire.CreatedAt := None |}]} |}], None);
                clock2 := time.test_instant; clock3 := time.test_instant |} in
  let r := Fetch (U := GoStrings.ascii_text) (fun _ => "2") elements map_to_list map_to_list
                 a env [] in
  ∃ m, (cached a (clock1 env) = Some m ∨
        cached a (clock1 env) = None ∧
        ∃ items, GetAllItemsV3 env (AppID (cfg a)) (Currency (cfg a)) (Sources (cfg a))
                 = (items, None) ∧ m = byName items) ∧
       NoDup r.1.1 ∧
       ∀ q, q ∈ r.1.1 ↔
            ∃ name it src p,
              (([] : list string) = [] ∨ name ∈ ([] : list string)) ∧ m !! name = Some it ∧
              pricempire.Prices it !! src = Some p ∧
              priced (U := GoStrings.ascii_text) (fun _ => "2") (cfg a) (clock3 env) name src p q.
Proof.
  refine (adapter_quotes (U := GoStrings.ascii_text) (fun _ => "2") elements map_to_list
            map_to_list
            {| cfg := {| Name := "Pricempire"; AppID := 730; Currency := "USD";
                         Sources := ["buff"]; ItemsCacheTTLSeconds := 0 |};
               itemsByName := ∅; itemsExpires := time.zero |}
            {| clock1 := time.test_instant;
               GetAllItemsV3 := fun _ _ _ =>
                 ([{| pricempire.Name := "X"; pricempire.Liquidity := None;
                      pricempire.Prices := {["buff" := {| pricempire.Price_ := Some 2%float;
                                               pricempire.Count := None;
                                               pricempire.Avg30 := None;
                                               pricempire.Inflated := None;
                                               pricempire.CreatedAt := None |}]} |}], None);
               clock2 := time.test_instant; clock3 := time.test_instant |} [] _ _).
  - split; [|split]; intros; reflexivity.
  - reflexivity.
Defined.

Lemma fetched_items_serve_until_expiry_witness :
  let a := {| cfg := {| Name := "Pricempire"; AppID := 730; Currency := "USD";
                        Sources := ["buff"]; ItemsCacheTTLSeconds := 60 |};
              itemsByName := ∅; itemsExpires := time.zero |} in
  let items := [{| pricempire.Name := "X"; pricempire.Liquidity := None; pricempire.Prices := ∅ |}] in
  let env := {| clock1 := time.test_instant;
                GetAllItemsV3 := fun _ _ _ => (items, None);
                clock2 := time.test_instant; clock3 := time.test_instant |} in
  let env' := {| clock1 := time.Add time.test_instant time.Second;
                 GetAllItemsV3 := fun _ _ _ => ([], Some "rate limited");
                 clock2 := time.Add time.test_instant time.Second;
                 clock3 := time.Add time.test_instant time.Second |} in
  let Fetch := Fetch (U := GoStrings.ascii_text) (fun _ => "2") elements map_to_list
                     map_to_list in
  let a' := (Fetch a env ["X"]).2 in
  a' = {| cfg := cfg a; itemsByName := byName items;
          itemsExpires := time.Add (clock2 env) (ttl (cfg a)) |} ∧
  (items ≠ [] → clock1 env' < time.Add (clock2 env) (ttl (cfg a)) →
   Fetch a' env' ["X"]
   = ((quotes (U := GoStrings.ascii_text) (fun _ => "2") elements map_to_list map_to_list
         (cfg a) (byName items) (clock3 env') ["X"], None), a')) ∧
  (items = [] ∨ time.Add (clock2 env) (ttl (cfg a)) ≤ clock1 env' →
   cached a' (clock1 env') = None).
Proof.
  refine (fetched_items_serve_until_expiry (U := GoStrings.ascii_text) (fun _ => "2")
            elements map_to_list map_to_list
            {| cfg := {| Name := "Pricempire"; AppID := 730; Currency := "USD";
                         Sources := ["buff"]; ItemsCacheTTLSeconds := 60 |};
               itemsByName := ∅; itemsExpires := time.zero |}
            {| clock1 := time.test_instant;
               GetAllItemsV3 := fun _ _ _ => ([{| pricempire.Name := "X"; pricempire.Liquidity := None; pricempire.Prices := ∅ |}], None);
               clock2 := time.test_instant; clock3 := time.test_instant |}
            {| clock1 := time.Add time.test_instant time.Second;
               GetAllItemsV3 := fun _ _ _ => ([], Some "rate limited");
               clock2 := time.Add time.test_instant time.Second;
               clock3 := time.Add time.test_instant time.Second |}
            ["X"] ["X"] [{| pricempire.Name := "X"; pricempire.Liquidity := None; pricempire.Prices := ∅ |}] _ _ _ _).
  - reflexivity.
  - by vm_compute.
  - reflexivity.
  - reflexivity.
Defined.

End AdapterScenario.

(** ** The items of a Pricempire response *)

Section PricempireItems.
Import pricempire.
Variable Parse : string → time.Time + error.
Variable rangeBody : gmap string any → list (string * any).

Local Abbreviation priceOf := (priceOf Parse).
Local Abbreviation pricesFrom := (pricesFrom Parse).
Local Abbreviation itemOf := (itemOf Parse).
Local Abbreviation itemsFrom := (itemsFrom Parse).

(** The price that the loop over the sources writes for a source it
    meets. *)
Local Abbreviation written item src :=
  (match item !! src with
   | Some (Map data) => match priceOf data with inl p => Some p | inr _ => None end
   | _ => None
   end).

Lemma pricesFrom_lookup item sources prices res src :
  pricesFrom item sources prices = inl res →
  res !! src = if decide (src ∈ sources)
               then match written item src with
                    | Some p => Some p
                    | None => prices !! src
                    end
               else prices !! src.
Proof.
  revert prices. induction sources as [|source sources IH]; intros prices Hres.
  - injection Hres as <-. by rewrite decide_False by apply not_elem_of_nil.
  - cbn [pricempire.pricesFrom] in Hres.
    assert (∀ prices',
      pricesFrom item sources prices' = inl res →
      (src = source → match written item src with
                      | Some p => Some p
                      | None => prices !! src
                      end = match written item src with
                            | Some p => Some p
                            | None => prices' !! src
                            end
                      ∧ (src ∉ sources → prices' !! src
                         = match written item src with
                           | Some p => Some p
                           | None => prices !! src
                           end)) →
      (src ≠ source → prices' !! src = prices !! src) →
      res !! src = if decide (src ∈ source :: sources)
                   then match written item src with
                        | Some p => Some p
                        | None => prices !! src
                        end
                   else prices !! src) as Hstep.
    { intros prices' Hres' Heq Hne. rewrite (IH _ Hres').
      destruct (decide (src = source)) as [->|Hsrc].
      - destruct (Heq eq_refl) as [Hw Hnot].
        rewrite (decide_True (P := source ∈ source :: sources)) by apply list_elem_of_here.
        destruct (decide (source ∈ sources)); [by rewrite Hw|by apply Hnot].
      - rewrite (Hne Hsrc).
        destruct (decide (src ∈ sources)) as [Hin|Hin].
        + by rewrite decide_True by by apply list_elem_of_further.
        + rewrite decide_False; [done|]. intros [?|?]%elem_of_cons; done. }
    destruct (item !! source) as [[| | | | |data]|] eqn:E; try done.
    + apply (Hstep prices Hres); [|done]. intros ->. by rewrite E.
    + destruct (pricempire.priceOf Parse data) as [p|err] eqn:Ep; [|done].
      apply (Hstep _ Hres).
      * intros ->. rewrite E, Ep. split; [done|]. intros _. by rewrite lookup_insert_eq.
      * intros Hne. by rewrite lookup_insert_ne.
    + apply (Hstep prices Hres); [|done]. intros ->. by rewrite E.
Qed.

Lemma pricesFrom_spec item sources res src p :
  pricesFrom item sources ∅ = inl res →
  res !! src = Some p ↔
  src ∈ sources ∧ ∃ data, item !! src = Some (Map data) ∧ priceOf data = inl p.
Proof.
  intros Hres. rewrite (pricesFrom_lookup _ _ _ _ src Hres), lookup_empty.
  destruct (decide (src ∈ sources)) as [Hin|Hin].
  - destruct (item !! src) as [[| | | | |data]|] eqn:E;
      try (split; [done|by intros (_ & data' & [=] & _)]).
    destruct (pricempire.priceOf Parse data) as [p'|err] eqn:Ep; split.
    + intros [= <-]. split; [done|]. by exists data.
    + intros (_ & data' & [= <-] & Hp). rewrite Ep in Hp. by injection Hp as <-.
    + done.
    + intros (_ & data' & [= <-] & Hp). by rewrite Ep in Hp.
  - split; [done|]. by intros [? _].
Qed.

Lemma pricesFrom_sources item sources prices res src :
  pricesFrom item sources prices = inl res → src ∈ sources →
  item !! src = None ∨ item !! src = Some Nil ∨
  ∃ data p, item !! src = Some (Map data) ∧ priceOf data = inl p.
Proof.
  revert prices. induction sources as [|source sources IH]; intros prices Hres Hin.
  - by apply elem_of_nil in Hin.
  - cbn [pricempire.pricesFrom] in Hres.
    apply elem_of_cons in Hin as [->|Hin].
    + destruct (item !! source) as [[| | | | |data]|] eqn:E; try done.
      * right. by left.
      * destruct (pricempire.priceOf Parse data) as [p|err] eqn:Ep; [|done].
        right. right. by exists data, p.
      * by left.
    + destruct (item !! source) as [[| | | | |data]|] eqn:E; try done.
      * by apply (IH prices).
      * destruct (pricempire.priceOf Parse data) as [p|err] eqn:Ep; [|done].
        by apply (IH (<[source := p]> prices)).
      * by apply (IH prices).
Qed.

Lemma itemOf_spec sources name raw it :
  itemOf sources name raw = inl it →
  Name it = name ∧
  ∃ item, raw = Map item ∧
    (∀ src, src ∈ sources →
       item !! src = None ∨ item !! src = Some Nil ∨
       ∃ data p, item !! src = Some (Map data) ∧ priceOf data = inl p) ∧
    ∀ src p, Prices it !! src = Some p ↔
             src ∈ sources ∧ ∃ data, item !! src = Some (Map data) ∧ priceOf data = inl p.
Proof.
  unfold pricempire.itemOf. destruct raw as [| | | | |item]; try done.
  destruct (parseNullableValue float64_ item "liquidity") as [liquidity|]; [|done].
  destruct (pricempire.pricesFrom Parse item sources ∅) as [prices|] eqn:Ep; [|done].
  intros [= <-]. split; [done|]. exists item. split; [done|]. split.
  - intros src. by apply (pricesFrom_sources _ _ _ _ _ Ep).
  - intros src p. by apply pricesFrom_spec.
Qed.

Lemma itemsFrom_spec sources body acc its :
  itemsFrom sources body acc = inl its →
  ∃ new, its = (acc ++ new)%list ∧
         Forall2 (fun nr it => itemOf sources nr.1 nr.2 = inl it) body new.
Proof.
  revert acc. induction body as [|[name raw] body IH]; intros acc Hits.
  - injection Hits as <-. exists []. split; [by rewrite app_nil_r|constructor].
  - cbn [pricempire.itemsFrom] in Hits.
    destruct (pricempire.itemOf Parse sources name raw) as [it|] eqn:E; [|done].
    destruct (IH _ Hits) as (new & -> & Hall). exists (it :: new). split.
    + by rewrite <- app_assoc.
    + by constructor.
Qed.

(** X30. The items that [GetAllItemsV3] makes of a decoded response, when
    it returns any.  There is one item for each name of the response, and
    what the response has under the name is an object.  Under each
    requested source this object has nothing, null, or an object the
    price of which parses without an error; the prices of the item are
    those of the requested sources of the last kind, and no other field
    of the object leaves a price. *)
Theorem items_of_a_response body sources its :
  (∀ m, rangeBody m ≡ₚ map_to_list m) →
  items Parse rangeBody body sources = inl its →
  Name <$> its ≡ₚ (map_to_list body).*1 ∧
  ∀ it, it ∈ its →
    ∃ item, body !! Name it = Some (Map item) ∧
      (∀ src, src ∈ sources →
         item !! src = None ∨ item !! src = Some Nil ∨
         ∃ data p, item !! src = Some (Map data) ∧ priceOf data = inl p) ∧
      ∀ src p, Prices it !! src = Some p ↔
               src ∈ sources ∧ ∃ data, item !! src = Some (Map data) ∧ priceOf data = inl p.
Proof.
  intros Hrange Hits. unfold items in Hits.
  apply itemsFrom_spec in Hits as (new & -> & Hall). cbn [app].
  split.
  - rewrite <- (Hrange body). induction Hall as [|[name raw] it l l' Hit _ IH]; [done|].
    cbn [fmap list_fmap]. apply itemOf_spec in Hit as [-> _]. by f_equiv.
  - intros it Hin.
    assert (∃ nr, nr ∈ rangeBody body ∧ itemOf sources nr.1 nr.2 = inl it)
      as ([name raw] & Hnr & Hit).
    { clear Hrange. induction Hall as [|nr it' l l' Hit _ IH]; [by apply elem_of_nil in Hin|].
      apply elem_of_cons in Hin as [->|Hin].
      - exists nr. split; [apply list_elem_of_here|done].
      - destruct (IH Hin) as (nr' & ? & ?). exists nr'.
        split; [by apply list_elem_of_further|done]. }
    rewrite (Hrange _) in Hnr. apply elem_of_map_to_list in Hnr.
    apply itemOf_spec in Hit as (Hname & item & Heq & Hprices). cbn [fst snd] in *.
    subst. by exists item.
Qed.

(** One item that is not an object fails the whole call. *)
Lemma items_all_or_nothing body sources name raw :
  (∀ m, rangeBody m ≡ₚ map_to_list m) →
  body !! name = Some raw → (∀ item, raw ≠ Map item) →
  ∃ err, items Parse rangeBody body sources = inr err.
Proof.
  intros Hrange Hraw Hno.
  destruct (items Parse rangeBody body sources) as [its|err] eqn:E; [|by exists err].
  unfold items in E. apply itemsFrom_spec in E as (new & _ & Hall).
  assert ((name, raw) ∈ rangeBody body) as Hin
    by (rewrite (Hrange _); by apply elem_of_map_to_list).
  induction Hall as [|nr it l l' Hit _ IH]; [by apply elem_of_nil in Hin|].
  apply elem_of_cons in Hin as [<-|Hin]; [|by apply IH].
  apply itemOf_spec in Hit as (_ & item & Heq & _). by destruct (Hno item).
Qed.

End PricempireItems.

Section PricempireItemsScenario.
Import pricempire.

Lemma items_of_a_response_witness :
  let Parse : string → time.Time + error := fun _ => inr "parsing time" in
  let body : gmap string any :=
    {["X" := Map {["liquidity" := Float64 53%float;
                   "buff" := Map {["price" := Float64 32%float]};
                   "steam" := Nil]}]} in
  let its := [{| Name := "X"; Liquidity := Some 53%float;
                 Prices := {["buff" := {| Price_ := Some 32%float; Count := None;
                                          Avg30 := None; Inflated := None;
                                          CreatedAt := None |}]} |}] in
  Name <$> its ≡ₚ (map_to_list body).*1 ∧
  ∀ it, it ∈ its →
    ∃ item, body !! Name it = Some (Map item) ∧
      (∀ src, src ∈ ["buff"; "steam"; "skinport"] →
         item !! src = None ∨ item !! src = Some Nil ∨
         ∃ data p, item !! src = Some (Map data) ∧ priceOf Parse data = inl p) ∧
      ∀ src p, Prices it !! src = Some p ↔
               src ∈ ["buff"; "steam"; "skinport"] ∧
               ∃ data, item !! src = Some (Map data) ∧ priceOf Parse data = inl p.
Proof.
  refine (items_of_a_response (fun _ => inr "parsing time") map_to_list
            {["X" := Map {["liquidity" := Float64 53%float;
                           "buff" := Map {["price" := Float64 32%float]};
                           "steam" := Nil]}]}
            ["buff"; "steam"; "skinport"]
            [{| Name := "X"; Liquidity := Some 53%float;
                Prices := {["buff" := {| Price_ := Some 32%float; Count := None;
                                         Avg30 := None; Inflated := None;
                                         CreatedAt := None |}]} |}] _ _).
  - reflexivity.
  - by vm_compute.
Defined.

End PricempireItemsScenario.
